(** * Liberty (.lib) rewriting scripts of asap7_sram_0p0: a shallow embedding

    The three scripts [fix_asap7_macros.py], [remove_setup_falling.py] and
    [update_lib_area.py] are embedded as Rocq functions over Python strings.

    Conventions of the embedding.
    - A Python [str] is a [list ascii]; a file read with [readlines()] or by
      iterating the file object is the [list] of its lines, each line but
      possibly the last ending with a newline.  Files are opened in text
      mode: CR LF and CR are read as a newline, and a newline is written
      as it is (POSIX).  Liberty files are 7-bit ASCII text, and the
      character classes [\w], [\d], [\s] and [str.isspace] below are the
      ASCII ones.
    - Regular expressions are values of the type [re] and are run by a
      backtracking matcher with the greedy, leftmost semantics of Python's
      [re] module.
    - Python floats are IEEE binary64 numbers, modelled exactly with integer
      arithmetic on [Z] ([float()], [/] and the [.8g] format are all
      correctly rounded, ties to even).
    - Files live in a store [gmap string (list ascii)], path to content. *)

From Stdlib Require Import ZArith Lia List Ascii String Bool.
From Stdlib Require Import DecimalString Decimal.
From Stdlib Require DecimalN DecimalPos DecimalFacts.
From stdpp Require Import base list gmap strings.

Local Open Scope Z_scope.

(** ** Python strings *)

Module Py.

Abbreviation str := (list ascii).

(** [L "abc"] is the Python literal ['abc']. *)
Definition L (s : string) : str := list_ascii_of_string s.

Definition code (a : ascii) : N := N_of_ascii a.

Definition between (lo hi : N) (a : ascii) : bool :=
  ((lo <=? code a) && (code a <=? hi))%N.

(** [\d] *)
Definition is_digit (a : ascii) : bool := between 48 57 a.

(** [\w]: letters, digits and the underscore *)
Definition is_word (a : ascii) : bool :=
  between 48 57 a || between 65 90 a || between 97 122 a || (code a =? 95)%N.

(** [str.isspace] and [\s]: TAB, LF, VT, FF, CR, FS, GS, RS, US and space *)
Definition is_space (a : ascii) : bool :=
  between 9 13 a || between 28 31 a || (code a =? 32)%N.

Definition chr_eqb (a b : ascii) : bool := Ascii.eqb a b.

(** The character [a] in either case, for [re.IGNORECASE]. *)
Definition chr_ci (a b : ascii) : bool :=
  chr_eqb a b
  || (between 97 122 a && (code b =? code a - 32)%N)
  || (between 65 90 a && (code b =? code a + 32)%N).

(** [s.lstrip()] *)
Fixpoint lstrip (s : str) : str :=
  match s with
  | a :: s' => if is_space a then lstrip s' else s
  | [] => []
  end.

(** [s.rstrip()] *)
Definition rstrip (s : str) : str := rev (lstrip (rev s)).

(** [s.strip()] *)
Definition strip (s : str) : str := rstrip (lstrip s).

(** [s.rstrip(c)] for a one-character argument *)
Fixpoint lstrip_chr (c : ascii) (s : str) : str :=
  match s with
  | a :: s' => if chr_eqb a c then lstrip_chr c s' else s
  | [] => []
  end.

Definition rstrip_chr (c : ascii) (s : str) : str :=
  rev (lstrip_chr c (rev s)).

(** [s.startswith(p)] *)
Fixpoint startswith (p s : str) : bool :=
  match p, s with
  | [], _ => true
  | a :: p', b :: s' => chr_eqb a b && startswith p' s'
  | _ :: _, [] => false
  end.

(** [p in s] *)
Fixpoint contains (p s : str) : bool :=
  startswith p s ||
  match s with
  | _ :: s' => contains p s'
  | [] => false
  end.

(** [s.count(c)] for a one-character argument *)
Fixpoint count (c : ascii) (s : str) : Z :=
  match s with
  | a :: s' => (if chr_eqb a c then 1 else 0) + count c s'
  | [] => 0
  end.

(** The last character of [s], or [p] when [s] is empty. *)
Fixpoint last_chr (p : option ascii) (s : str) : option ascii :=
  match s with
  | [] => p
  | a :: s' => last_chr (Some a) s'
  end.

End Py.

Import Py.

(** ** Regular expressions with Python's backtracking semantics *)

Module Re.

(** The constructs used by the patterns of the three scripts.  Repetition
    is only ever applied to a single character class there. *)
Inductive re : Type :=
| Eps
| Cls (c : ascii -> bool)          (* one character of the class *)
| Seq (r1 r2 : re)
| Opt (r : re)                     (* greedy (?:r)? *)
| Star (c : ascii -> bool)         (* greedy c* *)
| NotBehind (c : ascii -> bool)    (* (?<!c) *)
| NotAhead (c : ascii -> bool)     (* (?!c) *)
| Bol (multiline : bool)           (* ^ *)
| Group (n : nat) (r : re).        (* capturing group number n *)

Definition Chr (a : ascii) : re := Cls (chr_eqb a).
Definition Plus (c : ascii -> bool) : re := Seq (Cls c) (Star c).

(** A literal word. *)
Fixpoint Word (f : ascii -> ascii -> bool) (w : str) : re :=
  match w with
  | [] => Eps
  | a :: w' => Seq (Cls (f a)) (Word f w')
  end.

Fixpoint Seqs (rs : list re) : re :=
  match rs with
  | [] => Eps
  | r :: rs' => Seq r (Seqs rs')
  end.

(** Captured groups: group number and captured text. *)
Abbreviation caps := (list (nat * str)).

Fixpoint group (n : nat) (cs : caps) : str :=
  match cs with
  | [] => []
  | (m, t) :: cs' => if Nat.eqb n m then t else group n cs'
  end.

Section Matcher.
Context {A : Type}.

(** The continuation receives the character before the current position,
    the rest of the subject and the groups captured so far. *)
Definition cont := option ascii -> str -> caps -> option A.

(** Greedy [c*]: the longest run first, then one character less, ... *)
Fixpoint star (c : ascii -> bool) (prev : option ascii) (s : str)
    (cs : caps) (k : cont) : option A :=
  match s with
  | a :: s' =>
      if c a then
        match star c (Some a) s' cs k with
        | Some x => Some x
        | None => k prev s cs
        end
      else k prev s cs
  | [] => k prev s cs
  end.

Fixpoint rmatch (r : re) (prev : option ascii) (s : str) (cs : caps)
    (k : cont) : option A :=
  match r with
  | Eps => k prev s cs
  | Cls c =>
      match s with
      | a :: s' => if c a then k (Some a) s' cs else None
      | [] => None
      end
  | Seq r1 r2 =>
      rmatch r1 prev s cs (fun p' s' cs' => rmatch r2 p' s' cs' k)
  | Opt r1 =>
      match rmatch r1 prev s cs k with
      | Some x => Some x
      | None => k prev s cs
      end
  | Star c => star c prev s cs k
  | NotBehind c =>
      match prev with
      | Some a => if c a then None else k prev s cs
      | None => k prev s cs
      end
  | NotAhead c =>
      match s with
      | a :: _ => if c a then None else k prev s cs
      | [] => k prev s cs
      end
  | Bol multiline =>
      match prev with
      | None => k prev s cs
      | Some a =>
          if multiline && chr_eqb a "010"%char then k prev s cs else None
      end
  | Group n r1 =>
      rmatch r1 prev s cs
        (fun p' s' cs' =>
           k p' s' ((n, take (length s - length s')%nat s) :: cs'))
  end.
End Matcher.

(** A match attempt at the current position: the rest of the subject after
    the match and the captured groups, [None] when the pattern fails here. *)
Definition match_here (r : re) (prev : option ascii) (s : str)
  : option (str * caps) :=
  rmatch r prev s [] (fun _ s' cs => Some (s', cs)).

(** [re.search(r, s)]: the match at the leftmost position that has one. *)
Fixpoint search_from (r : re) (prev : option ascii) (s : str)
  : option (str * caps) :=
  match match_here r prev s with
  | Some m => Some m
  | None =>
      match s with
      | a :: s' => search_from r (Some a) s'
      | [] => None
      end
  end.

Definition search (r : re) (s : str) : option (str * caps) :=
  search_from r None s.

(** The truth value of a match object. *)
Definition found (m : option (str * caps)) : bool :=
  match m with Some _ => true | None => false end.

(** [r.subn(repl, s)]: the non-overlapping matches are found from left to
    right and each is replaced by [repl] applied to the matched text and
    its groups.  [skip] counts the characters of the current match that are
    still to be passed over. *)
Fixpoint subn_go (r : re) (repl : str -> caps -> str) (skip : nat)
    (prev : option ascii) (s : str) : str * nat :=
  match s with
  | [] =>
      match skip, match_here r prev [] with
      | O, Some (_, cs) => (repl [] cs, 1%nat)
      | _, _ => ([], 0%nat)
      end
  | a :: s' =>
      match skip with
      | S n => subn_go r repl n (Some a) s'
      | O =>
          match match_here r prev s with
          | Some (rest, cs) =>
              let n := (length s - length rest)%nat in
              let tok := take n s in
              match n with
              | O =>
                  let '(out, c) := subn_go r repl 0 (Some a) s' in
                  (repl tok cs ++ a :: out, S c)
              | S n' =>
                  let '(out, c) := subn_go r repl n' (Some a) s' in
                  (repl tok cs ++ out, S c)
              end
          | None =>
              let '(out, c) := subn_go r repl 0 (Some a) s' in
              (a :: out, c)
          end
      end
  end.

Definition subn (r : re) (repl : str -> caps -> str) (s : str) : str * nat :=
  subn_go r repl 0 None s.

Definition sub (r : re) (repl : str -> caps -> str) (s : str) : str :=
  fst (subn r repl s).

End Re.

Import Re.

(** ** Python floats: IEEE binary64, computed exactly on integers *)

Module Float.

(** A binary64 value: a signed zero or finite number [m * 2^e] with
    [0 <= m < 2^53] and [-1074 <= e <= 971], or a signed infinity. *)
Inductive float : Type :=
| Fin (neg : bool) (m e : Z)
| Inf (neg : bool).

(** Round-half-even of the non-negative fraction [n / d]. *)
Definition div_half_even (n d : Z) : Z :=
  let q := n / d in
  let r := n mod d in
  if (2 * r <? d) then q
  else if (d <? 2 * r) then q + 1
  else if Z.even q then q else q + 1.

(** [ilog2 n d] is [floor (log2 (n / d))] for positive [n] and [d]. *)
Definition ilog2 (n d : Z) : Z :=
  let t := Z.log2 n - Z.log2 d in
  if (d * 2 ^ Z.max t 0 <=? n * 2 ^ Z.max (- t) 0) then t else t - 1.

(** The binary64 number nearest to [n / d] ([n >= 0], [d > 0]), ties to
    even, with gradual underflow and overflow to infinity. *)
Definition round (neg : bool) (n d : Z) : float :=
  if (n <=? 0) then Fin neg 0 0
  else
    let e := Z.max (ilog2 n d - 52) (-1074) in
    let m := div_half_even (n * 2 ^ Z.max (- e) 0) (d * 2 ^ Z.max e 0) in
    let '(m, e) := if (m =? 2 ^ 53) then (2 ^ 52, e + 1) else (m, e) in
    if (971 <? e) then Inf neg
    else if (m =? 0) then Fin neg 0 0
    else Fin neg m e.

(** [x / 1000.0] *)
Definition div1000 (x : float) : float :=
  match x with
  | Fin neg m e => round neg (m * 2 ^ Z.max e 0) (1000 * 2 ^ Z.max (- e) 0)
  | Inf neg => Inf neg
  end.

(** *** [float(s)] on a decimal literal *)

Definition digit_val (a : ascii) : Z := Z.of_N (code a) - 48.

Fixpoint span (c : ascii -> bool) (s : str) : str * str :=
  match s with
  | a :: s' =>
      if c a then let '(l, r) := span c s' in (a :: l, r) else ([], s)
  | [] => ([], [])
  end.

Definition nat_of_digits (ds : str) : Z :=
  fold_left (fun acc a => 10 * acc + digit_val a) ds 0.

(** The literals [float] accepts among those that start with an optional
    sign and a digit: a sign, digits, an optional point with optional
    digits, an optional exponent made of e or E, a sign and digits.  The
    value denoted is [(-1)^neg * mant * 10^exp10]. *)
Definition parse_decimal (s : str) : option (bool * Z * Z) :=
  let '(neg, s) :=
    match s with
    | "-"%char :: s' => (true, s')
    | "+"%char :: s' => (false, s')
    | _ => (false, s)
    end in
  let '(ip, s) := span is_digit s in
  match ip with
  | [] => None
  | _ =>
      let '(fp, s) :=
        match s with
        | "."%char :: s' => span is_digit s'
        | _ => ([], s)
        end in
      let mant := nat_of_digits (ip ++ fp) in
      let shift := Z.of_nat (length fp) in
      match s with
      | [] => Some (neg, mant, - shift)
      | x :: s' =>
          if chr_ci "e"%char x then
            let '(eneg, s'') :=
              match s' with
              | "-"%char :: t => (true, t)
              | "+"%char :: t => (false, t)
              | _ => (false, s')
              end in
            let '(ep, rest) := span is_digit s'' in
            match ep, rest with
            | _ :: _, [] =>
                let ev := nat_of_digits ep in
                Some (neg, mant, (if eneg then - ev else ev) - shift)
            | _, _ => None
            end
          else None
      end
  end.

(** [float(s)]; [None] stands for [ValueError]. *)
Definition of_str (s : str) : option float :=
  match parse_decimal s with
  | Some (neg, mant, exp10) =>
      Some (round neg (mant * 10 ^ Z.max exp10 0) (10 ^ Z.max (- exp10) 0))
  | None => None
  end.

(** *** [format(x, '.8g')] *)

Definition digits_of_Z (n : Z) : str :=
  list_ascii_of_string (NilZero.string_of_uint (N.to_uint (Z.to_N n))).

Definition zeros (n : Z) : str := replicate (Z.to_nat n) "0"%char.

(** [floor (log10 (n / d))] for positive [n] and [d], found from the
    estimate [log10 2 ~ 30103 / 100000] and corrected by comparison. *)
Definition ge_pow10 (n d x : Z) : bool :=
  d * 10 ^ Z.max x 0 <=? n * 10 ^ Z.max (- x) 0.

Fixpoint ilog10_from (fuel : nat) (n d x : Z) : Z :=
  match fuel with
  | O => x
  | S f =>
      if negb (ge_pow10 n d x) then ilog10_from f n d (x - 1)
      else if ge_pow10 n d (x + 1) then ilog10_from f n d (x + 1)
      else x
  end.

Definition ilog10 (n d : Z) : Z :=
  ilog10_from 4 n d (ilog2 n d * 30103 / 100000).

(** The [p] significant decimal digits of [n / d], correctly rounded, and
    the decimal exponent [x] of the first one. *)
Definition sig_digits (p n d : Z) : Z * Z :=
  let x := ilog10 n d in
  let sh := p - 1 - x in
  let dg := div_half_even (n * 10 ^ Z.max sh 0) (d * 10 ^ Z.max (- sh) 0) in
  if (dg =? 10 ^ p) then (10 ^ (p - 1), x + 1) else (dg, x).

Definition point_frac (fs : str) : str :=
  match fs with
  | [] => []
  | _ => "."%char :: fs
  end.

(** The [g] presentation with precision [p] and no [#] flag: exponent
    notation when the decimal exponent is below [-4] or at least [p];
    trailing zeros, and a trailing point, are removed. *)
Definition format_g (p : Z) (x : float) : str :=
  match x with
  | Inf neg => (if neg then L "-" else []) ++ L "inf"
  | Fin neg m e =>
      (if neg then L "-" else []) ++
      if (m =? 0) then L "0"
      else
        let '(dg, x10) :=
          sig_digits p (m * 2 ^ Z.max e 0) (2 ^ Z.max (- e) 0) in
        let ds := rstrip_chr "0"%char (digits_of_Z dg) in
        if (x10 <? -4) || (p <=? x10) then
          take 1 ds ++ point_frac (drop 1 ds) ++ L "e" ++
          (if (x10 <? 0) then L "-" else L "+") ++
          (if (Z.abs x10 <? 10) then L "0" else []) ++
          digits_of_Z (Z.abs x10)
        else if (x10 <? 0) then
          L "0." ++ zeros (- x10 - 1) ++ ds
        else
          let ip := Z.to_nat (x10 + 1) in
          take ip ds ++ zeros (x10 + 1 - Z.of_nat (length ds)) ++
          point_frac (drop ip ds)
  end.

End Float.

Import Float.

(** ** Files *)

Module IO.

(** The file store: path to content. *)
Abbreviation store := (gmap string str).

(** The scripts open their files in text mode.  Reading translates the
    line ends ("universal newlines"): each CR LF pair and each lone CR
    comes out as LF.  Writing, on a POSIX system, stores the text as it
    is. *)

(** [f.read()] *)
Fixpoint read (s : str) : str :=
  match s with
  | [] => []
  | a :: s' =>
      if chr_eqb a "013"%char then
        "010"%char ::
        match s' with
        | b :: s'' => if chr_eqb b "010"%char then read s'' else read s'
        | [] => []
        end
      else a :: read s'
  end.

(** A text cut after every newline. *)
Fixpoint readlines_go (cur : str) (s : str) : list str :=
  match s with
  | [] => match cur with [] => [] | _ => [rev cur] end
  | a :: s' =>
      if chr_eqb a "010"%char then rev (a :: cur) :: readlines_go [] s'
      else readlines_go (a :: cur) s'
  end.

(** [f.readlines()], and the lines met when iterating over [f] *)
Definition readlines (s : str) : list str := readlines_go [] (read s).

(** What can go wrong while a script runs: a write raises [IOError] when
    [n] characters of the output have reached the file, the process is
    killed at that point, or moving the temporary file into place fails.
    Writes are buffered, so the point at which a fault strikes need not be
    the end of a line. *)
Inductive fault : Type :=
| NoFault
| IOErrorAt (n : nat)
| KilledAt (n : nat)
| MoveError.

Inductive written : Type :=
| WriteOk          (* the whole output was written *)
| WriteRaised      (* a write raised IOError *)
| WriteKilled.     (* the process died *)

(** [n] characters reach the file before the fault strikes, if it does. *)
Definition write_budget (ft : fault) : option nat :=
  match ft with
  | IOErrorAt n | KilledAt n => Some n
  | NoFault | MoveError => None
  end.

Definition write_result (ft : fault) : written :=
  match ft with
  | IOErrorAt _ => WriteRaised
  | KilledAt _ => WriteKilled
  | NoFault | MoveError => WriteOk
  end.

(** [open(path, 'w')] followed by one [write] per chunk and by closing the
    file: the file is created or emptied, and holds the chunks written in
    a row, or the part of them that reached it before the fault. *)
Definition write_file (ft : fault) (path : string) (chunks : list str)
    (fs : store) : store * written :=
  let text := concat chunks in
  match write_budget ft with
  | Some n =>
      if (n <? length text)%nat
      then (<[path := take n text]> fs, write_result ft)
      else (<[path := text]> fs, WriteOk)
  | None => (<[path := text]> fs, WriteOk)
  end.

End IO.

Import IO.

(** ** fix_asap7_macros.py *)

Module Fix.

(** The pattern of [scale_numbers_in_line], written with blanks between
    its pieces:
      (?<!\w) ( -? \d+ (?: \. \d* )? (?: [eE] -? \d+ )? ) (?!\w)  *)
Definition pattern : re :=
  Seqs [ NotBehind is_word;
         Group 1 (Seqs [ Opt (Chr "-");
                         Plus is_digit;
                         Opt (Seqs [Chr "."; Star is_digit]);
                         Opt (Seqs [Cls (chr_ci "e"); Opt (Chr "-");
                                    Plus is_digit]) ]);
         NotAhead is_word ].

(** The replacement function: the number divided by 1000, in [.8g]. *)
Definition replacer (tok : str) (cs : caps) : str :=
  match of_str (group 1 cs) with
  | Some num => format_g 8 (div1000 num)
  | None => group 1 cs
  end.

Definition scale_numbers_in_line (line : str) : str :=
  sub pattern replacer line.

(** *** Pass 1 *)

Record scan_state : Type := ScanState {
  ranges : list (Z * Z);
  brace_depth : Z;
  in_pin_block : bool;
  is_output_pin : bool;
  block_start_info : gmap string Z
}.

Definition scan_init : scan_state :=
  ScanState [] 0 false false ∅.

Definition info_get (d : gmap string Z) (key : string) : Z :=
  default 0 (d !! key).

(** One iteration of the loop of [find_output_pin_line_ranges], at index
    [i] of [enumerate(lines)]. *)
Definition scan_step (st : scan_state) (i : Z) (line : str) : scan_state :=
  let line_num := i + 1 in
  let stripped_line := strip line in
  let opens :=
    (startswith (L "pin (") stripped_line
     || startswith (L "bus (") stripped_line)
    && negb (in_pin_block st) in
  let in_pin := if opens then true else in_pin_block st in
  let is_out := if opens then false else is_output_pin st in
  let info :=
    if opens
    then <["start_line"%string := line_num]>
           (<["start_depth"%string := brace_depth st]> ∅)
    else block_start_info st in
  let depth := brace_depth st + count "{" line - count "}" line in
  let is_out :=
    if in_pin && contains (L "direction") stripped_line
    then (if contains (L "output") stripped_line then true else is_out)
    else is_out in
  if in_pin && (depth <=? info_get info "start_depth")
  then ScanState
         (if is_out
          then ranges st ++ [(info_get info "start_line", line_num)]
          else ranges st)
         depth false false ∅
  else ScanState (ranges st) depth in_pin is_out info.

Fixpoint scan_loop (st : scan_state) (i : Z) (lines : list str)
  : scan_state :=
  match lines with
  | [] => st
  | line :: rest => scan_loop (scan_step st i line) (i + 1) rest
  end.

Definition find_output_pin_line_ranges (lines : list str) : list (Z * Z) :=
  ranges (scan_loop scan_init 0 lines).

(** *** Pass 2 *)

Record pass2_state : Type := Pass2 {
  modified_lines : list str;
  is_in_output_range : bool;
  is_scaling_values : bool;
  current_range_index : nat
}.

Definition pass2_init : pass2_state := Pass2 [] false false 0.

Definition is_index_line (line : str) : bool :=
  startswith (L "index_1") (lstrip line)
  || startswith (L "index_2") (lstrip line).

(** One iteration of the second loop of [process_lib_file]. *)
Definition pass2_step (output_ranges : list (Z * Z)) (st : pass2_state)
    (i : Z) (line : str) : pass2_state :=
  let line_num := i + 1 in
  let idx := current_range_index st in
  let in_range :=
    match output_ranges !! idx with
    | Some (start, _) =>
        if (start <=? line_num) then true else is_in_output_range st
    | None => is_in_output_range st
    end in
  let '(modified_line, scaling) :=
    if in_range then
      let scaling :=
        if contains (L "values (") line then true
        else is_scaling_values st in
      let modified_line :=
        if scaling || is_index_line line
        then scale_numbers_in_line line else line in
      (modified_line,
       if contains (L ");") line then false else scaling)
    else (line, is_scaling_values st) in
  let out := modified_lines st ++ [modified_line] in
  match output_ranges !! idx with
  | Some (_, stop) =>
      if (stop <=? line_num)
      then Pass2 out false scaling (S idx)
      else Pass2 out in_range scaling idx
  | None => Pass2 out in_range scaling idx
  end.

Fixpoint pass2_loop (output_ranges : list (Z * Z)) (st : pass2_state)
    (i : Z) (lines : list str) : pass2_state :=
  match lines with
  | [] => st
  | line :: rest =>
      pass2_loop output_ranges (pass2_step output_ranges st i line)
        (i + 1) rest
  end.

(** The two passes on the lines of the file. *)
Definition process_lines (lines : list str) : list str :=
  modified_lines
    (pass2_loop (find_output_pin_line_ranges lines) pass2_init 0 lines).

Inductive outcome : Type :=
| Done             (* "Done." was printed *)
| Exit1            (* sys.exit(1): input file not found *)
| Died.            (* uncaught exception or killed while writing *)

(** [process_lib_file(input_path, output_path)] on the store. *)
Definition process_lib_file (ft : fault) (input_path output_path : string)
    (fs : store) : store * outcome :=
  match fs !! input_path with
  | None => (fs, Exit1)
  | Some content =>
      let modified := process_lines (readlines content) in
      match write_file ft output_path modified fs with
      | (fs', WriteOk) => (fs', Done)
      | (fs', _) => (fs', Died)
      end
  end.

End Fix.

(** ** remove_setup_falling.py *)

Module Clean.

Definition dquote : ascii := "034"%char.

(** [^\s*pin\s*\(\s*([\w\.-]+)\s*\)] *)
Definition pin_re : re :=
  Seqs [ Bol false; Star is_space; Word chr_eqb (L "pin"); Star is_space;
         Chr "("; Star is_space;
         Group 1 (Plus (fun a => is_word a || chr_eqb "." a || chr_eqb "-" a));
         Star is_space; Chr ")" ].

(** [^\s*timing\s*\(\s*\)\s*\{] *)
Definition timing_start_re : re :=
  Seqs [ Bol false; Star is_space; Word chr_eqb (L "timing"); Star is_space;
         Chr "("; Star is_space; Chr ")"; Star is_space; Chr "{" ].

(** [related_pin\s*:\s*"clk"\s*;] *)
Definition related_pin_clk_re : re :=
  Seqs [ Word chr_eqb (L "related_pin"); Star is_space; Chr ":";
         Star is_space; Chr dquote; Word chr_eqb (L "clk"); Chr dquote;
         Star is_space; Chr ";" ].

(** [timing_type\s*:\s*setup_falling\s*;] *)
Definition setup_falling_re : re :=
  Seqs [ Word chr_eqb (L "timing_type"); Star is_space; Chr ":";
         Star is_space; Word chr_eqb (L "setup_falling"); Star is_space;
         Chr ";" ].

(** A [REMOVED] message: the pin and the first and last line of the block. *)
Record removal : Type := Removal {
  removed_pin : str;
  removed_first : Z;
  removed_last : Z
}.

(** The local variables of [clean_lib_file], with the lines written to
    [f_out] so far and the [REMOVED] messages printed so far. *)
Record state : Type := State {
  in_timing_block : bool;
  brace_level : Z;
  current_timing_block_lines : list str;
  found_clk : bool;
  found_setup_falling : bool;
  current_pin : str;
  line_number : Z;
  block_start_line : Z;
  removed_blocks_count : Z;
  f_out : list str;
  messages : list removal
}.

Definition init : state :=
  State false 0 [] false false (L "UNKNOWN") 0 0 0 [] [].

(** One iteration of [for line in f_in]. *)
Definition step (st : state) (line : str) : state :=
  let line_number := line_number st + 1 in
  let stripped_line := strip line in
  let current_pin :=
    match search pin_re stripped_line with
    | Some (_, cs) => group 1 cs
    | None => current_pin st
    end in
  let timing_start_match := search timing_start_re stripped_line in
  if found timing_start_match && negb (in_timing_block st) then
    State true 1 [line] false false current_pin line_number line_number
      (removed_blocks_count st) (f_out st) (messages st)
  else if in_timing_block st then
    let block_lines := current_timing_block_lines st ++ [line] in
    let found_clk :=
      if found (search related_pin_clk_re stripped_line) then true
      else found_clk st in
    let found_setup_falling :=
      if found (search setup_falling_re stripped_line) then true
      else found_setup_falling st in
    let brace_level :=
      brace_level st + count "{" line - count "}" line in
    if (brace_level =? 0) then
      if found_clk && found_setup_falling then
        State false brace_level [] found_clk found_setup_falling
          current_pin line_number (block_start_line st)
          (removed_blocks_count st + 1) (f_out st)
          (messages st ++
             [Removal current_pin (block_start_line st) line_number])
      else
        State false brace_level [] found_clk found_setup_falling
          current_pin line_number (block_start_line st)
          (removed_blocks_count st) (f_out st ++ block_lines)
          (messages st)
    else
      State true brace_level block_lines found_clk found_setup_falling
        current_pin line_number (block_start_line st)
        (removed_blocks_count st) (f_out st) (messages st)
  else
    State false (brace_level st) (current_timing_block_lines st)
      (found_clk st) (found_setup_falling st) current_pin line_number
      (block_start_line st) (removed_blocks_count st)
      (f_out st ++ [line]) (messages st).

Definition run (st : state) (lines : list str) : state :=
  foldl step st lines.

(** The lines written to the temporary file for the input [lines]. *)
Definition clean_lines (lines : list str) : list str :=
  f_out (run init lines).

Inductive outcome : Type :=
| Skipped                      (* input file not found *)
| Failed                       (* exception while processing: temp removed *)
| Overwritten (removed : Z)    (* temp moved over the input *)
| MoveFailed                   (* shutil.move raised: temp removed *)
| Killed.                      (* the process died while writing *)

Definition temp_of (filename : string) : string :=
  (filename +:+ ".tmp")%string.

(** [clean_lib_file(filename)] on the store. *)
Definition clean_lib_file (ft : fault) (filename : string) (fs : store)
  : store * outcome :=
  match fs !! filename with
  | None => (fs, Skipped)
  | Some content =>
      let temp_filename := temp_of filename in
      let final := run init (readlines content) in
      match write_file ft temp_filename (f_out final) fs with
      | (fs', WriteRaised) => (delete temp_filename fs', Failed)
      | (fs', WriteKilled) => (fs', Killed)
      | (fs', WriteOk) =>
          match ft with
          | MoveError => (delete temp_filename fs', MoveFailed)
          | _ =>
              (<[filename := default [] (fs' !! temp_filename)]>
                 (delete temp_filename fs'),
               Overwritten (removed_blocks_count final))
          end
      end
  end.

End Clean.

(** ** update_lib_area.py *)

Module Area.

(** A finite [Decimal]: sign, coefficient and exponent. *)
Record Decimal : Type := Dec {
  dec_neg : bool;
  dec_coeff : Z;
  dec_exp : Z
}.

(** [f"{area:f}"]: positional notation, no exponent; the digits of the
    coefficient are all kept. *)
Definition format_f (d : Decimal) : str :=
  let exp := if (dec_coeff d =? 0) && (0 <? dec_exp d) then 0 else dec_exp d in
  let int := digits_of_Z (dec_coeff d) in
  let len := Z.of_nat (length int) in
  let dotplace := exp + len in
  let '(intpart, fracpart) :=
    if (dotplace <? 0) then (L "0", zeros (- dotplace) ++ int)
    else if (len <? dotplace) then (int ++ zeros (dotplace - len), [])
    else
      let ip := take (Z.to_nat dotplace) int in
      (match ip with [] => L "0" | _ => ip end,
       drop (Z.to_nat dotplace) int) in
  (if dec_neg d then L "-" else []) ++ intpart ++ point_frac fracpart.

(** [f"{area:f}".rstrip('0').rstrip('.')] *)
Definition formatted_area (area : Decimal) : str :=
  rstrip_chr "." (rstrip_chr "0" (format_f area)).

Definition is_num_chr (a : ascii) : bool := is_digit a || chr_eqb "." a.

(** [LIB_AREA_RE], compiled with [re.MULTILINE | re.IGNORECASE]:
    ( ^ \s* area \s* : \s* ) [0-9.]+ ( \s* ; )
    written here with blanks between its pieces. *)
Definition LIB_AREA_RE : re :=
  Seqs [ Group 1 (Seqs [ Bol true; Star is_space; Word chr_ci (L "area");
                         Star is_space; Chr ":"; Star is_space ]);
         Plus is_num_chr;
         Group 2 (Seqs [ Star is_space; Chr ";" ]) ].

(** The template [\g<1>{formatted_area}\g<2>]; [formatted_area] holds no
    backslash, so it stands for itself. *)
Definition replacement (formatted : str) (tok : str) (cs : caps) : str :=
  group 1 cs ++ formatted ++ group 2 cs.

(** [LIB_AREA_RE.subn(replacement_string, lib_content)] *)
Definition subn_area (area : Decimal) (lib_content : str) : str * nat :=
  subn LIB_AREA_RE (replacement (formatted_area area)) lib_content.

(** [update_lib_file(lib_file_path, area)] on the store: the new store and
    the value returned, [None] when the process died. *)
Definition update_lib_file (ft : fault) (lib_file_path : string)
    (area : Decimal) (fs : store) : store * option bool :=
  match fs !! lib_file_path with
  | None => (fs, Some false)
  | Some content =>
      let lib_content := read content in
      let '(new_lib_content, count) := subn_area area lib_content in
      match count with
      | O => (fs, Some false)
      | S _ =>
          match write_file ft lib_file_path [new_lib_content] fs with
          | (fs', WriteOk) => (fs', Some true)
          | (fs', WriteRaised) => (fs', Some false)
          | (fs', WriteKilled) => (fs', None)
          end
      end
  end.

End Area.

(** ** update_lib_area.py: the macro name and the LEF file *)

Module Lef.

Import Area.

(** [BITS_RE]: _ ( \d+ ) x ( \d+ ) x ( \d+ ), written here with blanks
    between its pieces. *)
Definition BITS_RE : re :=
  Seqs [ Chr "_"; Group 1 (Plus is_digit); Chr "x";
         Group 2 (Plus is_digit); Chr "x"; Group 3 (Plus is_digit) ].

(** Since CPython 3.11 (and the security releases of 3.7 to 3.10) the
    conversions between [int] and [str] refuse more than
    [sys.get_int_max_str_digits()] digits; 4300 is the default. *)
Definition int_max_str_digits : Z := 4300.

(** [int(s)] for a run of digits [s]; [None] stands for [ValueError]. *)
Definition int_of_str (s : str) : option Z :=
  if (int_max_str_digits <? Z.of_nat (length s)) then None
  else Some (nat_of_digits s).

(** [get_bits_from_name(macro_name)]; the [except] branch returns [None]
    when a dimension is too long for [int]. *)
Definition get_bits_from_name (macro_name : str) : option Z :=
  match search BITS_RE macro_name with
  | None => None
  | Some (_, cs) =>
      match int_of_str (group 1 cs), int_of_str (group 2 cs),
            int_of_str (group 3 cs) with
      | Some dim1, Some dim2, Some dim3 =>
          let total_bits := dim1 * dim2 * dim3 in
          if (total_bits =? 0) then None else Some total_bits
      | _, _, _ => None
      end
  end.

(** [LEF_SIZE_RE], compiled with [re.MULTILINE | re.IGNORECASE]:
    ^ \s* SIZE \s+ ( [0-9.]+ ) \s+ BY \s+ ( [0-9.]+ ) \s* ;
    written here with blanks between its pieces. *)
Definition LEF_SIZE_RE : re :=
  Seqs [ Bol true; Star is_space; Word chr_ci (L "SIZE"); Plus is_space;
         Group 1 (Plus is_num_chr); Plus is_space; Word chr_ci (L "BY");
         Plus is_space; Group 2 (Plus is_num_chr); Star is_space; Chr ";" ].

(** The arithmetic context: [getcontext().prec = 10], the other fields are
    the defaults of the [decimal] module (rounding half to even, [Emax] and
    [Emin], no clamping; [Overflow] and [InvalidOperation] are trapped). *)
Definition prec : Z := 10.
Definition Emax : Z := 999999.
Definition Emin : Z := -999999.
Definition Etiny : Z := Emin - prec + 1.
Definition Etop : Z := Emax - prec + 1.

(** [Decimal(s)] for a text [s] made of digits and points, as the groups of
    [LEF_SIZE_RE] are: digits with at most one point and at least one
    digit; the conversion is exact.  [None] stands for
    [InvalidOperation]. *)
Definition Decimal_of_str (s : str) : option Decimal :=
  let '(intpart, r) := span is_digit s in
  let '(fracpart, r) :=
    match r with
    | "."%char :: r' => span is_digit r'
    | _ => ([], r)
    end in
  match r, intpart ++ fracpart with
  | [], _ :: _ =>
      Some (Dec false (nat_of_digits (intpart ++ fracpart))
              (- Z.of_nat (length fracpart)))
  | _, _ => None
  end.

(** The number of digits of a coefficient, [len(self._int)]. *)
Definition ndigits (c : Z) : Z := Z.of_nat (length (digits_of_Z c)).

(** The rounding of an exact result to the context: at most [prec] digits
    are kept, the last one rounded half to even; a result below the normal
    range is rounded at [Etiny].  [None] stands for the [Overflow]
    exception. *)
Definition Decimal_fix (d : Decimal) : option Decimal :=
  let c := dec_coeff d in
  if (c =? 0) then
    Some (Dec (dec_neg d) 0 (Z.min (Z.max (dec_exp d) Etiny) Emax))
  else
    let exp_min := ndigits c + dec_exp d - prec in
    if (Etop <? exp_min) then None
    else
      let exp_min := Z.max exp_min Etiny in
      if (dec_exp d <? exp_min) then
        let coeff := div_half_even c (10 ^ (exp_min - dec_exp d)) in
        let '(coeff, exp_min) :=
          if (coeff =? 10 ^ prec) then (10 ^ (prec - 1), exp_min + 1)
          else (coeff, exp_min) in
        if (Etop <? exp_min) then None
        else Some (Dec (dec_neg d) coeff exp_min)
      else Some d.

(** [a * b] in the context. *)
Definition Decimal_mul (a b : Decimal) : option Decimal :=
  Decimal_fix (Dec (xorb (dec_neg a) (dec_neg b))
                 (dec_coeff a * dec_coeff b) (dec_exp a + dec_exp b)).

(** [get_area_from_lef(lef_file_path)] on the store; [None] is returned
    when the file is missing, when no [SIZE] statement is found and when
    an exception is caught. *)
Definition get_area_from_lef (lef_file_path : string) (fs : store)
  : option Decimal :=
  match fs !! lef_file_path with
  | None => None
  | Some raw =>
      let content := read raw in
      match search LEF_SIZE_RE content with
      | None => None
      | Some (_, cs) =>
          match Decimal_of_str (group 1 cs) with
          | None => None
          | Some width =>
              match Decimal_of_str (group 2 cs) with
              | None => None
              | Some height => Decimal_mul width height
              end
          end
      end
  end.

(** [GE_AREA] *)
Definition GE_AREA : Decimal := Dec false 8748 (-5).

(** The decimal exponent of the first digit of [a / b] once rounded to
    [prec] digits, for positive [a] and [b]. *)
Definition quotient_adjusted (a b : Decimal) : Z :=
  let e := dec_exp a - dec_exp b in
  snd (sig_digits prec (dec_coeff a * 10 ^ Z.max e 0)
         (dec_coeff b * 10 ^ Z.max (- e) 0)).

(** [a / b] raises [Overflow]: the rounded quotient is above the range of
    the context.  [a] is not negative and [b] is positive. *)
Definition div_overflows (a b : Decimal) : bool :=
  if (dec_coeff a =? 0) then false else (Emax <? quotient_adjusted a b).

(** Steps 3 and 4 of the loop of [main]: the density is only printed, but
    nothing catches what computing and printing it raises: [Overflow] when
    [area / GE_AREA] is out of range, [ValueError] when the bit count has
    too many digits to be printed.  The division by the bit count and the
    other prints cannot fail. *)
Definition density_raises (macro_name : str) (area : Decimal) : bool :=
  match get_bits_from_name macro_name with
  | Some total_bits =>
      if (0 <? total_bits)
      then div_overflows area GE_AREA
           || (int_max_str_digits <? ndigits total_bits)
      else false
  | None => false
  end.

(** One iteration of the loop of [main], for a library file whose macro
    name and LEF path [main] has derived from its path.  The result tells
    whether the file counts as updated ([true]) or as failed ([false]);
    [None] when the process died. *)
Definition update_from_lef (ft : fault) (macro_name : str)
    (lib_file_path lef_file_path : string) (fs : store)
  : store * option bool :=
  match get_area_from_lef lef_file_path fs with
  | None => (fs, Some false)
  | Some area =>
      if density_raises macro_name area then (fs, None)
      else update_lib_file ft lib_file_path area fs
  end.

End Lef.

(** ** The command lines *)

Module Main.

(** [fix_asap7_macros.py input_lib [output_lib]]: without a second
    argument the input file is overwritten. *)
Definition fix_main (ft : fault) (input_lib : string)
    (output_lib : option string) (fs : store) : store * Fix.outcome :=
  let output_lib :=
    match output_lib with
    | None => input_lib
    | Some path => path
    end in
  Fix.process_lib_file ft input_lib output_lib fs.

(** [remove_setup_falling.py FILE ...]: the files are cleaned one after
    the other; [ft k] is what goes wrong while the [k]-th of them is
    processed.  The outcomes are listed in order; the list ends at the
    file during which the process died, if it did. *)
Fixpoint clean_each (ft : nat -> fault) (k : nat) (filenames : list string)
    (fs : store) : store * list Clean.outcome :=
  match filenames with
  | [] => (fs, [])
  | lib_file :: rest =>
      match Clean.clean_lib_file (ft k) lib_file fs with
      | (fs', Clean.Killed) => (fs', [Clean.Killed])
      | (fs', o) =>
          let '(fs'', os) := clean_each ft (S k) rest fs' in
          (fs'', o :: os)
      end
  end.

Definition clean_main (ft : nat -> fault) (filenames : list string)
    (fs : store) : store * list Clean.outcome :=
  clean_each ft 0 filenames fs.

End Main.

(** * Specification vocabulary *)

(** ** What a pattern denotes *)

(** What a continuation is handed: a suffix of the subject, together with
    the character just before it. *)
Definition reaches (p : option ascii) (s : str) (p' : option ascii)
    (s' : str) : Prop :=
  exists u, s = u ++ s' /\ p' = last_chr p u.

Definition opt_holds (c : ascii -> bool) (p : option ascii) : bool :=
  match p with
  | Some a => c a
  | None => false
  end.

(** The position is at the beginning of the subject or, in multi-line
    mode, just after a newline. *)
Definition at_bol (multiline : bool) (p : option ascii) : bool :=
  match p with
  | None => true
  | Some a => multiline && chr_eqb a "010"%char
  end.

(** [matches r p u rest cs cs']: the pattern [r] matches exactly the text
    [u], when [u] comes after the character [p] and before [rest]; the
    groups go from [cs] to [cs']. *)
Inductive matches : re -> option ascii -> str -> str -> caps -> caps -> Prop :=
| m_eps p rest cs :
    matches Eps p [] rest cs cs
| m_cls c a p rest cs :
    c a = true -> matches (Cls c) p [a] rest cs cs
| m_seq r1 r2 p u1 u2 rest cs cs1 cs2 :
    matches r1 p u1 (u2 ++ rest) cs cs1 ->
    matches r2 (last_chr p u1) u2 rest cs1 cs2 ->
    matches (Seq r1 r2) p (u1 ++ u2) rest cs cs2
| m_opt_some r p u rest cs cs' :
    matches r p u rest cs cs' -> matches (Opt r) p u rest cs cs'
| m_opt_none r p rest cs :
    matches (Opt r) p [] rest cs cs
| m_star c p u rest cs :
    forallb c u = true -> matches (Star c) p u rest cs cs
| m_notbehind c p rest cs :
    opt_holds c p = false -> matches (NotBehind c) p [] rest cs cs
| m_notahead c p rest cs :
    opt_holds c (head rest) = false -> matches (NotAhead c) p [] rest cs cs
| m_bol ml p rest cs :
    at_bol ml p = true -> matches (Bol ml) p [] rest cs cs
| m_group n r p u rest cs cs' :
    matches r p u rest cs cs' ->
    matches (Group n r) p u rest cs ((n, u) :: cs').

(** [substituted r repl p s o n]: [o] is [s] with [n] non-overlapping
    matches of [r], found from left to right, replaced through [repl];
    [p] is the character before [s]. *)
Inductive substituted (r : re) (repl : str -> caps -> str)
  : option ascii -> str -> str -> nat -> Prop :=
| sb_nil p :
    substituted r repl p [] [] 0
| sb_keep p a s o n :
    match_here r p (a :: s) = None ->
    substituted r repl (Some a) s o n ->
    substituted r repl p (a :: s) (a :: o) n
| sb_hit p tok rest cs o n :
    tok <> [] ->
    match_here r p (tok ++ rest) = Some (rest, cs) ->
    substituted r repl (last_chr p tok) rest o n ->
    substituted r repl p (tok ++ rest) (repl tok cs ++ o) (S n).

(** A pattern that never matches the empty text. *)
Definition consuming (r : re) : Prop :=
  forall p s rest cs, match_here r p s = Some (rest, cs) -> rest <> s.

(** ** Numeric tokens *)

Definition all_digits (s : str) : Prop := forallb is_digit s = true.

Definition is_sign (s : str) : Prop := s = [] \/ s = L "-".

Definition is_frac (s : str) : Prop :=
  s = [] \/ exists fd, s = "."%char :: fd /\ all_digits fd.

Definition is_expo (s : str) : Prop :=
  s = [] \/
  exists e es ed, s = e :: es ++ ed /\ chr_ci "e" e = true /\ is_sign es
                  /\ ed <> [] /\ all_digits ed.

(** The texts of the numeric pattern: an optional minus sign, digits, an
    optional point with optional digits, an optional exponent. *)
Definition is_token (tok : str) : Prop :=
  exists sign ip frac expo,
    tok = sign ++ ip ++ frac ++ expo
    /\ is_sign sign /\ ip <> [] /\ all_digits ip /\ is_frac frac
    /\ is_expo expo.

(** The token [tok] divided by 1000 and printed with [.8g]. *)
Definition scaled (tok : str) : str :=
  match of_str tok with
  | Some num => format_g 8 (div1000 num)
  | None => tok
  end.

(** [rewritten p s o]: [o] is [s] with some numeric tokens replaced by
    their scaled value; every replaced token stands free, that is, neither
    the character before it nor the character after it is a word
    character.  [p] is the character before [s]. *)
Inductive rewritten : option ascii -> str -> str -> Prop :=
| rw_nil p :
    rewritten p [] []
| rw_keep p a s o :
    rewritten (Some a) s o -> rewritten p (a :: s) (a :: o)
| rw_token p tok rest o :
    is_token tok ->
    opt_holds is_word p = false ->
    opt_holds is_word (head rest) = false ->
    rewritten (last_chr p tok) rest o ->
    rewritten p (tok ++ rest) (scaled tok ++ o).

(** No numeric token of [line] stands free. *)
Definition no_free_token (line : str) : Prop :=
  forall pre tok post,
    line = pre ++ tok ++ post -> is_token tok ->
    opt_holds is_word (last_chr None pre) = true
    \/ opt_holds is_word (head post) = true.

(** The reading of "a digit sequence next to a word character is never
    altered": the sequence is still found in the result. *)
Definition keeps_adjacent_digits (line : str) : Prop :=
  forall pre ds post,
    line = pre ++ ds ++ post -> ds <> [] -> all_digits ds ->
    opt_holds is_word (last_chr None pre) = true
    \/ opt_holds is_word (head post) = true ->
    exists pre' post', Fix.scale_numbers_in_line line = pre' ++ ds ++ post'.

(** ** Timing blocks, as [clean_lib_file] delimits them *)

Definition is_timing_header (line : str) : bool :=
  found (search Clean.timing_start_re (strip line)).

Definition has_clk (line : str) : bool :=
  found (search Clean.related_pin_clk_re (strip line)).

Definition has_setup_falling (line : str) : bool :=
  found (search Clean.setup_falling_re (strip line)).

(** The lines [body] that follow a header line end the block exactly at
    their last line: the brace level, [lvl] before them, is zero after the
    last one and after no earlier one. *)
Fixpoint closes (lvl : Z) (body : list str) : bool :=
  match body with
  | [] => false
  | line :: rest =>
      let lvl' := lvl + count "{" line - count "}" line in
      if (lvl' =? 0) then
        match rest with [] => true | _ => false end
      else closes lvl' rest
  end.

(** Both conditions are met by lines inside the block. *)
Definition removable (body : list str) : bool :=
  existsb has_clk body && existsb has_setup_falling body.

(** The number of lines covered by the [REMOVED] messages. *)
Definition removed_lines (ms : list Clean.removal) : Z :=
  foldr (fun m acc => Clean.removed_last m - Clean.removed_first m + 1 + acc)
    0 ms.

(** The input does not end inside a timing block. *)
Definition ends_outside_block (lines : list str) : Prop :=
  Clean.in_timing_block (Clean.run Clean.init lines) = false.

(** The line [related_pin : "clk";] and two variations. *)
Definition related_pin_line (pin : string) : str :=
  L "related_pin : " ++ [Clean.dquote] ++ L pin ++ [Clean.dquote] ++ L ";".

(** A timing block written on one line, with both conditions. *)
Definition one_line_block : str :=
  L "timing () { " ++ related_pin_line "clk"
  ++ L " timing_type : setup_falling; }
".

(** A library file whose pin holds that block only. *)
Definition one_line_block_lib : str :=
  L "pin (Q) {
" ++ one_line_block ++ L "}
".

(** A library file whose pin holds a timing block written on one line,
    with neither condition, and then a timing block with both. *)
Definition hold_then_setup_lib : str :=
  L "pin (Q) {
timing () { timing_type : hold_rising; }
timing () {
" ++ related_pin_line "clk" ++ L "
timing_type : setup_falling;
}
}
".

(** A file made of one empty timing block, written on one line. *)
Definition empty_block_lib : str :=
  L "timing () { }
".

(** ** Output blocks and values sub-blocks *)

(** Line number [n] lies in one of the ranges [rs]. *)
Definition in_block (rs : list (Z * Z)) (n : Z) : bool :=
  existsb (fun r => (r.1 <=? n) && (n <=? r.2)) rs.

(** The ranges are non-empty, disjoint and ascending, all above [lo]. *)
Fixpoint sorted_ranges (lo : Z) (rs : list (Z * Z)) : Prop :=
  match rs with
  | [] => True
  | r :: rs' => lo < r.1 /\ r.1 <= r.2 /\ sorted_ranges r.2 rs'
  end.

Fixpoint last_end (lo : Z) (rs : list (Z * Z)) : Z :=
  match rs with
  | [] => lo
  | r :: rs' => last_end r.2 rs'
  end.

Definition has_values_open (line : str) : bool :=
  contains (L "values (") line.

Definition has_values_close (line : str) : bool :=
  contains (L ");") line.

(** The value of [is_scaling_values] after the first [n] lines: the last
    line of an output block that held [values (] or [);] held no [);]. *)
Fixpoint open_after (rs : list (Z * Z)) (lines : list str) (n : nat) : bool :=
  match n with
  | O => false
  | S m =>
      match lines !! m with
      | Some line =>
          if in_block rs (Z.of_nat m + 1) then
            if has_values_close line then false
            else has_values_open line || open_after rs lines m
          else open_after rs lines m
      | None => open_after rs lines m
      end
  end.

(** What pass 2 writes for the line at index [i]. *)
Definition expected (rs : list (Z * Z)) (lines : list str) (i : nat)
    (line : str) : str :=
  if in_block rs (Z.of_nat i + 1)
     && (has_values_open line || open_after rs lines i || Fix.is_index_line line)
  then Fix.scale_numbers_in_line line
  else line.

(** Line [i] is inside a values sub-block of the block that starts at line
    number [s]: a line of the block, at or before [i], holds [values (] and
    no line from there to just before [i] holds [);]. *)
Definition inside_values (lines : list str) (s : Z) (i : nat) : Prop :=
  exists j lj,
    s <= Z.of_nat j + 1 /\ (j <= i)%nat /\ lines !! j = Some lj
    /\ has_values_open lj = true
    /\ forall k lk, (j <= k < i)%nat -> lines !! k = Some lk ->
                    has_values_close lk = false.

(** Line [i] is one that the rescale applies to. *)
Definition selected (lines : list str) (i : nat) (line : str) : Prop :=
  exists s e,
    (s, e) ∈ Fix.find_output_pin_line_ranges lines
    /\ s <= Z.of_nat i + 1 <= e
    /\ (inside_values lines s i \/ Fix.is_index_line line = true).

(** Every values sub-block opened in an output block is closed by a line
    of that block. *)
Definition values_closed_in_blocks (lines : list str) : Prop :=
  forall s e j lj,
    (s, e) ∈ Fix.find_output_pin_line_ranges lines ->
    s <= Z.of_nat j + 1 <= e -> lines !! j = Some lj ->
    has_values_open lj = true ->
    exists k lk, (j <= k)%nat /\ Z.of_nat k + 1 <= e
                 /\ lines !! k = Some lk /\ has_values_close lk = true.

(** The same sub-block notion over the whole file, whatever block the
    opening line belongs to. *)
Definition inside_values_file (lines : list str) (i : nat) : Prop :=
  exists j lj,
    (j <= i)%nat /\ lines !! j = Some lj /\ has_values_open lj = true
    /\ forall k lk, (j <= k < i)%nat -> lines !! k = Some lk ->
                    has_values_close lk = false.

(** Lines outside output blocks, and lines of output blocks that are
    neither in a values sub-block nor index lines, are copied. *)
Definition copies_unselected (lines : list str) : Prop :=
  forall i line,
    lines !! i = Some line ->
    ~ (in_block (Fix.find_output_pin_line_ranges lines) (Z.of_nat i + 1) = true
       /\ (inside_values_file lines i \/ Fix.is_index_line line = true)) ->
    Fix.process_lines lines !! i = Some line.

(** After [i] lines of pass 1 the ranges found so far are in order and end
    at or before line [i]; an open block starts after all of them. *)
Definition scan_ok (st : Fix.scan_state) (i : Z) : Prop :=
  sorted_ranges 0 (Fix.ranges st)
  /\ if Fix.in_pin_block st
     then exists s, Fix.block_start_info st !! "start_line"%string = Some s
                    /\ last_end 0 (Fix.ranges st) < s <= i
     else last_end 0 (Fix.ranges st) <= i.

(** The state of pass 2 after [n] lines of [lines]: the lines written, the
    values flag, and the position among the ranges [rs]. *)
Definition pass2_ok (rs : list (Z * Z)) (lines : list str) (n : nat)
    (st : Fix.pass2_state) : Prop :=
  length (Fix.modified_lines st) = n
  /\ (forall i line,
        lines !! i = Some line -> (i < n)%nat ->
        Fix.modified_lines st !! i = Some (expected rs lines i line))
  /\ Fix.is_scaling_values st = open_after rs lines n
  /\ (forall k s e,
        (k < Fix.current_range_index st)%nat -> rs !! k = Some (s, e) ->
        e <= Z.of_nat n)
  /\ (forall s e,
        rs !! Fix.current_range_index st = Some (s, e) -> Z.of_nat n < e)
  /\ (Fix.is_in_output_range st = true ->
      exists s e, rs !! Fix.current_range_index st = Some (s, e)
                  /\ s <= Z.of_nat n).

(** The line [values ( "1.2, 3.4" );] and its rescaled form. *)
Definition values_line (numbers : string) : str :=
  L "values ( " ++ [Clean.dquote] ++ L numbers ++ [Clean.dquote] ++ L " );".

(** The values flag is up when line [i] is met: an earlier line of an
    output block holds [values (], and no line of an output block from
    that line to just before [i] holds [);]. *)
Definition values_open_before (lines : list str) (i : nat) : Prop :=
  exists j lj,
    (j < i)%nat /\ lines !! j = Some lj
    /\ in_block (Fix.find_output_pin_line_ranges lines) (Z.of_nat j + 1) = true
    /\ has_values_open lj = true
    /\ forall k lk,
         (j <= k < i)%nat -> lines !! k = Some lk ->
         in_block (Fix.find_output_pin_line_ranges lines) (Z.of_nat k + 1)
         = true ->
         has_values_close lk = false.

(** Line [i] is a line of an output block that holds [values (], or comes
    while the values flag is up, or is an index line. *)
Definition rescaled (lines : list str) (i : nat) (line : str) : Prop :=
  in_block (Fix.find_output_pin_line_ranges lines) (Z.of_nat i + 1) = true
  /\ (has_values_open line = true \/ values_open_before lines i
      \/ Fix.is_index_line line = true).

(** The end of a line as [readlines] gives it: a newline, or nothing at
    the end of the file. *)
Definition is_eol (eol : str) : Prop := eol = [] \/ eol = ["010"%char].

(** A library file with one output pin, as it is on disk. *)
Definition output_pin_lib : str :=
  L "pin (Q) {
  direction : output;
    " ++ values_line "1.2, 3.4" ++ L "
}
".

(** A file whose first output block leaves its values sub-block open. *)
Definition leaking_lines : list str :=
  [ L "pin (a) {"; L "direction : output;"; L "values ( 1";
    L "}"; L "foo );"; L "pin (b) {"; L "direction : output;";
    L "cap : 5;"; L "}" ].

(** A file with one output block. *)
Definition one_block_lines : list str :=
  [ L "pin (a) {"; L "direction : output;"; values_line "1.2, 3.4"; L "}" ].

(** ** Atomic replacement *)

(** Unless the run succeeds, the file named [path] is as it was. *)
Definition keeps_original_rescale : Prop :=
  forall ft path fs,
    (Fix.process_lib_file ft path path fs).2 <> Fix.Done ->
    (Fix.process_lib_file ft path path fs).1 !! path = fs !! path.

Definition keeps_original_area : Prop :=
  forall ft path area fs,
    (Area.update_lib_file ft path area fs).2 <> Some true ->
    (Area.update_lib_file ft path area fs).1 !! path = fs !! path.

Definition keeps_original_clean : Prop :=
  forall ft filename fs,
    (forall n, (Clean.clean_lib_file ft filename fs).2 <> Clean.Overwritten n) ->
    (Clean.clean_lib_file ft filename fs).1 !! filename = fs !! filename.

(** A one-line library file. *)
Definition tiny_lib : store :=
  {[ "a.lib"%string := L "area : 0 ;
" ]}.

(** ** The area field *)

Definition all_space (s : str) : Prop := forallb is_space s = true.

Definition all_num (s : str) : Prop := forallb Area.is_num_chr s = true.

(** The keyword [area], in any mix of cases. *)
Definition is_area_kw (kw : str) : Prop :=
  Forall2 (fun x y => chr_ci x y = true) (L "area") kw.

(** Group 1: blanks, the keyword, blanks, a colon, blanks. *)
Definition is_area_prefix (g1 : str) : Prop :=
  exists w1 kw w2 w3,
    g1 = w1 ++ kw ++ w2 ++ ":"%char :: w3
    /\ all_space w1 /\ is_area_kw kw /\ all_space w2 /\ all_space w3.

(** Group 2: blanks and a semicolon. *)
Definition is_area_suffix (g2 : str) : Prop :=
  exists w4, g2 = w4 ++ [";"%char] /\ all_space w4.

(** An area field starts at the head of [s], and [s] begins a line; [p]
    is the character before [s]. *)
Definition field_at (p : option ascii) (s : str) : Prop :=
  at_bol true p = true
  /\ exists g1 num g2 rest,
       s = g1 ++ num ++ g2 ++ rest
       /\ is_area_prefix g1 /\ num <> [] /\ all_num num
       /\ is_area_suffix g2.

(** Some line of the text [s] begins with an area field. *)
Definition has_field (s : str) : Prop :=
  exists pre t, s = pre ++ t /\ field_at (last_chr None pre) t.

(** [area_rewritten fa p s o n]: [o] is [s] with the number of each of its
    [n] area fields replaced by [fa], the text around each number being
    kept.  The text is read from left to right: where a field starts, the
    field is rewritten and the reading goes on after it; a character is
    copied only where no field starts.  [p] is the character before
    [s]. *)
Inductive area_rewritten (fa : str) : option ascii -> str -> str -> nat -> Prop :=
| ar_nil p :
    area_rewritten fa p [] [] 0
| ar_keep p a s o n :
    ~ field_at p (a :: s) ->
    area_rewritten fa (Some a) s o n ->
    area_rewritten fa p (a :: s) (a :: o) n
| ar_field p g1 num g2 rest o n :
    at_bol true p = true ->
    is_area_prefix g1 -> num <> [] -> all_num num -> is_area_suffix g2 ->
    area_rewritten fa (last_chr p (g1 ++ num ++ g2)) rest o n ->
    area_rewritten fa p (g1 ++ num ++ g2 ++ rest) (g1 ++ fa ++ g2 ++ o) (S n).

(** A file with more than one area field makes the update fail and is
    left as it was. *)
Definition fails_on_several_fields : Prop :=
  forall path area content (fs : store) o n,
    fs !! path = Some content ->
    area_rewritten (Area.formatted_area area) None (read content) o n ->
    (1 < n)%nat ->
    Area.update_lib_file NoFault path area fs = (fs, Some false).

(** A library file with two area fields. *)
Definition two_fields : str :=
  L "area : 0 ;
area : 0 ;
".

(** ** Brace balance *)

(** Opening braces minus closing braces over [lines]. *)
Definition net_braces (lines : list str) : Z :=
  foldr (fun l acc => count "{" l - count "}" l + acc) 0 lines.

(** The brace depth after the first [k] lines. *)
Definition depth (lines : list str) (k : nat) : Z :=
  net_braces (take k lines).

(** The span of line numbers [(s, e)] is a closed block of [lines]: at its
    last line the depth is back to, or below, what it was before its first
    line, and on no earlier line of the span is it. *)
Definition closed_span (lines : list str) (r : Z * Z) : Prop :=
  exists i j : nat,
    r = (Z.of_nat i + 1, Z.of_nat j + 1)
    /\ (i <= j < length lines)%nat
    /\ depth lines (S j) <= depth lines i
    /\ forall k, (i < k <= j)%nat -> depth lines i < depth lines k.

(** Pass 1 after the lines [done]: the depth, the spans found, and the
    block that is open. *)
Definition scan_depth_ok (lines done : list str) (st : Fix.scan_state)
  : Prop :=
  Fix.brace_depth st = net_braces done
  /\ (forall r, r ∈ Fix.ranges st ->
        closed_span lines r /\ r.2 <= Z.of_nat (length done))
  /\ (Fix.in_pin_block st = true ->
      exists i : nat,
        Fix.block_start_info st !! "start_line"%string
        = Some (Z.of_nat i + 1)
        /\ Fix.block_start_info st !! "start_depth"%string
           = Some (depth lines i)
        /\ (i < length done)%nat
        /\ forall k, (i < k <= length done)%nat ->
                     depth lines i < depth lines k).

(** A file with unbalanced braces is refused: the run does not end in
    success and the file stays as it was. *)
Definition rejects_unbalanced_clean : Prop :=
  forall filename content (fs : store),
    fs !! filename = Some content ->
    net_braces (readlines content) <> 0 ->
    (forall n, (Clean.clean_lib_file NoFault filename fs).2
               <> Clean.Overwritten n)
    /\ (Clean.clean_lib_file NoFault filename fs).1 !! filename
       = Some content.

Definition rejects_unbalanced_rescale : Prop :=
  forall path content (fs : store),
    fs !! path = Some content ->
    net_braces (readlines content) <> 0 ->
    (Fix.process_lib_file NoFault path path fs).2 <> Fix.Done.

(** Two files with one unmatched opening brace. *)
Definition open_timing : str :=
  L "timing () {
x
".

Definition open_pin : str :=
  L "pin (a) {
".

(** ** Running a tool a second time *)

(** The brace level after the lines [body] of an open block, [None] once
    it has been zero. *)
Fixpoint level_open (lvl : Z) (body : list str) : option Z :=
  match body with
  | [] => Some lvl
  | line :: rest =>
      let lvl' := lvl + count "{" line - count "}" line in
      if (lvl' =? 0) then None else level_open lvl' rest
  end.

Definition newline : ascii := "010"%char.

Definition cr : ascii := "013"%char.

(** A line with its end-of-line character, and a last line without. *)
Definition complete_line (l : str) : Prop :=
  exists b, l = b ++ [newline] /\ newline ∉ b.

Definition partial_line (l : str) : Prop :=
  l <> [] /\ newline ∉ l.

(** The lines of a file: all complete, but possibly the last. *)
Fixpoint lines_ok (ls : list str) : Prop :=
  match ls with
  | [] => True
  | l :: rest =>
      match rest with
      | [] => complete_line l \/ partial_line l
      | _ => complete_line l /\ lines_ok rest
      end
  end.

(** After a successful area update, a second run finds no field. *)
Definition rerun_finds_no_field : Prop :=
  forall path area content (fs : store),
    fs !! path = Some content ->
    (Area.update_lib_file NoFault path area fs).2 = Some true ->
    (Area.update_lib_file NoFault path area
       (Area.update_lib_file NoFault path area fs).1).2 = Some false.

(** ** The area field, read character by character *)

(** Where a reading of the area field stands: in the blanks before the
    keyword, after 1, 2 or 3 of its letters, in the blanks before the
    colon, in the blanks before the number, in the number, in the blanks
    before the semicolon. *)
Inductive phase : Type :=
| BeforeKw | Kw1 | Kw2 | Kw3 | BeforeColon | BeforeNum | InNum | BeforeSemi.

(** [field_from q s]: read from phase [q], some prefix of [s] completes an
    area field. *)
Fixpoint field_from (q : phase) (s : str) : bool :=
  match s with
  | [] => false
  | c :: s' =>
      match q with
      | BeforeKw =>
          if is_space c then field_from BeforeKw s'
          else if chr_ci "a" c then field_from Kw1 s' else false
      | Kw1 => if chr_ci "r" c then field_from Kw2 s' else false
      | Kw2 => if chr_ci "e" c then field_from Kw3 s' else false
      | Kw3 => if chr_ci "a" c then field_from BeforeColon s' else false
      | BeforeColon =>
          if is_space c then field_from BeforeColon s'
          else if chr_eqb ":" c then field_from BeforeNum s' else false
      | BeforeNum =>
          if is_space c then field_from BeforeNum s'
          else if Area.is_num_chr c then field_from InNum s' else false
      | InNum =>
          if Area.is_num_chr c then field_from InNum s'
          else if is_space c then field_from BeforeSemi s'
          else chr_eqb ";" c
      | BeforeSemi =>
          if is_space c then field_from BeforeSemi s' else chr_eqb ";" c
      end
  end.

(** ** Further vocabulary *)

(** No line names the direction [output]. *)
Definition no_output_direction (lines : list str) : Prop :=
  forall line,
    line ∈ lines ->
    contains (L "direction") (strip line) && contains (L "output") (strip line)
    = false.

(** A file with one input block. *)
Definition input_block_lines : list str :=
  [ L "pin (a) {"; L "direction : input;"; L "cap : 5;"; L "}" ].

(** The content of a file whose lines [lines] end with CR LF. *)
Definition crlf (lines : list str) : str :=
  concat (map (fun l => l ++ [cr; newline]) lines).

(** The characters a number is written with: digits, signs, the point,
    the exponent marker and the letters of [inf]. *)
Definition is_number_chr (a : ascii) : bool :=
  is_digit a || existsb (chr_eqb a) (L "+-.eEinf").

Definition number_text (s : str) : Prop :=
  Forall (fun a => is_number_chr a = true) s.

(** No line matches [timing_type : setup_falling;]. *)
Definition no_setup_falling (lines : list str) : Prop :=
  forall line, line ∈ lines -> has_setup_falling line = false.

(** A file with one timing block, of another timing type. *)
Definition hold_block_lines : list str :=
  [ L "timing () {"; L "timing_type : hold_rising;"; L "}" ].

(** The line spans named by the [REMOVED] messages. *)
Definition message_spans (ms : list Clean.removal) : list (Z * Z) :=
  map (fun m => (Clean.removed_first m, Clean.removed_last m)) ms.

(** The content [clean_lib_file] gives a file of content [content]. *)
Definition cleaned (content : str) : str :=
  concat (Clean.clean_lines (readlines content)).

(** A decimal numeral in normal form: digits, at least one, and no
    leading zero unless it is the numeral 0. *)
Definition canonical (ds : str) : Prop :=
  all_digits ds
  /\ match ds with
     | [] => False
     | a :: rest => a = "0"%char -> rest = []
     end.

(** A dimension of a macro name: a non-empty run of digits. *)
Definition is_dim (d : str) : Prop := d <> [] /\ all_digits d.

(** A run of digits short enough for [int]. *)
Definition fits_int (d : str) : Prop :=
  Z.of_nat (length d) <= Lef.int_max_str_digits.

(** The text [_AxBxC] of a dimension triple. *)
Definition bits_text (d1 d2 d3 : str) : str :=
  "_"%char :: d1 ++ "x"%char :: d2 ++ "x"%char :: d3.

(** The product of the three dimensions. *)
Definition bits_of (d1 d2 d3 : str) : Z :=
  nat_of_digits d1 * nat_of_digits d2 * nat_of_digits d3.

(** A library file and its LEF file. *)
Definition tiny_macro : store :=
  <[ "a.lef"%string := L "SIZE 2.5 BY 4 ;" ]> tiny_lib.

(** The line opens a pin or bus block. *)
Definition is_block_header (line : str) : bool :=
  startswith (L "pin (") (strip line) || startswith (L "bus (") (strip line).

(** The line holds the words [direction] and [output]. *)
Definition names_output (line : str) : bool :=
  contains (L "direction") (strip line) && contains (L "output") (strip line).

(** The span starts at a pin or bus header and holds a line that names
    the direction [output]. *)
Definition output_span (lines : list str) (r : Z * Z) : Prop :=
  exists i j : nat,
    r = (Z.of_nat i + 1, Z.of_nat j + 1)
    /\ (exists header,
          lines !! i = Some header /\ is_block_header header = true)
    /\ exists k line,
         (i <= k <= j)%nat /\ lines !! k = Some line
         /\ names_output line = true.

(** Pass 1 after the lines [done]: the spans found and the open block. *)
Definition scan_span_ok (lines done : list str) (st : Fix.scan_state)
  : Prop :=
  (forall r, r ∈ Fix.ranges st -> output_span lines r)
  /\ (Fix.in_pin_block st = true ->
      exists i : nat,
        Fix.block_start_info st !! "start_line"%string
        = Some (Z.of_nat i + 1)
        /\ (i < length done)%nat
        /\ (exists header,
              lines !! i = Some header /\ is_block_header header = true)
        /\ (Fix.is_output_pin st = true ->
            exists k line,
              (i <= k < length done)%nat /\ lines !! k = Some line
              /\ names_output line = true)).

(** Two lines with the same braces. *)
Definition same_braces (a b : str) : Prop :=
  count "{" b = count "{" a /\ count "}" b = count "}" a.


(** * Properties of the matcher *)

Section EngineFacts.

Lemma last_chr_app (p : option ascii) (u v : str) :
  last_chr p (u ++ v) = last_chr (last_chr p u) v.
Proof. revert p; induction u as [|a u IH]; intros p; simpl; auto. Qed.

Lemma reaches_refl p s : reaches p s p s.
Proof. exists []; auto. Qed.

Lemma reaches_trans p s p1 s1 p2 s2 :
  reaches p s p1 s1 -> reaches p1 s1 p2 s2 -> reaches p s p2 s2.
Proof.
  intros (u & -> & ->) (v & -> & ->). exists (u ++ v).
  rewrite last_chr_app, app_assoc. auto.
Qed.

Lemma reaches_cons p a s : reaches p (a :: s) (Some a) s.
Proof. exists [a]; auto. Qed.

Lemma star_inv {A} c p s cs (k : cont (A:=A)) x :
  star c p s cs k = Some x ->
  exists p' s', k p' s' cs = Some x /\ reaches p s p' s'.
Proof.
  revert p; induction s as [|a s IH]; intros p; simpl.
  - intros H. exists p, []. split; auto using reaches_refl.
  - destruct (c a).
    + destruct (star c (Some a) s cs k) eqn:E.
      * intros [= ->]. destruct (IH _ E) as (p' & s' & Hk & Hr).
        exists p', s'. split; auto.
        eapply reaches_trans; [apply reaches_cons | exact Hr].
      * intros H. exists p, (a :: s). split; auto using reaches_refl.
    + intros H. exists p, (a :: s). split; auto using reaches_refl.
Qed.

Lemma rmatch_inv {A} r : forall p s cs (k : cont (A:=A)) x,
  rmatch r p s cs k = Some x ->
  exists p' s' cs', k p' s' cs' = Some x /\ reaches p s p' s'.
Proof.
  induction r as [|c|r1 IH1 r2 IH2|r1 IH1|c|c|c|ml|n r1 IH1];
    intros p s cs k x; simpl.
  - intros H. exists p, s, cs. split; auto using reaches_refl.
  - destruct s as [|a s]; [discriminate|]. destruct (c a); [|discriminate].
    intros H. exists (Some a), s, cs. split; auto using reaches_cons.
  - intros H. apply IH1 in H as (p1 & s1 & cs1 & H & Hr1).
    apply IH2 in H as (p2 & s2 & cs2 & H & Hr2).
    exists p2, s2, cs2. split; auto. eapply reaches_trans; eauto.
  - destruct (rmatch r1 p s cs k) eqn:E.
    + intros [= ->]. eauto.
    + intros H. exists p, s, cs. split; auto using reaches_refl.
  - intros H. apply star_inv in H as (p' & s' & H & Hr). eauto.
  - intros H. exists p, s, cs. split; auto using reaches_refl.
    destruct p as [a|]; [destruct (c a); [discriminate|]|]; exact H.
  - intros H. exists p, s, cs. split; auto using reaches_refl.
    destruct s as [|a s]; [|destruct (c a); [discriminate|]]; exact H.
  - intros H. exists p, s, cs. split; auto using reaches_refl.
    destruct p as [a|];
      [destruct (ml && chr_eqb a "010"%char); [|discriminate]|]; exact H.
  - intros H. apply IH1 in H as (p1 & s1 & cs1 & H & Hr1). eauto.
Qed.

(** A successful attempt splits the subject into the matched text and the
    rest. *)
Lemma match_here_split r p s rest cs :
  match_here r p s = Some (rest, cs) -> exists tok, s = tok ++ rest.
Proof.
  unfold match_here. intros H.
  apply rmatch_inv in H as (p' & s' & cs' & [= -> ->] & (u & -> & _)).
  eauto.
Qed.

Lemma subn_go_skip r repl (u : str) : forall p rest,
  subn_go r repl (length u) p (u ++ rest)
  = subn_go r repl 0 (last_chr p u) rest.
Proof.
  induction u as [|a u IH]; intros p rest; simpl.
  - destruct rest; reflexivity.
  - apply IH.
Qed.

Lemma subn_go_nil r repl p :
  match_here r p [] = None -> subn_go r repl 0 p [] = ([], 0%nat).
Proof. simpl. intros ->. reflexivity. Qed.

Lemma subn_go_miss r repl p a s :
  match_here r p (a :: s) = None ->
  subn_go r repl 0 p (a :: s)
  = (a :: fst (subn_go r repl 0 (Some a) s),
     snd (subn_go r repl 0 (Some a) s)).
Proof.
  simpl. intros ->. destruct (subn_go r repl 0 (Some a) s); reflexivity.
Qed.

Lemma subn_go_hit r repl p tok rest cs :
  tok <> [] ->
  match_here r p (tok ++ rest) = Some (rest, cs) ->
  subn_go r repl 0 p (tok ++ rest)
  = (repl tok cs ++ fst (subn_go r repl 0 (last_chr p tok) rest),
     S (snd (subn_go r repl 0 (last_chr p tok) rest))).
Proof.
  intros Hne H. destruct tok as [|a tok]; [congruence|].
  simpl app. cbn [subn_go]. simpl app in H. rewrite H.
  replace (length (a :: tok ++ rest) - (length rest))%nat
    with (S (length tok)) by (simpl; rewrite length_app; lia).
  cbn [take]. rewrite take_app_length.
  rewrite subn_go_skip. simpl last_chr.
  destruct (subn_go r repl 0 (last_chr (Some a) tok) rest); reflexivity.
Qed.

End EngineFacts.

Section Soundness.

Lemma star_sound {A} c p s cs (k : cont (A:=A)) x :
  star c p s cs k = Some x ->
  exists u rest, s = u ++ rest /\ forallb c u = true
                 /\ k (last_chr p u) rest cs = Some x.
Proof.
  revert p; induction s as [|a s IH]; intros p; simpl.
  - intros H. exists [], []. auto.
  - destruct (c a) eqn:Ea.
    + destruct (star c (Some a) s cs k) eqn:E.
      * intros [= ->]. destruct (IH _ E) as (u & rest & -> & Hu & Hk).
        exists (a :: u), rest. simpl. rewrite Ea, Hu. auto.
      * intros H. exists [], (a :: s). auto.
    + intros H. exists [], (a :: s). auto.
Qed.

(** Every result of the matcher is a match in the sense of [matches]. *)
Lemma rmatch_sound {A} r : forall p s cs (k : cont (A:=A)) x,
  rmatch r p s cs k = Some x ->
  exists u rest cs', s = u ++ rest /\ matches r p u rest cs cs'
                     /\ k (last_chr p u) rest cs' = Some x.
Proof.
  induction r as [|c|r1 IH1 r2 IH2|r1 IH1|c|c|c|ml|n r1 IH1];
    intros p s cs k x; simpl.
  - intros H. exists [], s, cs. split_and!; auto. constructor.
  - destruct s as [|a s]; [discriminate|].
    destruct (c a) eqn:Ea; [|discriminate].
    intros H. exists [a], s, cs. split_and!; auto. by constructor.
  - intros H. apply IH1 in H as (u1 & rest1 & cs1 & -> & M1 & H).
    apply IH2 in H as (u2 & rest & cs2 & -> & M2 & H).
    exists (u1 ++ u2), rest, cs2. rewrite last_chr_app, app_assoc.
    split_and!; auto. econstructor; eauto.
  - destruct (rmatch r1 p s cs k) eqn:E.
    + intros [= ->]. apply IH1 in E as (u & rest & cs' & -> & M & H).
      exists u, rest, cs'. split_and!; auto. by constructor.
    + intros H. exists [], s, cs. split_and!; auto. apply m_opt_none.
  - intros H. apply star_sound in H as (u & rest & -> & Hu & H).
    exists u, rest, cs. split_and!; auto. by constructor.
  - intros H. exists [], s, cs.
    destruct p as [a|]; [destruct (c a) eqn:Ea; [discriminate|]|];
      split_and!; auto; constructor; simpl; auto.
  - intros H. exists [], s, cs.
    destruct s as [|a s]; [|destruct (c a) eqn:Ea; [discriminate|]];
      split_and!; auto; constructor; simpl; auto.
  - intros H. exists [], s, cs.
    destruct p as [a|];
      [destruct (ml && chr_eqb a "010"%char) eqn:Ea; [|discriminate]|];
      split_and!; auto; constructor; simpl; auto.
  - intros H. apply IH1 in H as (u & rest & cs' & -> & M & H).
    rewrite length_app, Nat.add_sub, take_app_length in H.
    exists u, rest, ((n, u) :: cs'). split_and!; auto. by constructor.
Qed.

Lemma match_here_sound r p s rest cs :
  match_here r p s = Some (rest, cs) ->
  exists u, s = u ++ rest /\ matches r p u rest [] cs.
Proof.
  unfold match_here. intros H.
  apply rmatch_sound in H as (u & rest' & cs' & -> & M & [= -> ->]).
  eauto.
Qed.

End Soundness.

(** * Reading and writing files *)

Section IOFacts.

Lemma write_file_spec ft path chunks (fs : store) :
  write_file ft path chunks fs
  = match write_budget ft with
    | Some n =>
        if (n <? length (concat chunks))%nat
        then (<[path := take n (concat chunks)]> fs, write_result ft)
        else (<[path := concat chunks]> fs, WriteOk)
    | None => (<[path := concat chunks]> fs, WriteOk)
    end.
Proof. reflexivity. Qed.

Lemma write_file_ok path chunks (fs : store) :
  write_file NoFault path chunks fs = (<[path := concat chunks]> fs, WriteOk).
Proof. reflexivity. Qed.

(** Induction on texts, two characters at a time where [read] looks at
    two. *)
Lemma read_ind (P : str -> Prop) :
  P [] ->
  (forall a s, chr_eqb a cr = false -> P s -> P (a :: s)) ->
  P [cr] ->
  (forall s, P s -> P (cr :: newline :: s)) ->
  (forall b s, chr_eqb b newline = false -> P (b :: s) -> P (cr :: b :: s)) ->
  forall s, P s.
Proof.
  intros Hnil Hc Hcr Hcrlf Hcrx s.
  assert (forall n (t : str), (length t <= n)%nat -> P t) as H.
  { induction n as [|n IH]; intros t Hlen.
    - destruct t; [done|simpl in Hlen; lia].
    - destruct t as [|a t]; [done|]. simpl in Hlen.
      destruct (chr_eqb a cr) eqn:Ea.
      + apply Ascii.eqb_eq in Ea as ->.
        destruct t as [|b t]; [done|].
        destruct (chr_eqb b newline) eqn:Eb.
        * apply Ascii.eqb_eq in Eb as ->. apply Hcrlf, IH.
          simpl in Hlen. lia.
        * apply Hcrx; auto. apply IH. lia.
      + apply Hc; auto. apply IH. lia. }
  by apply (H (length s)).
Qed.

Lemma read_cons a s : chr_eqb a cr = false -> read (a :: s) = a :: read s.
Proof.
  intros H. cbn [read]. change "013"%char with cr. by rewrite H.
Qed.

Lemma read_crlf s : read (cr :: newline :: s) = newline :: read s.
Proof. reflexivity. Qed.

Lemma read_cr b s :
  chr_eqb b newline = false -> read (cr :: b :: s) = newline :: read (b :: s).
Proof.
  intros H. cbn [read]. change (chr_eqb cr "013") with true. cbv iota.
  change "010"%char with newline. by rewrite H.
Qed.

(** A text read holds no CR. *)
Lemma read_no_cr s : cr ∉ read s.
Proof.
  induction s as [|a s Ha IH| |s IH|b s Hb IH] using read_ind.
  - apply not_elem_of_nil.
  - rewrite read_cons by done. intros [E|H]%elem_of_cons; [|done].
    subst a. unfold chr_eqb in Ha. by rewrite Ascii.eqb_refl in Ha.
  - intros [E|H]%elem_of_cons; [discriminate E|by apply elem_of_nil in H].
  - rewrite read_crlf. intros [E|H]%elem_of_cons; [discriminate E|done].
  - rewrite read_cr by done.
    intros [E|H]%elem_of_cons; [discriminate E|done].
Qed.

(** A text without CR is read as it is. *)
Lemma read_id s : cr ∉ s -> read s = s.
Proof.
  induction s as [|a s IH]; intros Hs; [done|].
  assert (chr_eqb a cr = false) as Ha.
  { destruct (chr_eqb a cr) eqn:E; auto. apply Ascii.eqb_eq in E as ->.
    exfalso. apply Hs, list_elem_of_here. }
  rewrite read_cons by done. f_equal. apply IH.
  intros H. apply Hs. by apply list_elem_of_further.
Qed.

Lemma read_read s : read (read s) = read s.
Proof. apply read_id, read_no_cr. Qed.

End IOFacts.

(** * scale_numbers_in_line *)

(** Inversion of [matches] at every construct but [Opt]. *)
Ltac inv_matches :=
  repeat match goal with
  | H : matches ?r _ _ _ _ _ |- _ =>
      lazymatch r with
      | Eps => idtac | Cls _ => idtac | Seq _ _ => idtac
      | Star _ => idtac | NotBehind _ => idtac | NotAhead _ => idtac
      | Bol _ => idtac | Group _ _ => idtac
      end;
      inversion H; subst; clear H
  end.

Ltac inv_opt H :=
  inversion H; subst; clear H.

Section Substitution.
Variable r : re.
Variable repl : str -> caps -> str.

Lemma consuming_nil p : consuming r -> match_here r p [] = None.
Proof.
  intros Hc. destruct (match_here r p []) as [[rest cs]|] eqn:E; auto.
  destruct (match_here_split _ _ _ _ _ E) as [tok Htok].
  apply Hc in E. destruct tok, rest; simpl in *; congruence.
Qed.

Lemma subn_go_substituted :
  consuming r ->
  forall n s p, (length s <= n)%nat ->
    substituted r repl p s (subn_go r repl 0 p s).1 (subn_go r repl 0 p s).2.
Proof.
  intros Hc. induction n as [|n IH]; intros s p Hlen.
  - destruct s; [|simpl in Hlen; lia].
    rewrite subn_go_nil by (by apply consuming_nil). constructor.
  - destruct s as [|a s].
    { rewrite subn_go_nil by (by apply consuming_nil). constructor. }
    destruct (match_here r p (a :: s)) as [[rest cs]|] eqn:E.
    + destruct (match_here_split _ _ _ _ _ E) as [tok Htok].
      assert (tok <> []) as Hne.
      { intros ->. apply Hc in E. simpl in Htok. congruence. }
      rewrite Htok in *. rewrite (subn_go_hit _ _ _ _ _ _ Hne E). simpl.
      apply sb_hit; auto. apply IH.
      rewrite length_app in Hlen.
      destruct tok; [congruence|]. simpl in Hlen. lia.
    + rewrite (subn_go_miss _ _ _ _ _ E). simpl.
      apply sb_keep; auto. apply IH. simpl in Hlen. lia.
Qed.

Lemma subn_substituted s :
  consuming r -> substituted r repl None s (subn r repl s).1 (subn r repl s).2.
Proof. intros Hc. by apply (subn_go_substituted Hc (length s)). Qed.

Lemma substituted_subn_go p s o n :
  substituted r repl p s o n ->
  match_here r (last_chr p s) [] = None ->
  subn_go r repl 0 p s = (o, n).
Proof.
  induction 1 as [p|p a s o n Hm _ IH|p tok rest cs o n Hne Hm _ IH];
    intros Hend.
  - by apply subn_go_nil.
  - rewrite (subn_go_miss _ _ _ _ _ Hm), IH; auto.
  - rewrite (subn_go_hit _ _ _ _ _ _ Hne Hm), IH; auto.
    by rewrite <- last_chr_app.
Qed.
End Substitution.

Section ScalePattern.

Lemma chr_eqb_true a b : chr_eqb a b = true -> b = a.
Proof. unfold chr_eqb. intros H. by apply Ascii.eqb_eq in H. Qed.

Lemma sign_shape p u rest cs cs' :
  matches (Opt (Cls (chr_eqb "-"))) p u rest cs cs' ->
  is_sign u /\ cs' = cs.
Proof.
  intros M. inv_opt M; inv_matches.
  - match goal with H : chr_eqb _ _ = true |- _ =>
      apply chr_eqb_true in H as -> end.
    split; auto. by right.
  - split; auto. by left.
Qed.

Lemma digits1_shape p u rest cs cs' :
  matches (Seq (Cls is_digit) (Star is_digit)) p u rest cs cs' ->
  u <> [] /\ all_digits u /\ cs' = cs.
Proof.
  intros M. inv_matches. split_and!; auto.
  unfold all_digits. simpl. by apply andb_true_iff.
Qed.

Lemma frac_shape p u rest cs cs' :
  matches (Opt (Seq (Cls (chr_eqb ".")) (Seq (Star is_digit) Eps)))
    p u rest cs cs' ->
  is_frac u /\ cs' = cs.
Proof.
  intros M. inv_opt M; inv_matches.
  - match goal with H : chr_eqb _ _ = true |- _ =>
      apply chr_eqb_true in H as -> end.
    split; auto. right. rewrite app_nil_r. eexists; split; [reflexivity|].
    assumption.
  - split; auto. by left.
Qed.

Lemma expo_shape p u rest cs cs' :
  matches (Opt (Seq (Cls (chr_ci "e"))
                 (Seq (Opt (Cls (chr_eqb "-")))
                    (Seq (Seq (Cls is_digit) (Star is_digit)) Eps))))
    p u rest cs cs' ->
  is_expo u /\ cs' = cs.
Proof.
  intros M. inv_opt M; [|split; auto; by left].
  inv_matches.
  match goal with H : matches (Opt _) _ _ _ _ _ |- _ =>
    apply sign_shape in H as [Hs ->] end.
  split; auto. right. rewrite app_nil_r.
  eexists _, _, (_ :: _). split; [reflexivity|].
  split_and!; auto. unfold all_digits. simpl. by apply andb_true_iff.
Qed.

Lemma pattern_shape p s rest cs :
  match_here Fix.pattern p s = Some (rest, cs) ->
  exists tok, s = tok ++ rest /\ is_token tok /\ cs = [(1%nat, tok)]
              /\ opt_holds is_word p = false
              /\ opt_holds is_word (head rest) = false.
Proof.
  intros H. apply match_here_sound in H as (u & -> & M).
  exists u. split; auto.
  cbv [Fix.pattern Seqs Plus Chr] in M.
  inversion M as [| |? ? ? u0 u1 ? ? ? ? M0 M1| | | | | | |]; subst; clear M.
  inversion M0; subst; clear M0.
  inversion M1 as [| |? ? ? u2 u3 ? ? ? ? M2 M3| | | | | | |]; subst; clear M1.
  inversion M3 as [| |? ? ? u4 u5 ? ? ? ? M4 M5| | | | | | |]; subst; clear M3.
  inversion M4; subst; clear M4. inversion M5; subst; clear M5.
  inversion M2 as [| | | | | | | | |? ? ? ? ? ? ? M6]; subst; clear M2.
  inversion M6 as [| |? ? ? sign u7 ? ? ? ? Ms M7| | | | | | |]; subst; clear M6.
  inversion M7 as [| |? ? ? ip u8 ? ? ? ? Mi M8| | | | | | |]; subst; clear M7.
  inversion M8 as [| |? ? ? frac u9 ? ? ? ? Mf M9| | | | | | |]; subst; clear M8.
  inversion M9 as [| |? ? ? expo u10 ? ? ? ? Me M10| | | | | | |]; subst; clear M9.
  inversion M10; subst; clear M10.
  apply sign_shape in Ms as [Hs ->].
  apply digits1_shape in Mi as (Hi1 & Hi2 & ->).
  apply frac_shape in Mf as [Hf ->].
  apply expo_shape in Me as [He ->].
  simpl in *. rewrite !app_nil_r in *. split_and!; auto.
  exists sign, ip, frac, expo. split_and!; auto.
Qed.

Lemma is_token_nonempty tok : is_token tok -> tok <> [].
Proof.
  intros (sign & ip & frac & expo & -> & _ & Hip & _).
  destruct sign; simpl; [|congruence].
  destruct ip; simpl; congruence.
Qed.

Lemma pattern_consuming : consuming Fix.pattern.
Proof.
  intros p s rest cs H.
  apply pattern_shape in H as (tok & -> & Ht & _).
  apply is_token_nonempty in Ht. intros E.
  apply (f_equal length) in E. rewrite length_app in E.
  destruct tok; [congruence|simpl in E; lia].
Qed.

Lemma replacer_scaled tok : Fix.replacer tok [(1%nat, tok)] = scaled tok.
Proof. reflexivity. Qed.

Lemma substituted_rewritten p s o n :
  substituted Fix.pattern Fix.replacer p s o n -> rewritten p s o.
Proof.
  induction 1 as [p|p a s o n Hm _ IH|p tok rest cs o n Hne Hm _ IH].
  - constructor.
  - by constructor.
  - apply pattern_shape in Hm as (tok' & E & Ht & -> & Hb & Ha).
    apply app_inv_tail in E as <-.
    rewrite replacer_scaled. by constructor.
Qed.

Lemma scale_rewritten line :
  rewritten None line (Fix.scale_numbers_in_line line).
Proof.
  unfold Fix.scale_numbers_in_line, sub.
  eapply substituted_rewritten, subn_substituted, pattern_consuming.
Qed.

End ScalePattern.

Section ScaleClaims.

Lemma scale_go_no_free_token line s : forall pre,
  line = pre ++ s -> no_free_token line ->
  (subn_go Fix.pattern Fix.replacer 0 (last_chr None pre) s).1 = s.
Proof.
  induction s as [|a s IH]; intros pre E Hfree.
  - rewrite subn_go_nil; auto. apply consuming_nil, pattern_consuming.
  - destruct (match_here Fix.pattern (last_chr None pre) (a :: s))
      as [[rest cs]|] eqn:Hm.
    + apply pattern_shape in Hm as (tok & Es & Ht & _ & Hb & Ha).
      rewrite Es in E. destruct (Hfree pre tok rest E Ht); congruence.
    + rewrite (subn_go_miss _ _ _ _ _ Hm). simpl. f_equal.
      specialize (IH (pre ++ [a])). rewrite last_chr_app in IH.
      apply IH; auto. by rewrite <- app_assoc.
Qed.

Lemma scale_no_free_token line :
  no_free_token line -> Fix.scale_numbers_in_line line = line.
Proof. intros H. by apply (scale_go_no_free_token line line []). Qed.

Lemma is_token_head tok :
  is_token tok ->
  exists a t, tok = a :: t /\ (a = "-"%char \/ is_digit a = true).
Proof.
  intros (sign & ip & frac & expo & -> & Hs & Hip & Hd & _).
  destruct Hs as [-> | ->].
  - destruct ip as [|a ip]; [congruence|]. exists a, (ip ++ frac ++ expo).
    split; auto. right. unfold all_digits in Hd. simpl in Hd.
    by apply andb_true_iff in Hd as [? _].
  - eexists _, _. split; [reflexivity|]. by left.
Qed.

Lemma no_free_token_x1 : no_free_token (L "x1").
Proof.
  intros pre tok post E Ht.
  destruct pre as [|a pre].
  - apply is_token_head in Ht as (c & t & -> & Hc).
    injection E as <- _. destruct Hc as [Hc|Hc]; discriminate Hc.
  - injection E as <- E. destruct pre as [|b pre]; [by left|].
    injection E as <- E. apply is_token_nonempty in Ht.
    destruct pre, tok; simpl in E; congruence.
Qed.

(** [C3] (as amended) Whatever [scale_numbers_in_line] replaces is a numeric
    token -- optional minus sign, digits, optional fraction, optional
    exponent -- that stands free: the character before it and the character
    after it are not word characters.  A line none of whose numeric tokens
    stands free is returned unchanged, and so is
    [delay_template_7x7_x1]. *)
Theorem C3_only_free_tokens_rewritten :
  (forall line, rewritten None line (Fix.scale_numbers_in_line line))
  /\ (forall line,
        no_free_token line -> Fix.scale_numbers_in_line line = line)
  /\ Fix.scale_numbers_in_line (L "delay_template_7x7_x1")
     = L "delay_template_7x7_x1".
Proof.
  split_and!.
  - apply scale_rewritten.
  - apply scale_no_free_token.
  - vm_compute. reflexivity.
Qed.

Lemma C3_witness :
  no_free_token (L "x1") /\ Fix.scale_numbers_in_line (L "x1") = L "x1".
Proof.
  split.
  - exact no_free_token_x1.
  - exact (proj1 (proj2 C3_only_free_tokens_rewritten) (L "x1")
             no_free_token_x1).
Defined.

(** [C3] as stated fails: in [25e2] the digit sequence [25] is
    immediately followed by the word character [e], and the line becomes
    [2.5], where no [25] is left. *)
Lemma C3_digits_before_exponent_altered :
  Fix.scale_numbers_in_line (L "25e2") = L "2.5"
  /\ ~ (forall line, keeps_adjacent_digits line).
Proof.
  split; [vm_compute; reflexivity|].
  intros H.
  destruct (H (L "25e2") [] (L "25") (L "e2")) as (pre' & post' & E).
  - reflexivity.
  - discriminate.
  - reflexivity.
  - by right.
  - vm_compute in E.
    destruct pre' as [|a [|b [|c [|d pre']]]]; simpl in E; discriminate.
Qed.

(** [C10] The pattern takes an exponent sign only when it is a minus: no
    text it matches holds a plus sign.  In [1e+5] nothing is matched at the
    mantissa and the exponent digits alone are divided by 1000; with a
    minus sign the number is matched as a whole. *)
Theorem C10_positive_exponent_split :
  (forall p s rest cs tok,
     match_here Fix.pattern p s = Some (rest, cs) -> s = tok ++ rest ->
     "+"%char ∉ tok)
  /\ match_here Fix.pattern None (L "1e+5") = None
  /\ match_here Fix.pattern (Some "+"%char) (L "5") = Some ([], [(1%nat, L "5")])
  /\ Fix.scale_numbers_in_line (L "1e+5") = L "1e+0.005"
  /\ Fix.scale_numbers_in_line (L "1e-5") = L "1e-08".
Proof.
  split_and!; [|vm_compute; reflexivity..].
  intros p s rest cs tok H E.
  apply pattern_shape in H as (tok' & E' & Ht & _).
  rewrite E in E'. apply app_inv_tail in E' as <-.
  destruct Ht as (sign & ip & frac & expo & -> & Hs & _ & Hip & Hf & He).
  assert (forall ds, all_digits ds -> "+"%char ∉ ds) as Hdig.
  { intros ds Hds Hin. unfold all_digits in Hds.
    rewrite forallb_forall in Hds. apply list_elem_of_In in Hin.
    apply Hds in Hin. discriminate. }
  rewrite !elem_of_app. intros [Hin|[Hin|[Hin|Hin]]].
  - destruct Hs as [-> | ->]; [by apply elem_of_nil in Hin|].
    cbv [L list_ascii_of_string] in Hin.
    apply list_elem_of_singleton in Hin. discriminate.
  - by apply (Hdig ip).
  - destruct Hf as [-> | (fd & -> & Hfd)]; [by apply elem_of_nil in Hin|].
    apply elem_of_cons in Hin as [Hin|Hin]; [discriminate|].
    by apply (Hdig fd).
  - destruct He as [-> | (e & es & ed & -> & Hce & Hes & _ & Hed)];
      [by apply elem_of_nil in Hin|].
    apply elem_of_cons in Hin as [<-|Hin]; [discriminate|].
    apply elem_of_app in Hin as [Hin|Hin]; [|by apply (Hdig ed)].
    destruct Hes as [-> | ->]; [by apply elem_of_nil in Hin|].
    cbv [L list_ascii_of_string] in Hin.
    apply list_elem_of_singleton in Hin. discriminate.
Qed.

End ScaleClaims.

(** * clean_lib_file *)

Section CleanFacts.

Import Clean.

Lemma run_app st l1 l2 : run st (l1 ++ l2) = run (run st l1) l2.
Proof. apply foldl_app. Qed.

Lemma run_snoc st ls line : run st (ls ++ [line]) = step (run st ls) line.
Proof. by rewrite run_app. Qed.

(** A line read outside a timing block either opens a block or is copied. *)
Lemma step_outside st line :
  in_timing_block st = false ->
  (is_timing_header line = true
   /\ in_timing_block (step st line) = true
   /\ brace_level (step st line) = 1
   /\ current_timing_block_lines (step st line) = [line]
   /\ found_clk (step st line) = false
   /\ found_setup_falling (step st line) = false
   /\ block_start_line (step st line) = line_number st + 1
   /\ f_out (step st line) = f_out st)
  \/ (is_timing_header line = false
      /\ in_timing_block (step st line) = false
      /\ current_timing_block_lines (step st line)
         = current_timing_block_lines st
      /\ f_out (step st line) = f_out st ++ [line]).
Proof.
  intros Hout. unfold step, is_timing_header. rewrite Hout.
  destruct (found (search timing_start_re (strip line))); simpl.
  - left. split_and!; auto.
  - right. split_and!; auto.
Qed.

Lemma step_counters st line :
  line_number (step st line) = line_number st + 1.
Proof.
  unfold step.
  repeat match goal with
         | |- context [if ?b then _ else _] => destruct b
         end; reflexivity.
Qed.

Lemma step_outside_same st line :
  in_timing_block st = false ->
  removed_blocks_count (step st line) = removed_blocks_count st
  /\ messages (step st line) = messages st.
Proof.
  intros Hout. unfold step. rewrite Hout.
  destruct (found (search timing_start_re (strip line))); simpl; auto.
Qed.

(** A line read inside a timing block. *)
Lemma step_inside st line :
  in_timing_block st = true ->
  let lvl := brace_level st + count "{" line - count "}" line in
  let fc := found_clk st || has_clk line in
  let fs := found_setup_falling st || has_setup_falling line in
  let buf := current_timing_block_lines st ++ [line] in
  brace_level (step st line) = lvl
  /\ found_clk (step st line) = fc
  /\ found_setup_falling (step st line) = fs
  /\ block_start_line (step st line) = block_start_line st
  /\ if (lvl =? 0) then
       in_timing_block (step st line) = false
       /\ current_timing_block_lines (step st line) = []
       /\ if fc && fs then
            f_out (step st line) = f_out st
            /\ removed_blocks_count (step st line)
               = removed_blocks_count st + 1
            /\ exists pin,
                 messages (step st line)
                 = messages st
                   ++ [Removal pin (block_start_line st) (line_number st + 1)]
          else
            f_out (step st line) = f_out st ++ buf
            /\ removed_blocks_count (step st line) = removed_blocks_count st
            /\ messages (step st line) = messages st
     else
       in_timing_block (step st line) = true
       /\ current_timing_block_lines (step st line) = buf
       /\ f_out (step st line) = f_out st
       /\ removed_blocks_count (step st line) = removed_blocks_count st
       /\ messages (step st line) = messages st.
Proof.
  intros Hin. unfold step, has_clk, has_setup_falling. rewrite Hin.
  rewrite andb_false_r. simpl.
  destruct (found (search related_pin_clk_re (strip line)));
    destruct (found (search setup_falling_re (strip line)));
    rewrite ?orb_true_r, ?orb_false_r;
    destruct (brace_level st + count "{" line - count "}" line =? 0);
    destruct (found_clk st); destruct (found_setup_falling st); simpl;
    split_and!; eauto.
Qed.

(** The lines after a header, up to the one that closes the block. *)
Lemma run_block_body body : forall st,
  in_timing_block st = true ->
  closes (brace_level st) body = true ->
  let gone :=
    (found_clk st || existsb has_clk body)
    && (found_setup_falling st || existsb has_setup_falling body) in
  in_timing_block (run st body) = false
  /\ f_out (run st body)
     = f_out st ++ (if gone then []
                    else current_timing_block_lines st ++ body)
  /\ removed_blocks_count (run st body)
     = removed_blocks_count st + (if gone then 1 else 0).
Proof.
  induction body as [|line body IH]; intros st Hin Hcl; [discriminate|].
  simpl in Hcl. cbn [run foldl].
  pose proof (step_inside st line Hin) as (Hl & Hc & Hs & _ & Hstep).
  cbv zeta in Hstep.
  destruct (brace_level st + count "{" line - count "}" line =? 0) eqn:Ez.
  - destruct body; [|discriminate]. simpl. rewrite !orb_false_r.
    destruct Hstep as (Ho & _ & Hstep). split; auto.
    destruct ((found_clk st || has_clk line)
              && (found_setup_falling st || has_setup_falling line)).
    + destruct Hstep as (-> & -> & _). by rewrite app_nil_r.
    + destruct Hstep as (-> & -> & _). split; auto. lia.
  - destruct Hstep as (Hin' & Hbuf & Hout & Hcnt & _).
    rewrite <- Hl in Hcl.
    destruct (IH (step st line) Hin' Hcl) as (H1 & H2 & H3).
    fold (run (step st line) body).
    rewrite Hc, Hs, Hbuf, Hout, Hcnt in *. simpl.
    rewrite !orb_assoc. split_and!; auto.
    rewrite H2. by rewrite <- app_assoc.
Qed.

(** Two runs that start outside a block, or inside the same one, write
    the same lines. *)
Lemma step_sim pre st1 st2 line :
  in_timing_block st1 = in_timing_block st2 ->
  f_out st1 = pre ++ f_out st2 ->
  (in_timing_block st1 = true ->
   brace_level st1 = brace_level st2
   /\ found_clk st1 = found_clk st2
   /\ found_setup_falling st1 = found_setup_falling st2
   /\ current_timing_block_lines st1 = current_timing_block_lines st2) ->
  in_timing_block (step st1 line) = in_timing_block (step st2 line)
  /\ f_out (step st1 line) = pre ++ f_out (step st2 line)
  /\ (in_timing_block (step st1 line) = true ->
      brace_level (step st1 line) = brace_level (step st2 line)
      /\ found_clk (step st1 line) = found_clk (step st2 line)
      /\ found_setup_falling (step st1 line)
         = found_setup_falling (step st2 line)
      /\ current_timing_block_lines (step st1 line)
         = current_timing_block_lines (step st2 line)).
Proof.
  intros Hb Hf Hin. destruct (in_timing_block st1) eqn:E1.
  - destruct (Hin eq_refl) as (Hl & Hc & Hs & Hbuf). symmetry in Hb.
    pose proof (step_inside st1 line E1) as (A1 & A2 & A3 & _ & A).
    pose proof (step_inside st2 line Hb) as (B1 & B2 & B3 & _ & B).
    cbv zeta in A, B. rewrite <- Hl, <- Hc, <- Hs, <- Hbuf in *.
    destruct (brace_level st1 + count "{" line - count "}" line =? 0).
    + destruct A as (-> & _ & A), B as (-> & _ & B).
      split; auto.
      destruct ((found_clk st1 || has_clk line)
                && (found_setup_falling st1 || has_setup_falling line)).
      * destruct A as (-> & _), B as (-> & _). split; auto. intros [=].
      * destruct A as (-> & _), B as (-> & _).
        split; [by rewrite Hf, <- app_assoc | intros [=]].
    + destruct A as (-> & -> & -> & _), B as (-> & -> & -> & _).
      split_and!; auto. intros _. split_and!; congruence.
  - symmetry in Hb.
    destruct (step_outside st1 line E1) as [A|A];
      destruct (step_outside st2 line Hb) as [B|B];
      destruct A as (A0 & A), B as (B0 & B); try congruence.
    + destruct A as (-> & -> & -> & -> & -> & _ & ->).
      destruct B as (-> & -> & -> & -> & -> & _ & ->). split_and!; auto.
    + destruct A as (-> & _ & ->), B as (-> & _ & ->).
      split_and!; [done | by rewrite Hf, <- app_assoc | intros [=]].
Qed.

Lemma run_sim pre ls : forall st1 st2,
  in_timing_block st1 = in_timing_block st2 ->
  f_out st1 = pre ++ f_out st2 ->
  (in_timing_block st1 = true ->
   brace_level st1 = brace_level st2
   /\ found_clk st1 = found_clk st2
   /\ found_setup_falling st1 = found_setup_falling st2
   /\ current_timing_block_lines st1 = current_timing_block_lines st2) ->
  in_timing_block (run st1 ls) = in_timing_block (run st2 ls)
  /\ f_out (run st1 ls) = pre ++ f_out (run st2 ls).
Proof.
  induction ls as [|line ls IH]; intros st1 st2 Hb Hf Hin; [by split|].
  cbn [run foldl].
  destruct (step_sim pre st1 st2 line Hb Hf Hin) as (H1 & H2 & H3).
  by apply IH.
Qed.

(** From any state outside a block, the run goes on as from the start. *)
Lemma run_outside st ls :
  in_timing_block st = false ->
  in_timing_block (run st ls) = in_timing_block (run init ls)
  /\ f_out (run st ls) = f_out st ++ clean_lines ls.
Proof.
  intros Hout. apply run_sim; auto.
  - simpl. by rewrite app_nil_r.
  - congruence.
Qed.

End CleanFacts.

Section CleanClaims.

Import Clean.

Lemma removed_lines_snoc ms m :
  removed_lines (ms ++ [m])
  = removed_lines ms + (removed_last m - removed_first m + 1).
Proof.
  unfold removed_lines. induction ms as [|m' ms IH]; simpl; [lia|].
  rewrite IH. lia.
Qed.

(** What holds of the state after any number of lines. *)
Lemma run_invariant ls :
  let st := run init ls in
  line_number st = Z.of_nat (length ls)
  /\ Z.of_nat (length (f_out st)) + removed_lines (messages st)
     + Z.of_nat (length (current_timing_block_lines st))
     = Z.of_nat (length ls)
  /\ (in_timing_block st = false -> current_timing_block_lines st = [])
  /\ (in_timing_block st = true ->
      exists before h rest,
        ls = before ++ h :: rest
        /\ current_timing_block_lines st = h :: rest
        /\ is_timing_header h = true
        /\ block_start_line st = Z.of_nat (length before) + 1
        /\ in_timing_block (run init before) = false
        /\ f_out st = f_out (run init before)
        /\ removed_blocks_count st = removed_blocks_count (run init before)
        /\ messages st = messages (run init before)).
Proof.
  induction ls as [|line ls IH] using rev_ind.
  { simpl. split_and!; auto. discriminate. }
  cbv zeta in *. rewrite run_snoc, length_app. simpl length.
  destruct IH as (Hn & Hsum & Hout & Hin).
  set (st := run init ls) in *.
  split; [rewrite step_counters; lia|].
  destruct (in_timing_block st) eqn:Eb.
  - clear Hout.
    destruct (Hin eq_refl)
      as (before & h & rest & -> & Hbuf & Hh & Hbs & Hb & Hf & Hc & Hm).
    pose proof (step_inside st line Eb) as (_ & _ & _ & Hbs' & Hstep).
    cbv zeta in Hstep.
    destruct (brace_level st + count "{" line - count "}" line =? 0).
    + destruct Hstep as (-> & -> & Hstep).
      split_and!; auto; [|discriminate].
      destruct ((found_clk st || has_clk line)
                && (found_setup_falling st || has_setup_falling line)).
      * destruct Hstep as (-> & _ & pin & ->).
        rewrite removed_lines_snoc. simpl.
        rewrite Hbuf in Hsum. rewrite length_app in *. simpl in *. lia.
      * destruct Hstep as (-> & _ & ->).
        rewrite Hbuf in *. rewrite !length_app in *. simpl in *. lia.
    + destruct Hstep as (-> & -> & -> & -> & ->).
      rewrite Hbuf in *. split_and!; [|discriminate|].
      * rewrite !length_app in *. simpl in *. lia.
      * intros _. exists before, h, (rest ++ [line]).
        rewrite <- app_assoc. simpl. rewrite Hbs'. split_and!; auto.
  - clear Hin. pose proof (Hout eq_refl) as Hnil.
    destruct (step_outside_same st line Eb) as (Hc & Hm).
    destruct (step_outside st line Eb) as [A|A].
    + destruct A as (Hh & -> & _ & -> & _ & _ & -> & ->).
      rewrite Hm, Hnil in *. split_and!; [|discriminate|].
      * simpl in *. lia.
      * intros _. exists ls, line, []. split_and!; auto. lia.
    + destruct A as (_ & -> & -> & ->).
      rewrite Hm, Hnil in *. split_and!; auto; [|discriminate].
      rewrite length_app. simpl in *. lia.
Qed.

Lemma clean_lib_file_ok filename content (fs : store) :
  fs !! filename = Some content ->
  clean_lib_file NoFault filename fs
  = (<[filename := concat (clean_lines (readlines content))]>
       (delete (temp_of filename) fs),
     Overwritten (removed_blocks_count (run init (readlines content)))).
Proof.
  intros Hf. unfold clean_lib_file. rewrite Hf, write_file_spec. simpl.
  by rewrite lookup_insert_eq, delete_insert_eq.
Qed.

(** [C2] [clean_lib_file] does not look for the two patterns, nor count
    the braces, on the line that opens a timing block: the brace level is
    set to 1 there whatever the line holds.  A timing block written on one
    line that matches both [related_pin : "clk";] and
    [timing_type : setup_falling;] is therefore not removed: the file
    [one_line_block_lib] is written back as it was and no block is
    counted.  In [hold_then_setup_lib] the one-line block that meets
    neither condition is removed together with the block that follows it
    and with the closing brace of the pin: only the first line of the file
    is left. *)
Theorem C2_header_line_not_examined :
  (is_timing_header one_line_block = true
   /\ has_clk one_line_block = true
   /\ has_setup_falling one_line_block = true
   /\ count "{" one_line_block = count "}" one_line_block)
  /\ readlines one_line_block_lib
     = [ L "pin (Q) {
"; one_line_block; L "}
" ]
  /\ clean_lines (readlines one_line_block_lib) = readlines one_line_block_lib
  /\ clean_lib_file NoFault "a.lib" {[ "a.lib"%string := one_line_block_lib ]}
     = ({[ "a.lib"%string := one_line_block_lib ]}, Overwritten 0)
  /\ length (readlines hold_then_setup_lib) = 7%nat
  /\ clean_lines (readlines hold_then_setup_lib)
     = [ L "pin (Q) {
" ]
  /\ clean_lib_file NoFault "a.lib" {[ "a.lib"%string := hold_then_setup_lib ]}
     = ({[ "a.lib"%string := L "pin (Q) {
" ]}, Overwritten 1).
Proof. split_and!; vm_compute; reflexivity. Qed.

(** [X20] [clean_lib_file] on timing blocks as it delimits them.  A block
    is a header line [timing ( ) {] met outside a block and the lines
    after it up to the first one that brings the brace level, 1 after the
    header, back to zero.  Such a block is left out in full exactly when
    some line after the header matches [related_pin : "clk";] and some
    line after the header matches [timing_type : setup_falling;];
    otherwise it is written unchanged, and so is every line met outside a
    block that is not a header.  When the header line holds one opening
    brace more than closing braces and matches neither pattern, the block
    is the brace-balanced text that starts at the header, and it is left
    out exactly when some line of it matches each pattern.  The value
    ["clk_gated"] does not meet the first condition. *)
Theorem X20_block_removed_iff_both :
  (forall pre header body post,
     ends_outside_block pre ->
     is_timing_header header = true ->
     closes 1 body = true ->
     clean_lines (pre ++ header :: body ++ post)
     = clean_lines pre
       ++ (if removable body then [] else header :: body)
       ++ clean_lines post)
  /\ (forall pre line post,
        ends_outside_block pre ->
        is_timing_header line = false ->
        clean_lines (pre ++ line :: post)
        = clean_lines pre ++ line :: clean_lines post)
  /\ (forall pre header body post,
        ends_outside_block pre ->
        is_timing_header header = true ->
        count "{" header - count "}" header = 1 ->
        has_clk header = false ->
        has_setup_falling header = false ->
        closes 0 (header :: body) = true ->
        clean_lines (pre ++ (header :: body) ++ post)
        = clean_lines pre
          ++ (if removable (header :: body) then [] else header :: body)
          ++ clean_lines post)
  /\ has_clk (related_pin_line "clk") = true
  /\ has_clk (related_pin_line "clk_gated") = false
  /\ has_setup_falling (L "timing_type : setup_falling;") = true.
Proof.
  assert (forall pre header body post,
            ends_outside_block pre ->
            is_timing_header header = true ->
            closes 1 body = true ->
            clean_lines (pre ++ header :: body ++ post)
            = clean_lines pre
              ++ (if removable body then [] else header :: body)
              ++ clean_lines post) as Hblock.
  { intros pre header body post Hpre Hh Hcl. unfold clean_lines.
    rewrite run_app. cbn [run foldl]. fold (run (step (run init pre) header)).
    rewrite run_app.
    destruct (step_outside (run init pre) header Hpre) as [A|A];
      [|destruct A; congruence].
    destruct A as (_ & Hin & Hl & Hbuf & Hc & Hs & _ & Hf).
    rewrite <- Hl in Hcl.
    destruct (run_block_body body _ Hin Hcl) as (Hout & Hfo & _).
    cbv zeta in Hfo. rewrite Hc, Hs, Hbuf, Hf in Hfo. simpl in Hfo.
    destruct (run_outside _ post Hout) as (_ & ->).
    rewrite Hfo. unfold removable, clean_lines.
    by rewrite <- app_assoc. }
  split_and!; [exact Hblock| | |vm_compute; reflexivity..].
  - intros pre line post Hpre Hl. unfold clean_lines.
    rewrite run_app. cbn [run foldl].
    fold (run (step (run init pre) line) post).
    destruct (step_outside (run init pre) line Hpre) as [A|A];
      [destruct A; congruence|].
    destruct A as (_ & Hout & _ & Hf).
    destruct (run_outside _ post Hout) as (_ & ->).
    rewrite Hf. unfold clean_lines. by rewrite <- app_assoc.
  - intros pre header body post Hpre Hh Hbr Hc Hs Hcl.
    cbn [closes] in Hcl. cbv zeta in Hcl.
    replace (0 + count "{" header - count "}" header) with 1 in Hcl by lia.
    change (1 =? 0) with false in Hcl. cbv iota in Hcl.
    assert (removable (header :: body) = removable body) as ->.
    { unfold removable. cbn [existsb]. by rewrite Hc, Hs. }
    rewrite <- app_comm_cons. by apply Hblock.
Qed.

Lemma X20_witness :
  clean_lines ([L "pin (Q) {"]
               ++ L "timing () {"
                  :: [related_pin_line "clk";
                      L "timing_type : setup_falling;"; L "}"]
               ++ [L "}"])
  = [L "pin (Q) {"; L "}"].
Proof.
  refine (eq_trans
            (proj1 X20_block_removed_iff_both
               [L "pin (Q) {"] (L "timing () {")
               [related_pin_line "clk"; L "timing_type : setup_falling;";
                L "}"]
               [L "}"] _ _ _) _);
    vm_compute; reflexivity.
Defined.

(** [C9] When the input ends inside a timing block, the lines from the
    header of that block to the end of the file are left out of the output:
    the output, the count of removed blocks and the messages are those of
    the lines before the header.  No error is raised and the output
    replaces the original file. *)
Theorem C9_unterminated_block_dropped (fs : store) filename content :
  fs !! filename = Some content ->
  in_timing_block (run init (readlines content)) = true ->
  exists before header rest,
    readlines content = before ++ header :: rest
    /\ is_timing_header header = true
    /\ ends_outside_block before
    /\ block_start_line (run init (readlines content))
       = Z.of_nat (length before) + 1
    /\ clean_lines (readlines content) = clean_lines before
    /\ messages (run init (readlines content)) = messages (run init before)
    /\ clean_lib_file NoFault filename fs
       = (<[filename := concat (clean_lines before)]>
            (delete (temp_of filename) fs),
          Overwritten (removed_blocks_count (run init before))).
Proof.
  intros Hf Hin.
  destruct (run_invariant (readlines content)) as (_ & _ & _ & H).
  destruct (H Hin) as (before & h & rest & E & _ & Hh & Hbs & Hb & Hfo & Hc & Hm).
  exists before, h, rest. split_and!; auto.
  rewrite (clean_lib_file_ok _ _ _ Hf). unfold clean_lines.
  by rewrite Hfo, Hc.
Qed.

Lemma C9_witness :
  exists before header rest,
    readlines (L "a
timing () {
b
") = before ++ header :: rest
    /\ is_timing_header header = true
    /\ ends_outside_block before
    /\ block_start_line (run init (readlines (L "a
timing () {
b
")))
       = Z.of_nat (length before) + 1
    /\ clean_lines (readlines (L "a
timing () {
b
")) = clean_lines before
    /\ messages (run init (readlines (L "a
timing () {
b
"))) = messages (run init before)
    /\ clean_lib_file NoFault "x.lib" {[ "x.lib"%string := L "a
timing () {
b
" ]}
       = (<["x.lib"%string := concat (clean_lines before)]>
            (delete (temp_of "x.lib") {[ "x.lib"%string := L "a
timing () {
b
" ]}),
          Overwritten (removed_blocks_count (run init before))).
Proof.
  apply (C9_unterminated_block_dropped _ "x.lib").
  - apply lookup_singleton_eq.
  - vm_compute. reflexivity.
Defined.

End CleanClaims.

(** * The two passes of process_lib_file *)

Section Pass1.

Import Fix.

Lemma sorted_ranges_snoc lo rs s e :
  sorted_ranges lo (rs ++ [(s, e)])
  <-> sorted_ranges lo rs /\ last_end lo rs < s /\ s <= e.
Proof.
  revert lo; induction rs as [|r rs IH]; intros lo; simpl.
  - tauto.
  - rewrite IH. tauto.
Qed.

Lemma last_end_snoc lo rs s e : last_end lo (rs ++ [(s, e)]) = e.
Proof. revert lo; induction rs as [|r rs IH]; intros lo; simpl; auto. Qed.

Lemma scan_step_ok st i line :
  scan_ok st i -> scan_ok (scan_step st i line) (i + 1).
Proof.
  intros [Hs Hb]. unfold scan_step.
  set (opens := (startswith (L "pin (") (strip line)
                 || startswith (L "bus (") (strip line))
                && negb (in_pin_block st)).
  set (depth := brace_depth st + count "{" line - count "}" line).
  assert (exists s,
            (if opens
             then <["start_line"%string := i + 1]>
                    (<["start_depth"%string := brace_depth st]> ∅)
             else block_start_info st) !! "start_line"%string = Some s
            /\ last_end 0 (ranges st) < s <= i + 1
          \/ (if opens then true else in_pin_block st) = false
             /\ last_end 0 (ranges st) <= i) as Hinfo.
  { destruct opens eqn:Eo.
    - exists (i + 1). left. rewrite lookup_insert_eq. split; auto.
      unfold opens in Eo. apply andb_true_iff in Eo as [_ Eo].
      destruct (in_pin_block st); [discriminate|]. lia.
    - destruct (in_pin_block st).
      + destruct Hb as (s & Hs1 & Hs2). exists s. left. split; auto. lia.
      + exists 0. right. auto. }
  destruct Hinfo as (s & Hinfo).
  destruct ((if opens then true else in_pin_block st)
            && (depth <=? _)) eqn:Ec.
  - apply andb_true_iff in Ec as [Ein _]. unfold scan_ok. cbn.
    destruct Hinfo as [[Hl Hr]|[Hf _]]; [|congruence].
    match goal with |- context [if ?b then _ ++ _ else _] => destruct b end.
    + unfold info_get. rewrite Hl. simpl.
      rewrite sorted_ranges_snoc, last_end_snoc. split_and!; auto; lia.
    + split; auto. lia.
  - unfold scan_ok. cbn. split; auto.
    destruct (if opens then true else in_pin_block st) eqn:Ein.
    + destruct Hinfo as [[Hl Hr]|[Hf _]]; [|congruence]. eauto.
    + destruct Hinfo as [[Hl Hr]|[_ Hr]]; lia.
Qed.

Lemma scan_loop_ok lines : forall st i,
  scan_ok st i -> scan_ok (scan_loop st i lines) (i + Z.of_nat (length lines)).
Proof.
  induction lines as [|line lines IH]; intros st i H; simpl length.
  - by rewrite Z.add_0_r.
  - replace (i + Z.of_nat (S (length lines)))
      with (i + 1 + Z.of_nat (length lines)) by lia.
    apply IH. by apply scan_step_ok.
Qed.

Lemma find_ranges_sorted lines :
  sorted_ranges 0 (find_output_pin_line_ranges lines).
Proof.
  assert (scan_ok scan_init 0) as H0 by (split; simpl; auto; lia).
  by destruct (scan_loop_ok lines _ _ H0).
Qed.

End Pass1.

Section Pass2.

Import Fix.

Lemma sorted_lookup_bounds rs : forall lo k s e,
  sorted_ranges lo rs -> rs !! k = Some (s, e) -> lo < s /\ s <= e.
Proof.
  induction rs as [|r rs IH]; intros lo k s e Hs Hk; [done|].
  destruct Hs as (H1 & H2 & H3). destruct k as [|k]; simpl in Hk.
  - injection Hk as ->. simpl in *. lia.
  - destruct (IH _ _ _ _ H3 Hk). lia.
Qed.

Lemma sorted_lookup_lt rs : forall lo i j s e s' e',
  sorted_ranges lo rs -> rs !! i = Some (s, e) -> rs !! j = Some (s', e') ->
  (i < j)%nat -> e < s'.
Proof.
  induction rs as [|r rs IH]; intros lo i j s e s' e' Hs Hi Hj Hlt; [done|].
  destruct Hs as (H1 & H2 & H3).
  destruct j as [|j]; [lia|]. simpl in Hj. destruct i as [|i]; simpl in Hi.
  - injection Hi as ->. simpl in *.
    destruct (sorted_lookup_bounds _ _ _ _ _ H3 Hj). lia.
  - eapply IH; eauto. lia.
Qed.

Lemma in_block_lookup rs n :
  in_block rs n = true <-> exists k s e, rs !! k = Some (s, e) /\ s <= n <= e.
Proof.
  unfold in_block. rewrite existsb_exists. split.
  - intros ([s e] & Hin & Hb). apply list_elem_of_In in Hin.
    apply list_elem_of_lookup in Hin as [k Hk]. exists k, s, e.
    simpl in Hb. split; auto. lia.
  - intros (k & s & e & Hk & Hb). exists (s, e). split.
    + apply list_elem_of_In. eapply list_elem_of_lookup_2; eauto.
    + simpl. apply andb_true_iff. split; lia.
Qed.

Lemma in_block_elem rs n :
  in_block rs n = true <-> exists s e, (s, e) ∈ rs /\ s <= n <= e.
Proof.
  rewrite in_block_lookup. split.
  - intros (k & s & e & Hk & Hb). exists s, e. split; auto.
    eapply list_elem_of_lookup_2; eauto.
  - intros (s & e & Hin & Hb). apply list_elem_of_lookup in Hin as [k Hk].
    eauto.
Qed.

(** The range test of pass 2 agrees with membership in the ranges. *)
Lemma pass2_in_range rs lines lo n st :
  sorted_ranges lo rs -> pass2_ok rs lines n st ->
  match rs !! current_range_index st with
  | Some (start, _) =>
      if (start <=? Z.of_nat n + 1) then true else is_in_output_range st
  | None => is_in_output_range st
  end = in_block rs (Z.of_nat n + 1).
Proof.
  intros Hs (_ & _ & _ & Ha & Hb & Hc).
  destruct (rs !! current_range_index st) as [[s e]|] eqn:E.
  - specialize (Hb s e eq_refl).
    destruct (s <=? Z.of_nat n + 1) eqn:Es.
    + symmetry. apply in_block_lookup. exists (current_range_index st), s, e.
      split; auto. lia.
    + destruct (is_in_output_range st).
      { destruct (Hc eq_refl) as (s' & e' & [= <- <-] & ?). lia. }
      symmetry. apply not_true_is_false. rewrite in_block_lookup.
      intros (k & s' & e' & Hk & Hb').
      destruct (lt_eq_lt_dec k (current_range_index st)) as [[Hlt| ->]|Hgt].
      * specialize (Ha _ _ _ Hlt Hk). lia.
      * rewrite E in Hk. injection Hk as <- <-. lia.
      * pose proof (sorted_lookup_lt _ _ _ _ _ _ _ _ Hs E Hk Hgt). lia.
  - destruct (is_in_output_range st).
    { destruct (Hc eq_refl) as (s' & e' & [=] & ?). }
    symmetry. apply not_true_is_false. rewrite in_block_lookup.
    intros (k & s' & e' & Hk & Hb').
    apply lookup_ge_None_1 in E. pose proof (lookup_lt_Some _ _ _ Hk).
    assert (k < current_range_index st)%nat as Hlt by lia.
    specialize (Ha _ _ _ Hlt Hk). lia.
Qed.

Lemma pass2_step_ok rs lines lo n st line :
  sorted_ranges lo rs -> pass2_ok rs lines n st -> lines !! n = Some line ->
  pass2_ok rs lines (S n) (pass2_step rs st (Z.of_nat n) line).
Proof.
  intros Hs Hok Hline.
  pose proof (pass2_in_range _ _ _ _ _ Hs Hok) as Hir.
  destruct Hok as (Hlen & Hout & Hflag & Ha & Hb & Hc).
  unfold pass2_step. rewrite Hir. clear Hir.
  set (out := if in_block rs (Z.of_nat n + 1) then _ else _).
  assert (out = (expected rs lines n line, open_after rs lines (S n))) as ->.
  { unfold out, expected. simpl. rewrite Hline, Hflag.
    destruct (in_block rs (Z.of_nat n + 1)); simpl; auto. }
  assert (forall idx inr,
            pass2_ok rs lines (S n)
              (Pass2 (modified_lines st ++ [expected rs lines n line]) inr
                 (open_after rs lines (S n)) idx) <->
            (forall k s e, (k < idx)%nat -> rs !! k = Some (s, e) ->
                           e <= Z.of_nat (S n))
            /\ (forall s e, rs !! idx = Some (s, e) -> Z.of_nat (S n) < e)
            /\ (inr = true ->
                exists s e, rs !! idx = Some (s, e) /\ s <= Z.of_nat (S n)))
    as Hred.
  { intros idx inr. unfold pass2_ok. simpl modified_lines.
    cbn [is_scaling_values current_range_index is_in_output_range].
    split; [tauto|]. intros (H1 & H2 & H3). split_and!; auto.
    - rewrite length_app. simpl. lia.
    - intros i l Hl Hi. destruct (decide (i = n)) as [->|Hne].
      + rewrite Hline in Hl. injection Hl as <-.
        rewrite lookup_app_r by lia. by rewrite Hlen, Nat.sub_diag.
      + rewrite lookup_app_l by lia. apply Hout; auto. lia. }
  destruct (rs !! current_range_index st) as [[s e]|] eqn:E.
  - specialize (Hb s e eq_refl).
    destruct (e <=? Z.of_nat n + 1) eqn:Ee.
    + apply Hred. split_and!.
      * intros k s' e' Hk Hr.
        destruct (decide (k = current_range_index st)) as [->|Hne].
        { rewrite E in Hr. injection Hr as <- <-. lia. }
        assert (k < current_range_index st)%nat as Hlt by lia.
        specialize (Ha _ _ _ Hlt Hr). lia.
      * intros s' e' Hr.
        pose proof (sorted_lookup_lt _ _ _ _ _ _ _ _ Hs E Hr
                      (Nat.lt_succ_diag_r _)).
        destruct (sorted_lookup_bounds _ _ _ _ _ Hs Hr). lia.
      * discriminate.
    + apply Hred. split_and!.
      * intros k s' e' Hk Hr. specialize (Ha _ _ _ Hk Hr). lia.
      * intros s' e' Hr. rewrite E in Hr. injection Hr as <- <-. lia.
      * intros Hin. exists s, e. split; auto.
        apply in_block_lookup in Hin as (k & s' & e' & Hk & Hb').
        destruct (lt_eq_lt_dec k (current_range_index st)) as [[Hlt| ->]|Hgt].
        -- specialize (Ha _ _ _ Hlt Hk). lia.
        -- rewrite E in Hk. injection Hk as <- <-. lia.
        -- pose proof (sorted_lookup_lt _ _ _ _ _ _ _ _ Hs E Hk Hgt). lia.
  - apply Hred. split_and!.
    + intros k s' e' Hk Hr. specialize (Ha _ _ _ Hk Hr). lia.
    + intros s' e' Hr. rewrite E in Hr. discriminate.
    + intros Hin. apply in_block_lookup in Hin as (k & s' & e' & Hk & Hb').
      apply lookup_ge_None_1 in E. pose proof (lookup_lt_Some _ _ _ Hk).
      assert (k < current_range_index st)%nat as Hlt by lia.
      specialize (Ha _ _ _ Hlt Hk). lia.
Qed.

End Pass2.

Section ProcessLines.

Import Fix.

Lemma pass2_loop_ok rs lines lo todo : forall done st,
  sorted_ranges lo rs -> lines = done ++ todo ->
  pass2_ok rs lines (length done) st ->
  pass2_ok rs lines (length lines)
    (pass2_loop rs st (Z.of_nat (length done)) todo).
Proof.
  induction todo as [|line todo IH]; intros done st Hs E Hok.
  - rewrite app_nil_r in E. by subst.
  - simpl. assert (lines !! length done = Some line) as Hl.
    { rewrite E. apply list_lookup_middle. reflexivity. }
    pose proof (pass2_step_ok _ _ _ _ _ _ Hs Hok Hl) as Hok'.
    specialize (IH (done ++ [line])
                  (pass2_step rs st (Z.of_nat (length done)) line) Hs).
    rewrite length_app in IH. simpl in IH.
    replace (Z.of_nat (length done + 1)) with (Z.of_nat (length done) + 1)
      in IH by lia.
    apply IH.
    + by rewrite <- app_assoc.
    + by rewrite Nat.add_1_r.
Qed.

Lemma pass2_init_ok rs lines :
  sorted_ranges 0 rs -> pass2_ok rs lines 0 pass2_init.
Proof.
  intros Hs. unfold pass2_ok. simpl. split_and!; auto.
  - intros; lia.
  - intros; lia.
  - intros s e Hr. destruct (sorted_lookup_bounds _ _ _ _ _ Hs Hr). lia.
  - discriminate.
Qed.

(** Pass 2 keeps the number of lines, and writes [expected] for each. *)
Lemma process_lines_expected lines :
  length (process_lines lines) = length lines
  /\ forall i line,
       lines !! i = Some line ->
       process_lines lines !! i
       = Some (expected (find_output_pin_line_ranges lines) lines i line).
Proof.
  pose proof (find_ranges_sorted lines) as Hs.
  pose proof (pass2_loop_ok _ lines _ lines [] pass2_init Hs eq_refl
                (pass2_init_ok _ _ Hs)) as (Hlen & Hout & _).
  split; auto. intros i line Hl. apply Hout; auto.
  by apply lookup_lt_Some in Hl.
Qed.

(** The values flag, said without the loop. *)
Lemma open_after_spec rs lines n :
  open_after rs lines n = true <->
  exists j lj,
    (j < n)%nat /\ lines !! j = Some lj
    /\ in_block rs (Z.of_nat j + 1) = true
    /\ has_values_open lj = true
    /\ forall k lk, (j <= k < n)%nat -> lines !! k = Some lk ->
                    in_block rs (Z.of_nat k + 1) = true ->
                    has_values_close lk = false.
Proof.
  induction n as [|n IH]; simpl.
  { split; [discriminate|]. intros (j & _ & ? & _). lia. }
  destruct (lines !! n) as [line|] eqn:El.
  - destruct (in_block rs (Z.of_nat n + 1)) eqn:Eb.
    + destruct (has_values_close line) eqn:Ec.
      * split; [discriminate|]. intros (j & lj & Hj & _ & _ & _ & Hno).
        assert (j <= n < S n)%nat as Hn by lia.
        specialize (Hno n line Hn El Eb). congruence.
      * rewrite orb_true_iff, IH. split.
        -- intros [Ho|(j & lj & Hj & Hl & Hb & Ho & Hno)].
           ++ exists n, line. split_and!; auto.
              intros k lk Hk Hlk _. assert (k = n) as -> by lia. congruence.
           ++ exists j, lj. split_and!; auto.
              intros k lk Hk Hlk Hbk.
              destruct (decide (k = n)) as [->|Hne]; [congruence|].
              apply (Hno k lk); auto. lia.
        -- intros (j & lj & Hj & Hl & Hb & Ho & Hno).
           destruct (decide (j = n)) as [->|Hne].
           ++ left. congruence.
           ++ right. exists j, lj. split_and!; auto; [lia|].
              intros k lk Hk. apply Hno. lia.
    + rewrite IH. split.
      * intros (j & lj & Hj & Hl & Hb & Ho & Hno).
        exists j, lj. split_and!; auto.
        intros k lk Hk Hlk Hbk.
        destruct (decide (k = n)) as [->|Hne]; [congruence|].
        apply (Hno k lk); auto. lia.
      * intros (j & lj & Hj & Hl & Hb & Ho & Hno).
        assert (j <> n) by congruence.
        exists j, lj. split_and!; auto; [lia|].
        intros k lk Hk. apply Hno. lia.
  - rewrite IH. split.
    + intros (j & lj & Hj & Hl & Hb & Ho & Hno).
      exists j, lj. split_and!; auto.
      intros k lk Hk Hlk Hbk.
      destruct (decide (k = n)) as [->|Hne]; [congruence|].
      apply (Hno k lk); auto. lia.
    + intros (j & lj & Hj & Hl & Hb & Ho & Hno).
      assert (j <> n) by congruence.
      exists j, lj. split_and!; auto; [lia|].
      intros k lk Hk. apply Hno. lia.
Qed.

End ProcessLines.

Section SelectiveScaling.

Import Fix.

(** Two ranges that hold the same line number are the same range; a range
    that holds a smaller one is the same or ends before the other starts. *)
Lemma ranges_same_or_before rs lo s e s' e' m n :
  sorted_ranges lo rs -> (s, e) ∈ rs -> (s', e') ∈ rs ->
  s <= m <= e -> s' <= n <= e' -> m <= n ->
  (s, e) = (s', e') \/ e < s'.
Proof.
  intros Hs Hin Hin' Hm Hn Hle.
  apply list_elem_of_lookup in Hin as [k Hk].
  apply list_elem_of_lookup in Hin' as [k' Hk'].
  destruct (lt_eq_lt_dec k k') as [[Hlt| ->]|Hgt].
  - right. eapply sorted_lookup_lt; eauto.
  - left. congruence.
  - pose proof (sorted_lookup_lt _ _ _ _ _ _ _ _ Hs Hk' Hk Hgt). lia.
Qed.

Lemma scaling_inside_values lines i line s e :
  values_closed_in_blocks lines ->
  lines !! i = Some line ->
  (s, e) ∈ find_output_pin_line_ranges lines ->
  s <= Z.of_nat i + 1 <= e ->
  has_values_open line
  || open_after (find_output_pin_line_ranges lines) lines i = true
  <-> inside_values lines s i.
Proof.
  intros Hcl Hl Hin Hb. pose proof (find_ranges_sorted lines) as Hs.
  rewrite orb_true_iff, open_after_spec. split.
  - intros [Ho|(j & lj & Hj & Hlj & Hbj & Ho & Hno)].
    + exists i, line. split_and!; auto; [lia|]. intros; lia.
    + apply in_block_elem in Hbj as (s2 & e2 & Hin2 & Hb2).
      assert ((s2, e2) = (s, e)) as [= -> ->].
      { destruct (ranges_same_or_before _ _ _ _ _ _ _ _ Hs Hin2 Hin Hb2 Hb)
          as [?|Hlt]; auto; [lia|].
        destruct (Hcl _ _ _ _ Hin2 Hb2 Hlj Ho) as (k & lk & Hk & Hke & Hlk & Hc).
        assert (in_block (find_output_pin_line_ranges lines)
                  (Z.of_nat k + 1) = true) as Hbk.
        { apply in_block_elem. exists s2, e2. split; auto. lia. }
        assert (j <= k < i)%nat as Hr by lia.
        specialize (Hno k lk Hr Hlk Hbk). congruence. }
      exists j, lj. split_and!; auto; [lia|lia|].
      intros k lk Hk Hlk. apply (Hno k lk); auto.
      apply in_block_elem. exists s, e. split; auto. lia.
  - intros (j & lj & Hsj & Hj & Hlj & Ho & Hno).
    destruct (decide (j = i)) as [->|Hne].
    + left. congruence.
    + right. exists j, lj. split_and!; auto; [lia| |].
      * apply in_block_elem. exists s, e. split; auto. lia.
      * intros k lk Hk Hlk _. by apply (Hno k lk).
Qed.

Lemma rescaled_expected lines i line :
  rescaled lines i line
  <-> in_block (find_output_pin_line_ranges lines) (Z.of_nat i + 1)
      && (has_values_open line
          || open_after (find_output_pin_line_ranges lines) lines i
          || is_index_line line) = true.
Proof.
  unfold rescaled, values_open_before.
  rewrite andb_true_iff, !orb_true_iff, open_after_spec. tauto.
Qed.

Lemma pattern_miss p c t :
  is_digit c = false -> chr_eqb "-" c = false ->
  match_here pattern p (c :: t) = None.
Proof.
  intros Hd Hm. unfold match_here, pattern.
  cbn [rmatch Seqs Chr Plus].
  destruct p as [a|]; [destruct (is_word a)|]; rewrite ?Hm, ?Hd; reflexivity.
Qed.

Lemma space_not_number c :
  is_space c = true -> is_digit c = false /\ chr_eqb "-" c = false.
Proof.
  destruct c as [[] [] [] [] [] [] [] []]; vm_compute; intros;
    try discriminate; tauto.
Qed.

(** Leading blanks are copied. *)
Lemma scale_indent indent s : forall p,
  all_space indent ->
  subn_go pattern replacer 0 p (indent ++ s)
  = (indent ++ (subn_go pattern replacer 0 (last_chr p indent) s).1,
     (subn_go pattern replacer 0 (last_chr p indent) s).2).
Proof.
  induction indent as [|c w IH]; intros p Hw.
  - simpl. by destruct (subn_go _ _ _ _ _).
  - unfold all_space in Hw. simpl in Hw. apply andb_true_iff in Hw as [Hc Hw].
    destruct (space_not_number c Hc) as [Hd Hm].
    rewrite <- app_comm_cons, subn_go_miss by (by apply pattern_miss).
    rewrite (IH (Some c)) by done. reflexivity.
Qed.

Lemma scale_values_line indent eol :
  all_space indent -> is_eol eol ->
  scale_numbers_in_line (indent ++ values_line "1.2, 3.4" ++ eol)
  = indent ++ values_line "0.0012, 0.0034" ++ eol.
Proof.
  intros Hw He. unfold scale_numbers_in_line, sub, subn.
  rewrite scale_indent by done. cbn [fst]. f_equal.
  assert (match_here pattern (last_chr None indent)
            (values_line "1.2, 3.4" ++ eol) = None) as Hm
    by (by apply pattern_miss).
  change (values_line "1.2, 3.4" ++ eol)
    with ("v"%char :: tail (values_line "1.2, 3.4") ++ eol) in *.
  rewrite subn_go_miss by done. cbn [fst].
  destruct He as [-> | ->]; vm_compute; reflexivity.
Qed.

Lemma contains_app_l p pre s :
  contains p s = true -> contains p (pre ++ s) = true.
Proof.
  intros H. induction pre as [|a pre IH]; [done|].
  rewrite <- app_comm_cons. cbn [contains]. rewrite IH. apply orb_true_r.
Qed.

Lemma values_line_open indent numbers eol :
  has_values_open (indent ++ values_line numbers ++ eol) = true.
Proof. apply contains_app_l. reflexivity. Qed.

(** [C1] (as amended) In every file, pass 2 of [process_lib_file]
    rescales exactly the lines of output-direction blocks that hold
    [values (], or come while the values flag is up, or start, after
    blanks, with [index_1] or [index_2]; every other line is copied as it
    is.  The flag is up from a line of an output block that holds
    [values (] to the next line of an output block that holds [);], so a
    sub-block left open by one output block goes on in the next one.  In a
    file whose values sub-blocks are closed inside the output block that
    opens them, the lines rescaled are exactly those that lie in an
    output-direction block and are inside a values sub-block of it (from a
    line holding [values (] to the next line holding [);], both included)
    or are index lines.  In any file, a line [values ( "1.2, 3.4" );] of
    an output block, with or without blanks before it and a newline after
    it, becomes [values ( "0.0012, 0.0034" );] with the same blanks and
    end of line. *)
Theorem C1_selective_scaling :
  (forall lines i line,
     lines !! i = Some line ->
     (rescaled lines i line ->
      process_lines lines !! i = Some (scale_numbers_in_line line))
     /\ (~ rescaled lines i line ->
         process_lines lines !! i = Some line))
  /\ (forall lines,
        values_closed_in_blocks lines ->
        forall i line,
          lines !! i = Some line ->
          (selected lines i line ->
           process_lines lines !! i = Some (scale_numbers_in_line line))
          /\ (~ selected lines i line ->
              process_lines lines !! i = Some line))
  /\ (forall lines i indent eol,
        all_space indent -> is_eol eol ->
        lines !! i = Some (indent ++ values_line "1.2, 3.4" ++ eol) ->
        in_block (find_output_pin_line_ranges lines) (Z.of_nat i + 1) = true ->
        process_lines lines !! i
        = Some (indent ++ values_line "0.0012, 0.0034" ++ eol)).
Proof.
  split_and!.
  - intros lines i line Hl.
    destruct (process_lines_expected lines) as (_ & Hout).
    rewrite (Hout i line Hl). unfold expected.
    rewrite rescaled_expected. by destruct (_ && _).
  - intros lines Hcl i line Hl.
    destruct (process_lines_expected lines) as (_ & Hout).
    rewrite (Hout i line Hl). unfold expected.
    pose proof (find_ranges_sorted lines) as Hs.
    destruct (in_block _ (Z.of_nat i + 1)) eqn:Eb; simpl.
    + apply in_block_elem in Eb as (s & e & Hin & Hb).
      pose proof (scaling_inside_values lines i line s e Hcl Hl Hin Hb) as Hiff.
      destruct (has_values_open line || open_after _ lines i) eqn:Ev; simpl.
      * split; auto. intros Hns. exfalso. apply Hns.
        exists s, e. split; [done|split; [done|]]. left. by apply Hiff.
      * destruct (is_index_line line) eqn:Ei.
        -- split; auto. intros Hns. exfalso. apply Hns.
           exists s, e. split; [done|split; [done|]]. by right.
        -- split; auto. intros (s' & e' & Hin' & Hb' & [Hv|Hi]);
             [|congruence].
           destruct (ranges_same_or_before _ _ _ _ _ _ _ _ Hs Hin Hin' Hb Hb')
             as [[= <- <-]|Hlt]; [lia| |lia].
           apply Hiff in Hv. congruence.
    + split; auto. intros (s & e & Hin & Hb & _).
      assert (in_block (find_output_pin_line_ranges lines)
                (Z.of_nat i + 1) = true) as Hb'
        by (apply in_block_elem; eauto).
      congruence.
  - intros lines i indent eol Hw He Hl Hb.
    destruct (process_lines_expected lines) as (_ & Hout).
    rewrite (Hout i _ Hl). unfold expected.
    rewrite Hb, values_line_open. cbn [andb orb].
    by rewrite scale_values_line.
Qed.

End SelectiveScaling.

Section SelectiveScalingExamples.

Import Fix.

Lemma ranges_one : find_output_pin_line_ranges one_block_lines = [(1, 4)].
Proof. vm_compute. reflexivity. Qed.

Lemma one_block_closed : values_closed_in_blocks one_block_lines.
Proof.
  intros s e j lj Hin Hb Hl Ho.
  rewrite ranges_one in Hin. apply list_elem_of_singleton in Hin as [= -> ->].
  assert (j = 2%nat) as ->.
  { destruct j as [|[|[|[|j]]]]; auto.
    - injection Hl as <-. vm_compute in Ho. discriminate.
    - injection Hl as <-. vm_compute in Ho. discriminate.
    - injection Hl as <-. vm_compute in Ho. discriminate.
    - lia. }
  exists 2%nat, (values_line "1.2, 3.4").
  split; [lia|]. split; [lia|]. split; [reflexivity|].
  vm_compute; reflexivity.
Qed.

Lemma one_block_selected :
  selected one_block_lines 2 (values_line "1.2, 3.4").
Proof.
  exists 1, 4. split; [|split; [lia|]].
  - rewrite ranges_one. apply list_elem_of_here.
  - left. exists 2%nat, (values_line "1.2, 3.4").
    split; [lia|]. split; [lia|]. split; [reflexivity|].
    split; [vm_compute; reflexivity|]. intros; lia.
Qed.

Lemma output_pin_lib_lines :
  readlines output_pin_lib
  = [ L "pin (Q) {
"; L "  direction : output;
"; L "    " ++ values_line "1.2, 3.4" ++ [newline]; L "}
" ].
Proof. vm_compute. reflexivity. Qed.

Lemma C1_witness :
  (values_closed_in_blocks one_block_lines
   /\ process_lines one_block_lines !! 2%nat
      = Some (scale_numbers_in_line (values_line "1.2, 3.4")))
  /\ (readlines output_pin_lib !! 2%nat
      = Some (L "    " ++ values_line "1.2, 3.4" ++ [newline])
      /\ in_block (find_output_pin_line_ranges (readlines output_pin_lib))
           (Z.of_nat 2 + 1) = true
      /\ process_lines (readlines output_pin_lib) !! 2%nat
         = Some (L "    " ++ values_line "0.0012, 0.0034" ++ [newline])).
Proof.
  split.
  - split.
    + exact one_block_closed.
    + exact (proj1 (proj1 (proj2 C1_selective_scaling) one_block_lines
                      one_block_closed 2%nat (values_line "1.2, 3.4") eq_refl)
               one_block_selected).
  - assert (readlines output_pin_lib !! 2%nat
            = Some (L "    " ++ values_line "1.2, 3.4" ++ [newline])) as Hl
      by (by rewrite output_pin_lib_lines).
    assert (in_block (find_output_pin_line_ranges (readlines output_pin_lib))
              (Z.of_nat 2 + 1) = true) as Hb
      by (rewrite output_pin_lib_lines; vm_compute; reflexivity).
    split_and!; [exact Hl|exact Hb|].
    exact (proj2 (proj2 C1_selective_scaling) (readlines output_pin_lib)
             2%nat (L "    ") [newline] eq_refl (or_intror eq_refl) Hl Hb).
Defined.

Lemma leaking_not_inside : ~ inside_values_file leaking_lines 7.
Proof.
  intros (j & lj & Hj & Hl & Ho & Hno).
  assert (j = 2%nat) as ->.
  { do 8 (destruct j as [|j];
          [try reflexivity; injection Hl as <-; vm_compute in Ho;
           discriminate|]).
    lia. }
  assert (2 <= 4 < 7)%nat as Hk by lia.
  specialize (Hno 4%nat (L "foo );") Hk eq_refl).
  vm_compute in Hno. discriminate.
Qed.

(** [C1] as stated fails.  In [leaking_lines] the first output block ends
    with its values sub-block open; a line holding [);] follows outside any
    output block; the line [cap : 5;] of the second output block is then
    neither an index line nor inside a values sub-block, and it is
    rewritten all the same. *)
Lemma C1_values_flag_leaks :
  process_lines leaking_lines !! 7%nat = Some (L "cap : 0.005;")
  /\ ~ copies_unselected leaking_lines.
Proof.
  assert (process_lines leaking_lines !! 7%nat = Some (L "cap : 0.005;"))
    as E by (vm_compute; reflexivity).
  split; [exact E|].
  intros H. specialize (H 7%nat (L "cap : 5;") eq_refl).
  rewrite E in H.
  assert (Some (L "cap : 0.005;") = Some (L "cap : 5;")) as Habs.
  { apply H. intros (_ & [Hv|Hi]).
    - by apply leaking_not_inside.
    - vm_compute in Hi. discriminate. }
  vm_compute in Habs. discriminate.
Qed.

End SelectiveScalingExamples.

(** * Line counts *)

Section LineCounts.

(** [C7] The rescale tool writes as many lines as it reads.  The
    delete-block tool loses lines that belong to no removed block.  The
    file [empty_block_lib] is one line with as many opening as closing
    braces and holds no line matching either pattern; it is written back
    empty, and no block is counted or reported.  The file
    [hold_then_setup_lib] has seven lines, and its only block with both
    conditions has four (lines 3 to 6); one line is written, and the one
    message names the six lines 2 to 7. *)
Theorem C7_lines_lost_unreported :
  (forall lines, length (Fix.process_lines lines) = length lines)
  /\ (length (readlines empty_block_lib) = 1%nat
      /\ count "{" empty_block_lib = count "}" empty_block_lib
      /\ existsb has_clk (readlines empty_block_lib) = false
      /\ existsb has_setup_falling (readlines empty_block_lib) = false
      /\ Clean.clean_lines (readlines empty_block_lib) = []
      /\ Clean.messages (Clean.run Clean.init (readlines empty_block_lib))
         = []
      /\ Clean.clean_lib_file NoFault "a.lib"
           {[ "a.lib"%string := empty_block_lib ]}
         = ({[ "a.lib"%string := [] ]}, Clean.Overwritten 0))
  /\ (length (readlines hold_then_setup_lib) = 7%nat
      /\ length (Clean.clean_lines (readlines hold_then_setup_lib)) = 1%nat
      /\ message_spans
           (Clean.messages
              (Clean.run Clean.init (readlines hold_then_setup_lib)))
         = [(2, 7)]).
Proof.
  split; [|split_and!; vm_compute; reflexivity].
  intros lines. apply process_lines_expected.
Qed.

(** [X21] The bookkeeping of the delete-block tool: for an input that it
    does not take to end inside a timing block, the number of lines
    written is the number of lines read minus the number of lines covered
    by the [REMOVED] messages. *)
Theorem X21_lines_written_bookkeeping (lines : list str) :
  ends_outside_block lines ->
  Z.of_nat (length (Clean.clean_lines lines))
  = Z.of_nat (length lines)
    - removed_lines (Clean.messages (Clean.run Clean.init lines)).
Proof.
  intros Hout.
  destruct (run_invariant lines) as (_ & Hsum & Hnil & _).
  cbv zeta in *. rewrite (Hnil Hout) in Hsum. simpl in Hsum.
  unfold Clean.clean_lines. lia.
Qed.

Lemma X21_witness :
  ends_outside_block
    [L "pin (Q) {"; L "timing () {"; related_pin_line "clk";
     L "timing_type : setup_falling;"; L "}"; L "}"]
  /\ Z.of_nat (length (Clean.clean_lines
       [L "pin (Q) {"; L "timing () {"; related_pin_line "clk";
        L "timing_type : setup_falling;"; L "}"; L "}"]))
     = 6 - 4.
Proof.
  split.
  - vm_compute. reflexivity.
  - refine (eq_trans (X21_lines_written_bookkeeping _ _) _);
      vm_compute; reflexivity.
Defined.

End LineCounts.

(** * Writing through a temporary file *)

Section Atomic.

Lemma temp_ne filename : Clean.temp_of filename <> filename.
Proof.
  unfold Clean.temp_of. induction filename as [|a s IH]; simpl.
  - discriminate.
  - intros [= H]. by apply IH.
Qed.

Lemma clean_keeps_original : keeps_original_clean.
Proof.
  intros ft filename fs Hout. unfold Clean.clean_lib_file in *.
  destruct (fs !! filename) as [content|] eqn:E; simpl; auto.
  rewrite write_file_spec in *.
  pose proof (temp_ne filename) as Hne.
  destruct ft as [|n|n|]; simpl in *.
  - exfalso. by apply (Hout (Clean.removed_blocks_count
                               (Clean.run Clean.init (readlines content)))).
  - destruct (n <? _)%nat; simpl in *.
    + by rewrite lookup_delete_ne, lookup_insert_ne.
    + exfalso. by apply (Hout (Clean.removed_blocks_count
                                 (Clean.run Clean.init (readlines content)))).
  - destruct (n <? _)%nat; simpl in *.
    + by rewrite lookup_insert_ne.
    + exfalso. by apply (Hout (Clean.removed_blocks_count
                                 (Clean.run Clean.init (readlines content)))).
  - by rewrite lookup_delete_ne, lookup_insert_ne.
Qed.

Lemma process_lib_file_cut ft n path content (fs : store) :
  fs !! path = Some content ->
  write_budget ft = Some n ->
  (n < length (concat (Fix.process_lines (readlines content))))%nat ->
  Fix.process_lib_file ft path path fs
  = (<[path := take n (concat (Fix.process_lines (readlines content)))]> fs,
     Fix.Died).
Proof.
  intros Hf Hb Hn. unfold Fix.process_lib_file.
  rewrite Hf, write_file_spec, Hb.
  apply Nat.ltb_lt in Hn. rewrite Hn.
  destruct ft; simpl in *; try discriminate; reflexivity.
Qed.

Lemma update_lib_file_cut ft n path area content (fs : store) :
  fs !! path = Some content ->
  (Area.subn_area area (read content)).2 <> 0%nat ->
  write_budget ft = Some n ->
  (n < length (Area.subn_area area (read content)).1)%nat ->
  (Area.update_lib_file ft path area fs).1
  = <[path := take n (Area.subn_area area (read content)).1]> fs
  /\ (Area.update_lib_file ft path area fs).2 <> Some true.
Proof.
  intros Hf Hc Hb Hn. unfold Area.update_lib_file. rewrite Hf. cbv zeta.
  destruct (Area.subn_area area (read content)) as [new count].
  simpl in Hc, Hn.
  destruct count; [congruence|].
  rewrite write_file_spec, Hb. simpl concat. rewrite app_nil_r.
  apply Nat.ltb_lt in Hn. rewrite Hn.
  destruct ft; simpl in *; try discriminate; split; auto; discriminate.
Qed.

(** [C5] (as amended) Only the delete-block tool writes to a temporary file
    and moves it into place after the whole rewrite: whatever fault strikes,
    the file it was given is as before unless the run ends by overwriting
    it, and then it holds the complete output.  The rescale tool and the
    area update open their target for writing directly: when a fault
    strikes after [n] characters of the output have reached the file, with
    [n] less than the length of the output, the target is left holding
    just these first [n] characters, and the run does not report
    success. *)
Theorem C5_only_clean_is_atomic :
  keeps_original_clean
  /\ (forall (fs : store) filename content,
        fs !! filename = Some content ->
        Clean.clean_lib_file NoFault filename fs
        = (<[filename := concat (Clean.clean_lines (readlines content))]>
             (delete (Clean.temp_of filename) fs),
           Clean.Overwritten
             (Clean.removed_blocks_count
                (Clean.run Clean.init (readlines content)))))
  /\ (forall ft n path content (fs : store),
        fs !! path = Some content ->
        write_budget ft = Some n ->
        (n < length (concat (Fix.process_lines (readlines content))))%nat ->
        Fix.process_lib_file ft path path fs
        = (<[path := take n (concat (Fix.process_lines (readlines content)))]>
             fs, Fix.Died))
  /\ (forall ft n path area content (fs : store),
        fs !! path = Some content ->
        (Area.subn_area area (read content)).2 <> 0%nat ->
        write_budget ft = Some n ->
        (n < length (Area.subn_area area (read content)).1)%nat ->
        (Area.update_lib_file ft path area fs).1
        = <[path := take n (Area.subn_area area (read content)).1]> fs
        /\ (Area.update_lib_file ft path area fs).2 <> Some true).
Proof.
  split_and!.
  - exact clean_keeps_original.
  - intros. by apply clean_lib_file_ok.
  - intros. by eapply process_lib_file_cut.
  - intros. by eapply update_lib_file_cut.
Qed.

Lemma tiny_clean_fails :
  (Clean.clean_lib_file (IOErrorAt 0) "a.lib" tiny_lib).2 = Clean.Failed.
Proof. vm_compute. reflexivity. Qed.

Lemma C5_witness :
  (forall n, (Clean.clean_lib_file (IOErrorAt 0) "a.lib" tiny_lib).2
             <> Clean.Overwritten n)
  /\ (Clean.clean_lib_file (IOErrorAt 0) "a.lib" tiny_lib).1 !! "a.lib"%string
     = tiny_lib !! "a.lib"%string.
Proof.
  assert (forall n, (Clean.clean_lib_file (IOErrorAt 0) "a.lib" tiny_lib).2
                    <> Clean.Overwritten n) as H.
  { intros n. rewrite tiny_clean_fails. discriminate. }
  split.
  - exact H.
  - exact (proj1 C5_only_clean_is_atomic (IOErrorAt 0) "a.lib"%string
             tiny_lib H).
Defined.

(** [C5] as stated fails for the rescale tool and for the area update: a
    write error after five characters leaves the five characters [area ]
    in the file. *)
Lemma C5_direct_write_truncates :
  ~ keeps_original_rescale /\ ~ keeps_original_area.
Proof.
  split.
  - intros H. specialize (H (IOErrorAt 5) "a.lib"%string tiny_lib).
    rewrite (process_lib_file_cut (IOErrorAt 5) 5 "a.lib"
               (L "area : 0 ;
") tiny_lib) in H.
    + simpl in H. rewrite lookup_insert_eq in H.
      unfold tiny_lib in H. rewrite lookup_singleton_eq in H.
      assert (Fix.Died <> Fix.Done) as Hd by discriminate.
      specialize (H Hd). vm_compute in H. discriminate.
    + apply lookup_singleton_eq.
    + reflexivity.
    + vm_compute. lia.
  - intros H.
    specialize (H (IOErrorAt 5) "a.lib"%string (Area.Dec false 5 0) tiny_lib).
    destruct (update_lib_file_cut (IOErrorAt 5) 5 "a.lib" (Area.Dec false 5 0)
                (L "area : 0 ;
") tiny_lib) as [E1 E2].
    + apply lookup_singleton_eq.
    + vm_compute. discriminate.
    + reflexivity.
    + vm_compute. lia.
    + specialize (H E2). rewrite E1, lookup_insert_eq in H.
      unfold tiny_lib in H. rewrite lookup_singleton_eq in H.
      vm_compute in H. discriminate.
Qed.

End Atomic.

(** * update_lib_file *)

Section AreaPattern.

Lemma area_shape p s rest cs :
  match_here Area.LIB_AREA_RE p s = Some (rest, cs) ->
  exists g1 num g2,
    s = g1 ++ num ++ g2 ++ rest
    /\ cs = [(2%nat, g2); (1%nat, g1)]
    /\ at_bol true p = true
    /\ is_area_prefix g1 /\ num <> [] /\ all_num num /\ is_area_suffix g2.
Proof.
  intros H. apply match_here_sound in H as (u & -> & M).
  cbv [Area.LIB_AREA_RE Seqs Plus Chr Word L list_ascii_of_string] in M.
  inv_matches.
  repeat match goal with
         | H : chr_eqb _ _ = true |- _ => apply chr_eqb_true in H as ->
         end.
  lazymatch goal with
  | |- context [(?w1 ++ ([?c1] ++ [?c2] ++ [?c3] ++ [?c4] ++ []) ++ ?w2
                 ++ [":"%char] ++ ?w3 ++ [])] =>
      assert (is_area_prefix (w1 ++ [c1; c2; c3; c4] ++ w2 ++ ":"%char :: w3))
        as Hpre
        by (exists w1, [c1; c2; c3; c4], w2, w3; split; [reflexivity|];
            split_and!; auto; unfold is_area_kw;
            cbv [L list_ascii_of_string]; repeat constructor; assumption);
      exists (w1 ++ [c1; c2; c3; c4] ++ w2 ++ ":"%char :: w3)
  end.
  lazymatch goal with
  | |- context [([?d] ++ ?ds) ++ (?w4 ++ [";"%char] ++ []) ++ []] =>
      exists (d :: ds), (w4 ++ [";"%char])
  end.
  simpl. rewrite !app_nil_r. split_and!; auto.
  - repeat (rewrite <- app_assoc || rewrite <- app_comm_cons). reflexivity.
  - unfold all_num. simpl. by apply andb_true_iff.
  - eexists. split; [reflexivity|]. assumption.
Qed.

Lemma area_consuming : consuming Area.LIB_AREA_RE.
Proof.
  intros p s rest cs H.
  apply area_shape in H as (g1 & num & g2 & -> & _ & _ & _ & Hn & _).
  intros E. apply (f_equal length) in E. rewrite !length_app in E.
  destruct num; [congruence|simpl in E; lia].
Qed.

End AreaPattern.

Section Completeness.

Lemma star_complete {A} c u : forall p rest cs (k : cont (A:=A)) x,
  forallb c u = true ->
  k (last_chr p u) rest cs = Some x ->
  exists y, star c p (u ++ rest) cs k = Some y.
Proof.
  induction u as [|a u IH]; intros p rest cs k x Hu Hk; simpl in *.
  - destruct rest as [|a rest]; simpl; eauto.
    destruct (c a); eauto.
    destruct (star c (Some a) rest cs k); eauto.
  - apply andb_true_iff in Hu as [Ha Hu]. rewrite Ha.
    destruct (IH (Some a) rest cs k x Hu Hk) as [y ->]. eauto.
Qed.

(** Whenever the pattern has a match, in the sense of [matches], that the
    continuation accepts, the matcher returns a result. *)
Lemma rmatch_complete {A} r p u rest cs cs' :
  matches r p u rest cs cs' ->
  forall (k : cont (A:=A)) x,
    k (last_chr p u) rest cs' = Some x ->
    exists y, rmatch r p (u ++ rest) cs k = Some y.
Proof.
  induction 1 as [p rest cs|c a p rest cs Ha
                 |r1 r2 p u1 u2 rest cs cs1 cs2 M1 IH1 M2 IH2
                 |r p u rest cs cs' M IH|r p rest cs|c p u rest cs Hu
                 |c p rest cs Hb|c p rest cs Ha|ml p rest cs Hb
                 |n r p u rest cs cs' M IH]; intros k x Hk; simpl in *.
  - eauto.
  - rewrite Ha. eauto.
  - rewrite last_chr_app in Hk. destruct (IH2 k x Hk) as [y Hy].
    rewrite <- app_assoc.
    apply (IH1 (fun p' s' cs' => rmatch r2 p' s' cs' k) y Hy).
  - destruct (IH k x Hk) as [y ->]. eauto.
  - destruct (rmatch r p rest cs k); eauto.
  - eapply star_complete; eauto.
  - destruct p as [a|]; simpl in Hb; [rewrite Hb|]; eauto.
  - destruct rest as [|a rest]; simpl in Ha; [|rewrite Ha]; eauto.
  - destruct p as [a|]; simpl in Hb; [rewrite Hb|]; eauto.
  - apply (IH (fun p' s' cs' =>
                 k p' s' ((n, take (length (u ++ rest) - length s')%nat
                                (u ++ rest)) :: cs')) x).
    by rewrite length_app, Nat.add_sub, take_app_length.
Qed.

Lemma match_here_complete r p u rest cs :
  matches r p u rest [] cs -> match_here r p (u ++ rest) <> None.
Proof.
  intros M. unfold match_here.
  destruct (rmatch_complete _ _ _ _ _ _ M
              (fun _ s' cs' => Some (s', cs')) (rest, cs) eq_refl) as [y ->].
  discriminate.
Qed.

End Completeness.

Section AreaMatches.

Lemma matches_word f w : forall kw p rest cs,
  Forall2 (fun x y => f x y = true) w kw ->
  matches (Word f w) p kw rest cs cs.
Proof.
  induction w as [|a w IH]; intros kw p rest cs H; inversion H; subst; simpl.
  - constructor.
  - change (y :: l') with ([y] ++ l'). econstructor.
    + by constructor.
    + by apply IH.
Qed.

Lemma area_matches p g1 num g2 rest :
  at_bol true p = true ->
  is_area_prefix g1 -> num <> [] -> all_num num -> is_area_suffix g2 ->
  matches Area.LIB_AREA_RE p (g1 ++ num ++ g2) rest []
    [(2%nat, g2); (1%nat, g1)].
Proof.
  intros Hb (w1 & kw & w2 & w3 & -> & H1 & Hk & H2 & H3) Hn Hd (w4 & -> & H4).
  destruct num as [|d ds]; [congruence|].
  unfold all_num in Hd. simpl in Hd. apply andb_true_iff in Hd as [Hd Hds].
  cbv [Area.LIB_AREA_RE Seqs Plus Chr].
  replace ((w1 ++ kw ++ w2 ++ ":"%char :: w3) ++ (d :: ds) ++ w4 ++ [";"%char])
    with ((w1 ++ kw ++ w2 ++ ":"%char :: w3)
          ++ (([d] ++ ds) ++ ((w4 ++ [";"%char]) ++ []))).
  2:{ by rewrite app_nil_r. }
  eapply m_seq.
  - apply m_group.
    replace (w1 ++ kw ++ w2 ++ ":"%char :: w3)
      with ([] ++ (w1 ++ (kw ++ (w2 ++ ([":"%char] ++ (w3 ++ []))))))
      by (simpl; by rewrite app_nil_r).
    eapply m_seq; [by apply m_bol|].
    eapply m_seq; [by apply m_star|].
    eapply m_seq; [by apply matches_word|].
    eapply m_seq; [by apply m_star|].
    eapply m_seq; [apply m_cls; reflexivity|].
    eapply m_seq; [by apply m_star|]. apply m_eps.
  - eapply m_seq.
    + eapply m_seq; [by apply m_cls|by apply m_star].
    + eapply m_seq; [|apply m_eps]. apply m_group.
      replace (w4 ++ [";"%char]) with (w4 ++ ([";"%char] ++ []))
        by reflexivity.
      eapply m_seq; [by apply m_star|].
      eapply m_seq; [apply m_cls; reflexivity|]. apply m_eps.
Qed.

End AreaMatches.

Section FieldReading.

Ltac all_chars c := destruct c as [[] [] [] [] [] [] [] []].

Lemma space_facts c :
  is_space c = true ->
  chr_ci "a" c = false /\ chr_ci "r" c = false /\ chr_ci "e" c = false
  /\ Area.is_num_chr c = false /\ chr_eqb ":" c = false
  /\ chr_eqb ";" c = false.
Proof. all_chars c; vm_compute; intros; try discriminate; tauto. Qed.

Lemma chr_ci_a c : chr_ci "a" c = true -> c = "a"%char \/ c = "A"%char.
Proof. all_chars c; vm_compute; intros; try discriminate; tauto. Qed.

Lemma chr_ci_r c : chr_ci "r" c = true -> c = "r"%char \/ c = "R"%char.
Proof. all_chars c; vm_compute; intros; try discriminate; tauto. Qed.

Lemma num_facts c :
  Area.is_num_chr c = true ->
  is_space c = false /\ chr_eqb ";" c = false.
Proof. all_chars c; vm_compute; intros; try discriminate; tauto. Qed.

Lemma walk_space q w Y :
  q = BeforeKw \/ q = BeforeColon \/ q = BeforeNum \/ q = BeforeSemi ->
  all_space w -> field_from q (w ++ Y) = field_from q Y.
Proof.
  intros Hq Hw. induction w as [|c w IH]; simpl; auto.
  unfold all_space in Hw. simpl in Hw. apply andb_true_iff in Hw as [Hc Hw].
  destruct Hq as [->|[->|[->| ->]]]; rewrite Hc; by apply IH.
Qed.

Lemma walk_kw kw Y :
  is_area_kw kw -> field_from BeforeKw (kw ++ Y) = field_from BeforeColon Y.
Proof.
  unfold is_area_kw. cbv [L list_ascii_of_string]. intros H.
  repeat match goal with
         | H : Forall2 _ _ _ |- _ => inversion H; subst; clear H
         end.
  simpl.
  match goal with
  | |- context [is_space ?c] =>
      assert (is_space c = false) as ->
        by (destruct (is_space c) eqn:E; [|reflexivity];
            apply space_facts in E as (E & _); congruence)
  end.
  repeat match goal with
         | H : chr_ci _ ?c = true |- _ => rewrite H; clear H
         end.
  reflexivity.
Qed.

Lemma walk_num ds Y :
  all_num ds -> field_from InNum (ds ++ Y) = field_from InNum Y.
Proof.
  intros Hd. induction ds as [|c ds IH]; simpl; auto.
  unfold all_num in Hd. simpl in Hd. apply andb_true_iff in Hd as [Hc Hd].
  rewrite Hc. by apply IH.
Qed.

Lemma walk_suffix q g2 R :
  q = InNum \/ q = BeforeSemi ->
  is_area_suffix g2 -> field_from q (g2 ++ R) = true.
Proof.
  intros Hq (w4 & -> & H4). rewrite <- app_assoc.
  assert (field_from BeforeSemi (w4 ++ [";"%char] ++ R) = true) as Hs.
  { rewrite walk_space by auto. reflexivity. }
  destruct Hq as [-> | ->]; auto.
  destruct w4 as [|c w4]; [reflexivity|].
  unfold all_space in H4. simpl in H4. apply andb_true_iff in H4 as [Hc H4].
  simpl. destruct (space_facts c Hc) as (_ & _ & _ & -> & _).
  rewrite Hc. by rewrite walk_space by auto.
Qed.

(** A field at the head of the text is read as one. *)
Lemma field_of_shape g1 num g2 R :
  is_area_prefix g1 -> num <> [] -> all_num num -> is_area_suffix g2 ->
  field_from BeforeKw (g1 ++ num ++ g2 ++ R) = true.
Proof.
  intros (w1 & kw & w2 & w3 & -> & H1 & Hk & H2 & H3) Hn Hd Hs.
  rewrite <- !app_assoc. rewrite walk_space by auto.
  rewrite walk_kw by done. rewrite walk_space by auto. simpl.
  rewrite walk_space by auto.
  destruct num as [|d ds]; [congruence|].
  unfold all_num in Hd. simpl in Hd. apply andb_true_iff in Hd as [Hd Hds].
  simpl. destruct (num_facts d Hd) as (-> & _). rewrite Hd.
  rewrite walk_num by done. apply walk_suffix; auto.
Qed.

(** Past the phase before the keyword, the head of a field is not read
    as one. *)
Lemma field_from_prefix_false g1 Y : forall q,
  is_area_prefix g1 -> q <> BeforeKw -> field_from q (g1 ++ Y) = false.
Proof.
  intros q (w1 & kw & w2 & w3 & -> & H1 & Hk & H2 & H3).
  revert q. induction w1 as [|c w1 IH]; intros q Hq.
  - unfold is_area_kw in Hk. cbv [L list_ascii_of_string] in Hk.
    inversion Hk as [|? c1 ? kw1 Hc1 Hk1]; subst; clear Hk.
    inversion Hk1 as [|? c2 ? kw2 Hc2 Hk2]; subst; clear Hk1.
    apply chr_ci_a in Hc1. apply chr_ci_r in Hc2.
    destruct Hc1 as [-> | ->], Hc2 as [-> | ->], q; try congruence;
      reflexivity.
  - unfold all_space in H1. simpl in H1.
    apply andb_true_iff in H1 as [Hc H1].
    destruct (space_facts c Hc) as (Ea & Er & Ee & En & Eo & Es).
    simpl. destruct q; try congruence;
      rewrite ?Hc, ?Ea, ?Er, ?Ee, ?En, ?Eo, ?Es; auto;
      apply IH; auto; discriminate.
Qed.

(** Replacing the numbers of area fields does not change what is read as
    a field. *)
Lemma field_from_stable fa p s o n :
  fa <> [] -> all_num fa ->
  area_rewritten fa p s o n -> forall q, field_from q s = field_from q o.
Proof.
  intros Hfa Hnum.
  induction 1 as [p|p a s o n _ _ IH|p g1 num g2 rest o n Hb H1 Hn Hd H2 _ _];
    intros q; auto.
  - destruct q; simpl; rewrite ?IH; reflexivity.
  - assert (q = BeforeKw \/ q <> BeforeKw) as [->|Hq]
      by (destruct q; auto; right; discriminate).
    + by rewrite !field_of_shape.
    + by rewrite !field_from_prefix_false.
Qed.

Lemma all_space_cons c w :
  is_space c = true -> all_space w -> all_space (c :: w).
Proof. intros Hc Hw. unfold all_space. cbn [forallb]. by rewrite Hc. Qed.

Lemma all_num_cons c n :
  Area.is_num_chr c = true -> all_num n -> all_num (c :: n).
Proof. intros Hc Hn. unfold all_num. cbn [forallb]. by rewrite Hc. Qed.

Lemma read_semi s :
  field_from BeforeSemi s = true ->
  exists w R, s = w ++ ";"%char :: R /\ all_space w.
Proof.
  induction s as [|c s IH]; cbn [field_from]; [discriminate|].
  destruct (is_space c) eqn:Ec.
  - intros H. destruct (IH H) as (w & R & -> & Hw).
    exists (c :: w), R. split; auto;
      first [reflexivity | by apply all_space_cons | by apply all_num_cons | congruence].
  - intros H. apply chr_eqb_true in H as ->. exists [], s; by split_and!.
Qed.

Lemma read_num s :
  field_from InNum s = true ->
  exists n w R, s = n ++ w ++ ";"%char :: R /\ all_num n /\ all_space w.
Proof.
  induction s as [|c s IH]; cbn [field_from]; [discriminate|].
  destruct (Area.is_num_chr c) eqn:En.
  - intros H. destruct (IH H) as (n & w & R & -> & Hn & Hw).
    exists (c :: n), w, R. split_and!; auto;
      first [reflexivity | by apply all_space_cons | by apply all_num_cons | congruence].
  - destruct (is_space c) eqn:Ec.
    + intros H. destruct (read_semi _ H) as (w & R & -> & Hw).
      exists [], (c :: w), R. split_and!; auto;
      first [reflexivity | by apply all_space_cons | by apply all_num_cons | congruence].
    + intros H. apply chr_eqb_true in H as ->. exists [], [], s; by split_and!.
Qed.

Lemma read_before_num s :
  field_from BeforeNum s = true ->
  exists w3 n w R,
    s = w3 ++ n ++ w ++ ";"%char :: R
    /\ all_space w3 /\ n <> [] /\ all_num n /\ all_space w.
Proof.
  induction s as [|c s IH]; cbn [field_from]; [discriminate|].
  destruct (is_space c) eqn:Ec.
  - intros H. destruct (IH H) as (w3 & n & w & R & -> & H3 & Hne & Hn & Hw).
    exists (c :: w3), n, w, R. split_and!; auto;
      first [reflexivity | by apply all_space_cons | by apply all_num_cons | congruence].
  - destruct (Area.is_num_chr c) eqn:En; [|discriminate].
    intros H. destruct (read_num _ H) as (n & w & R & -> & Hn & Hw).
    exists [], (c :: n), w, R. split_and!; auto;
      first [reflexivity | by apply all_space_cons | by apply all_num_cons | congruence].
Qed.

Lemma read_before_colon s :
  field_from BeforeColon s = true ->
  exists w2 t, s = w2 ++ ":"%char :: t /\ all_space w2
               /\ field_from BeforeNum t = true.
Proof.
  induction s as [|c s IH]; cbn [field_from]; [discriminate|].
  destruct (is_space c) eqn:Ec.
  - intros H. destruct (IH H) as (w2 & t & -> & H2 & Ht).
    exists (c :: w2), t. split_and!; auto;
      first [reflexivity | by apply all_space_cons | by apply all_num_cons | congruence].
  - destruct (chr_eqb ":" c) eqn:E; [|discriminate].
    apply chr_eqb_true in E as ->. intros H. exists [], s; by split_and!.
Qed.

Lemma read_before_kw s :
  field_from BeforeKw s = true ->
  exists w1 kw t, s = w1 ++ kw ++ t /\ all_space w1 /\ is_area_kw kw
                  /\ field_from BeforeColon t = true.
Proof.
  induction s as [|c s IH]; cbn [field_from]; [discriminate|].
  destruct (is_space c) eqn:Ec.
  - intros H. destruct (IH H) as (w1 & kw & t & -> & H1 & Hk & Ht).
    exists (c :: w1), kw, t. split_and!; auto;
      first [reflexivity | by apply all_space_cons | by apply all_num_cons | congruence].
  - destruct (chr_ci "a" c) eqn:E1; [|discriminate].
    destruct s as [|c2 s]; [discriminate|]. cbn [field_from].
    destruct (chr_ci "r" c2) eqn:E2; [|discriminate].
    destruct s as [|c3 s]; [discriminate|]. cbn [field_from].
    destruct (chr_ci "e" c3) eqn:E3; [|discriminate].
    destruct s as [|c4 s]; [discriminate|]. cbn [field_from].
    destruct (chr_ci "a" c4) eqn:E4; [|discriminate].
    intros H. exists [], [c; c2; c3; c4], s.
    split; [reflexivity|]. split; [reflexivity|]. split; [|exact H].
    unfold is_area_kw. cbv [L list_ascii_of_string].
    repeat constructor; assumption.
Qed.

(** What is read as a field is one. *)
Lemma shape_of_field s :
  field_from BeforeKw s = true ->
  exists g1 num g2 R,
    s = g1 ++ num ++ g2 ++ R
    /\ is_area_prefix g1 /\ num <> [] /\ all_num num /\ is_area_suffix g2.
Proof.
  intros H. destruct (read_before_kw _ H) as (w1 & kw & t & -> & H1 & Hk & Ht).
  destruct (read_before_colon _ Ht) as (w2 & t' & -> & H2 & Ht').
  destruct (read_before_num _ Ht') as (w3 & n & w & R & -> & H3 & Hne & Hn & Hw).
  exists (w1 ++ kw ++ w2 ++ ":"%char :: w3), n, (w ++ [";"%char]), R.
  split_and!; auto.
  - repeat (rewrite <- app_assoc || rewrite <- app_comm_cons). reflexivity.
  - by exists w1, kw, w2, w3.
  - by exists w.
Qed.

(** The pattern matches at a position exactly when the position begins a
    line and a field is read there. *)
Lemma area_match_iff p s :
  match_here Area.LIB_AREA_RE p s <> None
  <-> at_bol true p = true /\ field_from BeforeKw s = true.
Proof.
  split.
  - destruct (match_here Area.LIB_AREA_RE p s) as [[rest cs]|] eqn:E;
      [|congruence].
    intros _.
    apply area_shape in E as (g1 & num & g2 & -> & _ & Hb & H1 & Hn & Hd & H2).
    split; auto. by apply field_of_shape.
  - intros [Hb Hf].
    destruct (shape_of_field _ Hf) as (g1 & num & g2 & R & -> & H1 & Hn & Hd & H2).
    rewrite !app_assoc. rewrite <- (app_assoc g1).
    apply (match_here_complete _ _ _ _ [(2%nat, g2); (1%nat, g1)]).
    by apply area_matches.
Qed.

End FieldReading.

Section AreaTwice.

Lemma span_unique (c : ascii -> bool) w : forall w' x x' t t',
  forallb c w = true -> forallb c w' = true ->
  c x = false -> c x' = false ->
  w ++ x :: t = w' ++ x' :: t' ->
  w = w' /\ x :: t = x' :: t'.
Proof.
  induction w as [|a w IH]; intros w' x x' t t' Hw Hw' Hx Hx' E.
  - destruct w' as [|a' w']; [auto|].
    simpl in *. injection E as -> _.
    apply andb_true_iff in Hw' as [Ha _]. congruence.
  - simpl in Hw. apply andb_true_iff in Hw as [Ha Hw].
    destruct w' as [|a' w']; simpl in *.
    + injection E as <- _. congruence.
    + injection E as -> E. apply andb_true_iff in Hw' as [_ Hw'].
      destruct (IH _ _ _ _ _ Hw Hw' Hx Hx' E) as [-> ?]. auto.
Qed.

Lemma suffix_head g2 R :
  is_area_suffix g2 ->
  exists z t, g2 ++ R = z :: t /\ Area.is_num_chr z = false.
Proof.
  intros (w4 & -> & H4). destruct w4 as [|c w4]; simpl.
  - eexists _, _. split; [reflexivity|]. reflexivity.
  - unfold all_space in H4. simpl in H4.
    apply andb_true_iff in H4 as [Hc _].
    destruct (space_facts c Hc) as (_ & _ & _ & En & _).
    eexists _, _. split; [reflexivity|]. exact En.
Qed.

(** A text begins with at most one field. *)
Lemma shape_unique g1 n g2 R g1' n' g2' R' :
  is_area_prefix g1 -> n <> [] -> all_num n -> is_area_suffix g2 ->
  is_area_prefix g1' -> n' <> [] -> all_num n' -> is_area_suffix g2' ->
  g1 ++ n ++ g2 ++ R = g1' ++ n' ++ g2' ++ R' ->
  g1 = g1' /\ n = n' /\ g2 = g2' /\ R = R'.
Proof.
  intros (w1 & kw & w2 & w3 & -> & H1 & Hk & H2 & H3) Hn Hd Hs
         (v1 & kv & v2 & v3 & -> & G1 & Gk & G2 & G3) Hn' Hd' Hs' E.
  unfold is_area_kw in Hk, Gk. cbv [L list_ascii_of_string] in Hk, Gk.
  repeat match goal with
         | H : Forall2 _ _ _ |- _ => inversion H; subst; clear H
         end.
  destruct n as [|d ds]; [congruence|].
  destruct n' as [|d' ds']; [congruence|].
  unfold all_num in Hd, Hd'. simpl in Hd, Hd'.
  apply andb_true_iff in Hd as [Hd Hds].
  apply andb_true_iff in Hd' as [Hd' Hds'].
  repeat (rewrite <- app_assoc in E || rewrite <- app_comm_cons in E).
  simpl in E.
  assert (forall c, chr_ci "a" c = true -> is_space c = false) as Ha.
  { intros c Hc. destruct (is_space c) eqn:Ec; auto.
    apply space_facts in Ec as (? & _). congruence. }
  assert (forall c, Area.is_num_chr c = true -> is_space c = false) as Hns
    by (intros c Hc; by apply num_facts).
  unfold all_space, all_num in *.
  apply (span_unique is_space) in E as [-> E]; auto.
  injection E as -> -> -> -> E.
  apply (span_unique is_space) in E as [-> E]; auto.
  injection E as E.
  apply (span_unique is_space) in E as [-> E]; auto.
  injection E as -> E.
  destruct (suffix_head g2 R Hs) as (z & t & Ez & Hz).
  destruct (suffix_head g2' R' Hs') as (z' & t' & Ez' & Hz').
  rewrite Ez, Ez' in E.
  apply (span_unique Area.is_num_chr) in E as [-> E]; auto.
  rewrite <- Ez, <- Ez' in E.
  destruct Hs as (w4 & -> & Hw4), Hs' as (v4 & -> & Gv4).
  rewrite <- !app_assoc in E. simpl in E.
  unfold all_space in *.
  apply (span_unique is_space) in E as [-> E]; auto.
  injection E as ->. auto.
Qed.

End AreaTwice.

Section AreaSubstitution.

Lemma field_at_iff p s :
  field_at p s <-> at_bol true p = true /\ field_from BeforeKw s = true.
Proof.
  split.
  - intros (Hb & g1 & num & g2 & rest & -> & H1 & Hn & Hd & H2).
    split; auto. by apply field_of_shape.
  - intros [Hb Hf]. split; auto.
    destruct (shape_of_field _ Hf) as (g1 & num & g2 & R & -> & H).
    by exists g1, num, g2, R.
Qed.

(** The pattern matches exactly where a field starts. *)
Lemma field_at_match p s :
  field_at p s <-> match_here Area.LIB_AREA_RE p s <> None.
Proof. rewrite field_at_iff. symmetry. apply area_match_iff. Qed.

Lemma field_at_nil p : ~ field_at p [].
Proof.
  intros (_ & g1 & num & g2 & rest & E & _ & Hn & _).
  apply (f_equal length) in E. rewrite !length_app in E.
  destruct num; [congruence|simpl in E; lia].
Qed.

Lemma substituted_area_rewritten fa p s o n :
  substituted Area.LIB_AREA_RE (Area.replacement fa) p s o n ->
  area_rewritten fa p s o n.
Proof.
  induction 1 as [p|p a s o n Hm _ IH|p tok rest cs o n Hne Hm _ IH].
  - constructor.
  - constructor; [|done]. intros Hf. apply field_at_match in Hf. congruence.
  - apply area_shape in Hm as (g1 & num & g2 & E & -> & Hb & H1 & Hn & Hd & H2).
    rewrite !app_assoc in E. apply app_inv_tail in E. subst tok.
    unfold Area.replacement. simpl. rewrite <- !app_assoc.
    apply ar_field; auto. by rewrite !app_assoc.
Qed.

Lemma subn_area_rewritten area content :
  area_rewritten (Area.formatted_area area) None content
    (Area.subn_area area content).1 (Area.subn_area area content).2.
Proof.
  unfold Area.subn_area.
  apply substituted_area_rewritten, subn_substituted, area_consuming.
Qed.

Lemma area_rewritten_inv fa p s o n :
  area_rewritten fa p s o n ->
  (s = [] /\ o = [] /\ n = 0%nat)
  \/ (exists a s' o',
        s = a :: s' /\ o = a :: o' /\ ~ field_at p s
        /\ area_rewritten fa (Some a) s' o' n)
  \/ (exists g1 num g2 rest o' n',
        s = g1 ++ num ++ g2 ++ rest /\ o = g1 ++ fa ++ g2 ++ o' /\ n = S n'
        /\ at_bol true p = true
        /\ is_area_prefix g1 /\ num <> [] /\ all_num num /\ is_area_suffix g2
        /\ area_rewritten fa (last_chr p (g1 ++ num ++ g2)) rest o' n').
Proof.
  destruct 1 as [p|p a s o n Hnf H|p g1 num g2 rest o n Hb H1 Hn Hd H2 H].
  - by left.
  - right; left. by exists a, s, o.
  - right; right. exists g1, num, g2, rest, o, n. by split_and!.
Qed.

(** The text and the number of fields fix the result. *)
Lemma area_rewritten_fun fa p s o n :
  area_rewritten fa p s o n ->
  forall o' n', area_rewritten fa p s o' n' -> o' = o /\ n' = n.
Proof.
  induction 1 as [p|p a s o n Hnf _ IH|p g1 num g2 rest o n Hb H1 Hn Hd H2 _ IH];
    intros o' n' H';
    destruct (area_rewritten_inv _ _ _ _ _ H')
      as [(E & -> & ->)
         |[(a' & s' & o'' & E & -> & Hnf' & Hr)
          |(g1' & num' & g2' & rest' & o'' & n'' & E & -> & -> & Hb' & H1'
            & Hn' & Hd' & H2' & Hr)]].
  - done.
  - discriminate E.
  - exfalso. apply (field_at_nil p). split; [done|].
    by exists g1', num', g2', rest'.
  - discriminate E.
  - injection E as <- <-. by destruct (IH _ _ Hr) as [-> ->].
  - exfalso. apply Hnf. split; [done|]. by exists g1', num', g2', rest'.
  - exfalso. apply (field_at_nil p). split; [done|].
    exists g1, num, g2, rest. by split_and!.
  - exfalso. apply Hnf'. split; [done|]. by exists g1, num, g2, rest.
  - destruct (shape_unique _ _ _ _ _ _ _ _ H1 Hn Hd H2 H1' Hn' Hd' H2' E)
      as (-> & -> & -> & ->).
    by destruct (IH _ _ Hr) as [-> ->].
Qed.

Lemma has_field_from fa p s o n :
  area_rewritten fa p s o n ->
  n = 0%nat <-> (forall pre t, s = pre ++ t -> ~ field_at (last_chr p pre) t).
Proof.
  induction 1 as [p|p a s o n Hnf _ IH|p g1 num g2 rest o n Hb H1 Hn Hd H2 _ _].
  - split; [|done]. intros _ pre t E.
    symmetry in E. apply app_eq_nil in E as [-> ->]. apply field_at_nil.
  - rewrite IH. split.
    + intros Hs [|b pre] t E; simpl in E.
      * by subst t.
      * injection E as <- E. simpl. by apply Hs.
    + intros Hs pre t E. apply (Hs (a :: pre) t). simpl. by rewrite E.
  - split; [discriminate|]. intros Hs. exfalso.
    apply (Hs [] (g1 ++ num ++ g2 ++ rest) eq_refl). split; [done|].
    by exists g1, num, g2, rest.
Qed.

(** No field is counted exactly when the text has none. *)
Lemma no_field_zero fa s o n :
  area_rewritten fa None s o n -> n = 0%nat <-> ~ has_field s.
Proof.
  intros H. rewrite (has_field_from _ _ _ _ _ H). unfold has_field. split.
  - intros Hs (pre & t & E & Hf). by apply (Hs pre t).
  - intros Hs pre t E Hf. apply Hs. by exists pre, t.
Qed.

Lemma area_rewritten_none fa p s o :
  area_rewritten fa p s o 0 -> o = s.
Proof.
  remember 0%nat as n eqn:En. induction 1; try discriminate; auto.
  f_equal. auto.
Qed.

Lemma area_rewritten_one fa p s o :
  area_rewritten fa p s o 1 ->
  exists pre g1 num g2 post,
    s = pre ++ g1 ++ num ++ g2 ++ post
    /\ at_bol true (last_chr p pre) = true
    /\ is_area_prefix g1 /\ num <> [] /\ all_num num /\ is_area_suffix g2
    /\ o = pre ++ g1 ++ fa ++ g2 ++ post.
Proof.
  remember 1%nat as n eqn:En.
  induction 1 as [p|p a s o n _ _ IH|p g1 num g2 rest o n Hb H1 Hn Hd H2 Hr _];
    try discriminate.
  - destruct (IH En)
      as (pre & g1 & num & g2 & post & -> & ? & ? & ? & ? & ? & ->).
    exists (a :: pre), g1, num, g2, post. split_and!; auto.
  - injection En as ->. apply area_rewritten_none in Hr as ->.
    exists [], g1, num, g2, rest. split_and!; auto.
Qed.

Lemma update_lib_file_result path area content (fs : store) :
  fs !! path = Some content ->
  Area.update_lib_file NoFault path area fs
  = if decide ((Area.subn_area area (read content)).2 = 0%nat)
    then (fs, Some false)
    else (<[path := (Area.subn_area area (read content)).1]> fs, Some true).
Proof.
  intros Hf. unfold Area.update_lib_file. rewrite Hf. cbv zeta.
  destruct (Area.subn_area area (read content)) as [new [|count]];
    [reflexivity|].
  rewrite write_file_spec. cbn [write_budget fst snd concat].
  rewrite app_nil_r. destruct (decide _) as [E|_]; [discriminate E|].
  reflexivity.
Qed.

Lemma update_lib_file_none path area content (fs : store) :
  fs !! path = Some content ->
  ~ has_field (read content) ->
  Area.update_lib_file NoFault path area fs = (fs, Some false).
Proof.
  intros Hf Hn. rewrite (update_lib_file_result _ _ _ _ Hf).
  apply (no_field_zero _ _ _ _ (subn_area_rewritten area (read content)))
    in Hn.
  by destruct (decide _).
Qed.

Lemma update_lib_file_some path area content (fs : store) o n :
  fs !! path = Some content ->
  has_field (read content) ->
  area_rewritten (Area.formatted_area area) None (read content) o n ->
  Area.update_lib_file NoFault path area fs = (<[path := o]> fs, Some true).
Proof.
  intros Hf Hh Hr. rewrite (update_lib_file_result _ _ _ _ Hf).
  pose proof (subn_area_rewritten area (read content)) as Hc.
  destruct (area_rewritten_fun _ _ _ _ _ Hr _ _ Hc) as [-> ->].
  destruct (decide _) as [E|_]; [|done].
  by apply (no_field_zero _ _ _ _ Hr) in E.
Qed.

End AreaSubstitution.

(** [C4] (as amended) [update_lib_file] rewrites every area field of the
    file: reading the text from left to right, the number of each
    [area : <number> ;] that begins a line is replaced by the new area
    value, the text before and after the number being kept, and nothing
    else is changed; this fixes the new text and the number of fields.  A
    file with no such field is left as it was and [False] is returned; a
    file with one field or more is written back with every field rewritten
    and [True] is returned.  With exactly one field the new content is the
    old one with that one number replaced. *)
Theorem C4_area_substitution :
  (forall area content,
     area_rewritten (Area.formatted_area area) None content
       (Area.subn_area area content).1 (Area.subn_area area content).2)
  /\ (forall fa p s o n o' n',
        area_rewritten fa p s o n -> area_rewritten fa p s o' n' ->
        o' = o /\ n' = n)
  /\ (forall fa s o n,
        area_rewritten fa None s o n -> n = 0%nat <-> ~ has_field s)
  /\ (forall path area content (fs : store),
        fs !! path = Some content ->
        ~ has_field (read content) ->
        Area.update_lib_file NoFault path area fs = (fs, Some false))
  /\ (forall path area content (fs : store) o n,
        fs !! path = Some content ->
        has_field (read content) ->
        area_rewritten (Area.formatted_area area) None (read content) o n ->
        Area.update_lib_file NoFault path area fs
        = (<[path := o]> fs, Some true))
  /\ (forall fa s o,
        area_rewritten fa None s o 1 ->
        exists pre g1 num g2 post,
          s = pre ++ g1 ++ num ++ g2 ++ post
          /\ at_bol true (last_chr None pre) = true
          /\ is_area_prefix g1 /\ num <> [] /\ all_num num
          /\ is_area_suffix g2
          /\ o = pre ++ g1 ++ fa ++ g2 ++ post).
Proof.
  split_and!.
  - apply subn_area_rewritten.
  - intros fa p s o n o' n' H H'. by apply (area_rewritten_fun _ _ _ _ _ H).
  - apply no_field_zero.
  - apply update_lib_file_none.
  - apply update_lib_file_some.
  - intros fa s o. apply area_rewritten_one.
Qed.

Section AreaExamples.

Lemma tiny_has_area_field : has_field (read (L "area : 0 ;
")).
Proof.
  exists [], (L "area : 0 ;
"). split; [reflexivity|]. split; [reflexivity|].
  exists (L "area : "), (L "0"), (L " ;"), [newline].
  split_and!; try done.
  - exists [], (L "area"), (L " "), (L " "). split_and!; try done.
    unfold is_area_kw. cbv [L list_ascii_of_string].
    repeat constructor.
  - by exists (L " ").
Qed.

Lemma tiny_area_rewritten :
  area_rewritten (Area.formatted_area (Area.Dec false 12345 (-2))) None
    (read (L "area : 0 ;
")) (L "area : 123.45 ;
") 1.
Proof.
  exact (subn_area_rewritten (Area.Dec false 12345 (-2)) (L "area : 0 ;
")).
Qed.

Lemma two_fields_rewritten :
  area_rewritten (Area.formatted_area (Area.Dec false 5 0)) None
    (read two_fields) (L "area : 5 ;
area : 5 ;
") 2.
Proof. exact (subn_area_rewritten (Area.Dec false 5 0) two_fields). Qed.

(** Rewriting the first field only is not what the relation describes. *)
Lemma two_fields_not_first_only :
  ~ area_rewritten (L "5") None two_fields (L "area : 5 ;
area : 0 ;
") 1.
Proof.
  intros H.
  destruct (area_rewritten_fun _ _ _ _ _ two_fields_rewritten _ _ H)
    as [_ E].
  discriminate E.
Qed.

End AreaExamples.

Lemma C4_witness :
  Area.update_lib_file NoFault "a.lib" (Area.Dec false 12345 (-2)) tiny_lib
  = (<["a.lib"%string := L "area : 123.45 ;
"]> tiny_lib, Some true).
Proof.
  exact (proj1 (proj2 (proj2 (proj2 (proj2 C4_area_substitution))))
           "a.lib"%string (Area.Dec false 12345 (-2)) _ tiny_lib _ _
           (lookup_singleton_eq _ _) tiny_has_area_field tiny_area_rewritten).
Defined.

(** [C4] as stated fails: a file with two area fields is written back
    with both rewritten, and [True] is returned. *)
Lemma C4_two_fields_both_rewritten :
  Area.update_lib_file NoFault "a.lib" (Area.Dec false 5 0)
    {[ "a.lib"%string := two_fields ]}
  = ({[ "a.lib"%string := L "area : 5 ;
area : 5 ;
" ]}, Some true)
  /\ ~ fails_on_several_fields.
Proof.
  assert (Area.update_lib_file NoFault "a.lib" (Area.Dec false 5 0)
            {[ "a.lib"%string := two_fields ]}
          = ({[ "a.lib"%string := L "area : 5 ;
area : 5 ;
" ]}, Some true)) as R by (vm_compute; reflexivity).
  split; [exact R|].
  intros H.
  specialize (H "a.lib"%string (Area.Dec false 5 0) two_fields
                {[ "a.lib"%string := two_fields ]} _ _
                (lookup_singleton_eq _ _) two_fields_rewritten).
  rewrite R in H.
  assert (1 < 2)%nat as Hlt by lia.
  specialize (H Hlt). apply (f_equal snd) in H. discriminate.
Qed.

(** * Brace balance *)

Section Balance.

Import Fix.

Lemma net_braces_app l1 l2 :
  net_braces (l1 ++ l2) = net_braces l1 + net_braces l2.
Proof.
  unfold net_braces. induction l1 as [|l l1 IH]; simpl; [lia|].
  rewrite IH. lia.
Qed.

Lemma depth_done lines done todo k :
  lines = done ++ todo -> (k <= length done)%nat ->
  depth lines k = net_braces (take k done).
Proof.
  intros -> Hk. unfold depth. by rewrite take_app_le.
Qed.

(** One iteration of pass 1, case by case. *)
Lemma scan_step_cases st i line :
  let opens :=
    (startswith (L "pin (") (strip line)
     || startswith (L "bus (") (strip line))
    && negb (in_pin_block st) in
  let d := brace_depth st + count "{" line - count "}" line in
  let is_out :=
    if (if opens then true else in_pin_block st)
       && contains (L "direction") (strip line)
    then (if contains (L "output") (strip line) then true
          else if opens then false else is_output_pin st)
    else if opens then false else is_output_pin st in
  let info :=
    if opens
    then <["start_line"%string := i + 1]>
           (<["start_depth"%string := brace_depth st]> ∅)
    else block_start_info st in
  scan_step st i line
  = if (if opens then true else in_pin_block st)
       && (d <=? info_get info "start_depth")
    then ScanState
           (if is_out
            then ranges st ++ [(info_get info "start_line", i + 1)]
            else ranges st)
           d false false ∅
    else ScanState (ranges st) d (if opens then true else in_pin_block st)
           is_out info.
Proof. reflexivity. Qed.

Lemma depth_snoc lines done line todo :
  lines = done ++ line :: todo ->
  depth lines (length done) = net_braces done
  /\ depth lines (S (length done))
     = net_braces done + count "{" line - count "}" line.
Proof.
  intros ->. unfold depth. split.
  - by rewrite take_app_length.
  - replace (done ++ line :: todo) with ((done ++ [line]) ++ todo)
      by (by rewrite <- app_assoc).
    rewrite take_app_length' by (rewrite length_app; simpl; lia).
    rewrite net_braces_app. unfold net_braces. simpl. lia.
Qed.

Lemma scan_step_depth_ok lines done line todo st :
  lines = done ++ line :: todo ->
  scan_depth_ok lines done st ->
  scan_depth_ok lines (done ++ [line])
    (scan_step st (Z.of_nat (length done)) line).
Proof.
  intros E (Hd & Hr & Hb).
  destruct (depth_snoc _ _ _ _ E) as (Hd0 & Hd1).
  assert (length lines = S (length done) + length todo)%nat as Hlen.
  { rewrite E, length_app. simpl. lia. }
  rewrite scan_step_cases. cbv zeta.
  set (opens := (startswith (L "pin (") (strip line)
                 || startswith (L "bus (") (strip line))
                && negb (in_pin_block st)).
  set (d := brace_depth st + count "{" line - count "}" line).
  set (info := if opens then _ else block_start_info st).
  set (is_out := if (_ && contains (L "direction") (strip line)) then _
                 else _).
  assert (d = depth lines (S (length done))) as Hdd
    by (unfold d; rewrite Hd, Hd1; lia).
  assert ((if opens then true else in_pin_block st) = true ->
          exists i : nat,
            info !! "start_line"%string = Some (Z.of_nat i + 1)
            /\ info !! "start_depth"%string = Some (depth lines i)
            /\ (i <= length done)%nat
            /\ forall k, (i < k <= length done)%nat ->
                         depth lines i < depth lines k) as Hblock.
  { unfold info. destruct opens.
    - intros _. exists (length done).
      split; [by rewrite lookup_insert_eq|].
      split; [rewrite lookup_insert_ne by done; rewrite lookup_insert_eq;
              by rewrite Hd0, Hd|].
      split; [lia|intros; lia].
    - intros Hin. destruct (Hb Hin) as (i & H1 & H2 & H3 & H4).
      exists i. split_and!; auto. lia. }
  assert (forall r, r ∈ ranges st ->
            closed_span lines r
            /\ r.2 <= Z.of_nat (length (done ++ [line]))) as Hr'.
  { intros r Hin. destruct (Hr r Hin). split; auto.
    rewrite length_app. simpl. lia. }
  destruct ((if opens then true else in_pin_block st)
            && (d <=? info_get info "start_depth")) eqn:Ec.
  - apply andb_true_iff in Ec as [Ein Ele].
    destruct (Hblock Ein) as (i & H1 & H2 & H3 & H4).
    unfold info_get in *. rewrite H2 in Ele. rewrite H1. simpl in Ele.
    unfold scan_depth_ok. cbn [brace_depth ranges in_pin_block].
    split_and!.
    + rewrite net_braces_app, <- Hd. unfold d, net_braces. simpl. lia.
    + destruct is_out; auto.
      intros r Hin. apply elem_of_app in Hin as [Hin|Hin]; auto.
      apply list_elem_of_singleton in Hin as ->. simpl. split.
      * exists i, (length done).
        split_and!; auto; try lia; try (rewrite <- Hdd; lia).
      * rewrite length_app. simpl. lia.
    + discriminate.
  - unfold scan_depth_ok. cbn [brace_depth ranges in_pin_block
                                 block_start_info].
    split_and!; auto.
    + rewrite net_braces_app, <- Hd. unfold d, net_braces. simpl. lia.
    + intros Ein. rewrite Ein in Ec. simpl in Ec.
      destruct (Hblock Ein) as (i & H1 & H2 & H3 & H4).
      unfold info_get in Ec. rewrite H2 in Ec. simpl in Ec.
      exists i. rewrite length_app. simpl. split_and!; auto; [lia|].
      intros k Hk. destruct (decide (k = S (length done))) as [->|Hne].
      * rewrite <- Hdd. lia.
      * apply H4. lia.
Qed.

Lemma scan_loop_depth_ok lines todo : forall done st,
  lines = done ++ todo ->
  scan_depth_ok lines done st ->
  scan_depth_ok lines lines (scan_loop st (Z.of_nat (length done)) todo).
Proof.
  induction todo as [|line todo IH]; intros done st E Hok.
  - rewrite app_nil_r in E. by subst.
  - simpl. pose proof (scan_step_depth_ok _ _ _ _ _ E Hok) as Hok'.
    specialize (IH (done ++ [line])
                  (scan_step st (Z.of_nat (length done)) line)).
    rewrite length_app in IH. simpl in IH.
    replace (Z.of_nat (length done + 1)) with (Z.of_nat (length done) + 1)
      in IH by lia.
    apply IH; auto. by rewrite <- app_assoc.
Qed.

(** Every span returned by pass 1 is a closed block. *)
Lemma find_ranges_closed lines r :
  r ∈ find_output_pin_line_ranges lines -> closed_span lines r.
Proof.
  intros Hin.
  assert (scan_depth_ok lines [] scan_init) as H0.
  { split_and!; simpl; auto.
    - intros r' Hr'. by apply elem_of_nil in Hr'.
    - discriminate. }
  destruct (scan_loop_depth_ok lines lines [] scan_init eq_refl H0)
    as (_ & Hr & _).
  by destruct (Hr r Hin).
Qed.

Lemma process_lib_file_done input_path output_path content (fs : store) :
  fs !! input_path = Some content ->
  process_lib_file NoFault input_path output_path fs
  = (<[output_path := concat (process_lines (readlines content))]> fs, Done).
Proof.
  intros Hf. unfold process_lib_file. by rewrite Hf, write_file_spec.
Qed.

End Balance.

(** [C6] (as amended) Neither tool checks the balance of braces: whatever
    the braces of the file, and absent an I/O fault, [process_lib_file]
    writes its output and ends with [Done], and [clean_lib_file] moves its
    output over the input.  What pass 1 does guarantee is that it returns
    no wrong span: every span it returns is a closed block, whose last line
    brings the depth back to, or below, the depth before its first line,
    which no earlier line of the span does; a pin or bus block still open
    at the end of the file yields no span. *)
Theorem C6_no_balance_check :
  (forall input_path output_path content (fs : store),
     fs !! input_path = Some content ->
     Fix.process_lib_file NoFault input_path output_path fs
     = (<[output_path := concat (Fix.process_lines (readlines content))]> fs,
        Fix.Done))
  /\ (forall filename content (fs : store),
        fs !! filename = Some content ->
        exists n fs',
          Clean.clean_lib_file NoFault filename fs
          = (fs', Clean.Overwritten n))
  /\ (forall lines r,
        r ∈ Fix.find_output_pin_line_ranges lines -> closed_span lines r).
Proof.
  split_and!.
  - intros. by apply process_lib_file_done.
  - intros filename content fs Hf.
    rewrite (clean_lib_file_ok _ _ _ Hf). eauto.
  - apply find_ranges_closed.
Qed.

Lemma C6_witness :
  closed_span one_block_lines (1, 4).
Proof.
  apply (proj2 (proj2 C6_no_balance_check) one_block_lines (1, 4)).
  rewrite ranges_one. apply list_elem_of_here.
Defined.

(** [C6] as stated fails: a file with one unmatched opening brace is
    overwritten by [clean_lib_file], here with nothing, and
    [process_lib_file] ends with [Done]; no error is raised. *)
Lemma C6_unbalanced_not_detected :
  Clean.clean_lib_file NoFault "a.lib" {[ "a.lib"%string := open_timing ]}
  = ({[ "a.lib"%string := [] ]}, Clean.Overwritten 0)
  /\ ~ rejects_unbalanced_clean
  /\ ~ rejects_unbalanced_rescale.
Proof.
  assert (Clean.clean_lib_file NoFault "a.lib"
            {[ "a.lib"%string := open_timing ]}
          = ({[ "a.lib"%string := [] ]}, Clean.Overwritten 0)) as R.
  { rewrite (clean_lib_file_ok _ open_timing) by apply lookup_singleton_eq.
    assert (Clean.clean_lines (readlines open_timing) = []) as ->
      by (vm_compute; reflexivity).
    assert (Clean.removed_blocks_count
              (Clean.run Clean.init (readlines open_timing)) = 0) as ->
      by (vm_compute; reflexivity).
    simpl. rewrite delete_singleton_ne by done.
    by rewrite insert_singleton_eq. }
  split; [exact R|]. split.
  - intros H.
    destruct (H "a.lib"%string open_timing
                {[ "a.lib"%string := open_timing ]}) as [Hno _].
    + apply lookup_singleton_eq.
    + vm_compute. discriminate.
    + apply (Hno 0). by rewrite R.
  - intros H.
    apply (H "a.lib"%string open_pin {[ "a.lib"%string := open_pin ]}).
    + apply lookup_singleton_eq.
    + vm_compute. discriminate.
    + by rewrite (process_lib_file_done _ _ open_pin)
        by apply lookup_singleton_eq.
Qed.

(** * Running a tool twice *)

Section CleanTwice.

Import Clean.

Lemma level_open_snoc body : forall lvl line,
  level_open lvl (body ++ [line])
  = match level_open lvl body with
    | Some x =>
        if (x + count "{" line - count "}" line =? 0) then None
        else Some (x + count "{" line - count "}" line)
    | None => None
    end.
Proof.
  induction body as [|l body IH]; intros lvl line; simpl.
  - by destruct (_ =? 0).
  - destruct (lvl + count "{" l - count "}" l =? 0); auto.
Qed.

Lemma closes_snoc body : forall lvl x line,
  level_open lvl body = Some x ->
  x + count "{" line - count "}" line = 0 ->
  closes lvl (body ++ [line]) = true.
Proof.
  induction body as [|l body IH]; intros lvl x line Ho Hz; simpl in *.
  - injection Ho as ->. apply Z.eqb_eq in Hz. by rewrite Hz.
  - destruct (lvl + count "{" l - count "}" l =? 0); [discriminate|].
    eauto.
Qed.

Lemma existsb_snoc {A} (f : A -> bool) l x :
  existsb f (l ++ [x]) = existsb f l || f x.
Proof. rewrite existsb_app. simpl. by rewrite orb_false_r. Qed.

(** What is known of the block being read. *)
Lemma run_block_invariant ls :
  let st := run init ls in
  in_timing_block st = true ->
  exists header body,
    current_timing_block_lines st = header :: body
    /\ is_timing_header header = true
    /\ level_open 1 body = Some (brace_level st)
    /\ found_clk st = existsb has_clk body
    /\ found_setup_falling st = existsb has_setup_falling body.
Proof.
  induction ls as [|line ls IH] using rev_ind; [discriminate|].
  cbv zeta in *. rewrite run_snoc. set (st := run init ls) in *.
  destruct (in_timing_block st) eqn:Eb.
  - destruct (IH eq_refl) as (h & body & Hbuf & Hh & Hlv & Hc & Hs).
    pose proof (step_inside st line Eb) as (Hl & Hfc & Hfs & _ & Hstep).
    cbv zeta in Hstep.
    destruct (brace_level st + count "{" line - count "}" line =? 0) eqn:Ez.
    + destruct Hstep as (-> & _). discriminate.
    + destruct Hstep as (_ & -> & _). intros _.
      exists h, (body ++ [line]). rewrite Hbuf, Hl, Hfc, Hfs, Hc, Hs.
      rewrite level_open_snoc, Hlv, Ez, !existsb_snoc. auto.
  - destruct (step_outside st line Eb) as [A|A].
    + destruct A as (Hh & _ & -> & -> & -> & -> & _). intros _.
      exists line, []. auto.
    + destruct A as (_ & -> & _). discriminate.
Qed.

(** Cleaning the output of [clean_lines] changes nothing and removes no
    block. *)
Lemma clean_lines_twice ls :
  in_timing_block (run init (clean_lines ls)) = false
  /\ clean_lines (clean_lines ls) = clean_lines ls
  /\ removed_blocks_count (run init (clean_lines ls)) = 0.
Proof.
  induction ls as [|line ls IH] using rev_ind; [by vm_compute|].
  unfold clean_lines in *. rewrite run_snoc. set (st := run init ls) in *.
  destruct IH as (Ho & Hf & Hc).
  destruct (in_timing_block st) eqn:Eb.
  - destruct (run_block_invariant ls Eb)
      as (h & body & Hbuf & Hh & Hlv & Hfc & Hfs).
    fold st in Hbuf, Hlv, Hfc, Hfs.
    pose proof (step_inside st line Eb) as (_ & _ & _ & _ & Hstep).
    cbv zeta in Hstep.
    destruct (brace_level st + count "{" line - count "}" line =? 0) eqn:Ez.
    + destruct Hstep as (_ & _ & Hstep).
      destruct ((found_clk st || has_clk line)
                && (found_setup_falling st || has_setup_falling line)) eqn:Eg.
      * destruct Hstep as (-> & _). auto.
      * destruct Hstep as (-> & _). rewrite Hbuf.
        apply Z.eqb_eq in Ez.
        pose proof (closes_snoc _ _ _ _ Hlv Ez) as Hcl.
        rewrite run_app. simpl app. cbn [run foldl].
        fold (run (step (run init (f_out st)) h) (body ++ [line])).
        destruct (step_outside (run init (f_out st)) h Ho) as [A|A];
          [|destruct A; congruence].
        destruct A as (_ & Hin & Hl & Hb & Hc1 & Hs1 & _ & Hfo).
        rewrite <- Hl in Hcl.
        destruct (run_block_body _ _ Hin Hcl) as (H1 & H2 & H3).
        cbv zeta in H2, H3.
        rewrite Hc1, Hs1, Hb, Hfo, !existsb_snoc in H2.
        rewrite Hc1, Hs1, !existsb_snoc in H3.
        simpl in H2, H3. rewrite <- Hfc, <- Hfs, Eg in H2, H3.
        destruct (step_outside_same (run init (f_out st)) h Ho) as (Hcnt & _).
        rewrite Hcnt, Hc in H3. rewrite Hf in H2.
        split_and!; auto; lia.
    + destruct Hstep as (_ & _ & -> & _). auto.
  - destruct (step_outside st line Eb) as [A|A].
    + destruct A as (_ & _ & _ & _ & _ & _ & _ & ->). auto.
    + destruct A as (Hh & _ & _ & ->).
      rewrite run_snoc.
      destruct (step_outside (run init (f_out st)) line Ho) as [B|B];
        [destruct B; congruence|].
      destruct B as (_ & -> & _ & ->).
      destruct (step_outside_same (run init (f_out st)) line Ho) as (-> & _).
      rewrite Hf. auto.
Qed.

End CleanTwice.

Section ReadLines.

Lemma chr_eqb_newline a : chr_eqb a "010"%char = true <-> a = newline.
Proof. unfold chr_eqb, newline. apply Ascii.eqb_eq. Qed.

Lemma elem_of_rev (x : ascii) l : x ∈ rev l <-> x ∈ l.
Proof. rewrite !list_elem_of_In. symmetry. apply in_rev. Qed.

Lemma readlines_go_concat s : forall cur,
  concat (readlines_go cur s) = rev cur ++ s.
Proof.
  induction s as [|a s IH]; intros cur; simpl.
  - destruct cur; simpl; by rewrite ?app_nil_r.
  - destruct (chr_eqb a "010"%char); simpl.
    + rewrite IH. simpl. by rewrite <- app_assoc.
    + rewrite IH. simpl. by rewrite <- app_assoc.
Qed.

(** The lines of a file, joined, are the file as it is read. *)
Lemma concat_readlines s : concat (readlines s) = read s.
Proof. apply readlines_go_concat. Qed.

Lemma readlines_go_ok s : forall cur,
  newline ∉ cur -> lines_ok (readlines_go cur s).
Proof.
  induction s as [|a s IH]; intros cur Hcur; simpl.
  - destruct cur as [|c cur]; simpl; auto. right. split.
    + intros E. apply (f_equal length) in E.
      rewrite length_app in E. simpl in E. lia.
    + intros Hin. apply Hcur. by apply (elem_of_rev _ (c :: cur)).
  - destruct (chr_eqb a "010"%char) eqn:Ea.
    + apply chr_eqb_newline in Ea as ->.
      assert (complete_line (rev (newline :: cur))) as Hc.
      { exists (rev cur). split; auto. by rewrite elem_of_rev. }
      specialize (IH [] ltac:(apply not_elem_of_nil)).
      simpl. destruct (readlines_go [] s); auto.
    + apply IH. rewrite not_elem_of_cons. split; auto.
      intros E'. subst a. assert (chr_eqb newline "010"%char = true) as E
        by (by apply chr_eqb_newline). congruence.
Qed.

Lemma readlines_ok s : lines_ok (readlines s).
Proof. apply readlines_go_ok, not_elem_of_nil. Qed.

Lemma concat_no_cr ls : cr ∉ concat ls <-> Forall (fun l => cr ∉ l) ls.
Proof.
  induction ls as [|l ls IH]; simpl.
  - split; [constructor|intros _; apply not_elem_of_nil].
  - rewrite not_elem_of_app, Forall_cons, IH. tauto.
Qed.

(** No line read holds a CR. *)
Lemma readlines_no_cr s : Forall (fun l => cr ∉ l) (readlines s).
Proof. apply concat_no_cr. rewrite concat_readlines. apply read_no_cr. Qed.

Lemma no_cr_sublist (l1 l2 : list str) :
  l1 `sublist_of` l2 ->
  Forall (fun l => cr ∉ l) l2 -> Forall (fun l => cr ∉ l) l1.
Proof.
  induction 1 as [|x l1 l2 Hs IH|x l1 l2 Hs IH]; intros H; auto.
  - apply Forall_cons in H as [Hx H]. constructor; auto.
  - apply Forall_cons in H as [_ H]. auto.
Qed.

Lemma readlines_go_app b : forall cur s,
  newline ∉ b ->
  readlines_go cur (b ++ s) = readlines_go (rev b ++ cur) s.
Proof.
  induction b as [|a b IH]; intros cur s Hb; simpl; auto.
  apply not_elem_of_cons in Hb as [Ha Hb].
  destruct (chr_eqb a "010"%char) eqn:Ea.
  - apply chr_eqb_newline in Ea. congruence.
  - rewrite IH by done. by rewrite <- app_assoc.
Qed.

Lemma readlines_go_complete l s :
  complete_line l -> readlines_go [] (l ++ s) = l :: readlines_go [] s.
Proof.
  intros (b & -> & Hb). rewrite <- app_assoc, readlines_go_app by done.
  simpl. rewrite app_nil_r. by rewrite rev_involutive.
Qed.

Lemma readlines_go_lines ls :
  lines_ok ls -> readlines_go [] (concat ls) = ls.
Proof.
  induction ls as [|l ls IH]; intros Hok; simpl; auto.
  destruct ls as [|l' ls].
  - simpl. rewrite app_nil_r. destruct Hok as [Hc|[Hne Hp]].
    + rewrite <- (app_nil_r l) at 1. by rewrite readlines_go_complete.
    + rewrite <- (app_nil_r l) at 1. rewrite readlines_go_app by done.
      simpl. rewrite app_nil_r. destruct (rev l) eqn:E.
      * apply (f_equal (@rev _)) in E. rewrite rev_involutive in E.
        simpl in E. congruence.
      * by rewrite <- E, rev_involutive.
  - destruct Hok as [Hc Hok]. rewrite readlines_go_complete by done.
    f_equal. by apply IH.
Qed.

(** Reading back lines that were written gives the same lines. *)
Lemma readlines_concat ls :
  lines_ok ls -> Forall (fun l => cr ∉ l) ls -> readlines (concat ls) = ls.
Proof.
  intros Hok Hcr. unfold readlines.
  rewrite read_id by (by apply concat_no_cr). by apply readlines_go_lines.
Qed.

Lemma lines_ok_tail l ls : lines_ok (l :: ls) -> lines_ok ls.
Proof. simpl. destruct ls; [done|]. by intros [_ ?]. Qed.

Lemma lines_ok_sublist l1 l2 :
  l1 `sublist_of` l2 -> lines_ok l2 -> lines_ok l1.
Proof.
  induction 1 as [|x l1 l2 Hs IH|x l1 l2 Hs IH]; intros Hok; auto.
  - pose proof (lines_ok_tail _ _ Hok) as Hok2. specialize (IH Hok2).
    simpl. destruct l1 as [|y l1].
    + simpl in Hok. destruct l2; [done|]. left. by destruct Hok.
    + destruct l2 as [|z l2]; [by apply sublist_nil_r in Hs|].
      destruct Hok as [Hc _]. auto.
  - apply IH. by eapply lines_ok_tail.
Qed.

End ReadLines.

Section CleanFileTwice.

Import Clean.

(** The output keeps lines of the input, in their order. *)
Lemma run_sublist ls :
  f_out (run init ls) ++ current_timing_block_lines (run init ls)
  `sublist_of` ls.
Proof.
  induction ls as [|line ls IH] using rev_ind; [by vm_compute|].
  rewrite run_snoc. set (st := run init ls) in *.
  destruct (in_timing_block st) eqn:Eb.
  - pose proof (step_inside st line Eb) as (_ & _ & _ & _ & Hstep).
    cbv zeta in Hstep.
    destruct (brace_level st + count "{" line - count "}" line =? 0).
    + destruct Hstep as (_ & -> & Hstep).
      destruct ((found_clk st || has_clk line)
                && (found_setup_falling st || has_setup_falling line)).
      * destruct Hstep as (-> & _). rewrite app_nil_r.
        apply sublist_inserts_r. etrans; [|exact IH].
        by apply sublist_inserts_r.
      * destruct Hstep as (-> & _). rewrite app_nil_r, app_assoc.
        by apply sublist_app.
    + destruct Hstep as (_ & -> & -> & _). rewrite app_assoc.
      by apply sublist_app.
  - destruct (run_invariant ls) as (_ & _ & Hnil & _).
    cbv zeta in Hnil. fold st in Hnil. rewrite (Hnil Eb) in IH.
    rewrite app_nil_r in IH.
    destruct (step_outside st line Eb) as [A|A].
    + destruct A as (_ & _ & _ & -> & _ & _ & _ & ->). by apply sublist_app.
    + destruct A as (_ & _ & -> & ->). rewrite (Hnil Eb), app_nil_r.
      by apply sublist_app.
Qed.

Lemma clean_lines_sublist ls : clean_lines ls `sublist_of` ls.
Proof.
  etrans; [|apply run_sublist]. unfold clean_lines.
  by apply sublist_inserts_r.
Qed.

(** Running [clean_lib_file] on its own output changes nothing and
    counts no removed block. *)
Lemma clean_lib_file_twice filename content (fs : store) :
  fs !! filename = Some content ->
  clean_lib_file NoFault filename
    (clean_lib_file NoFault filename fs).1
  = ((clean_lib_file NoFault filename fs).1, Overwritten 0).
Proof.
  intros Hf. rewrite (clean_lib_file_ok _ _ _ Hf). simpl.
  rewrite (clean_lib_file_ok _ (concat (clean_lines (readlines content))))
    by apply lookup_insert_eq.
  assert (readlines (concat (clean_lines (readlines content)))
          = clean_lines (readlines content)) as ->.
  { apply readlines_concat.
    - eapply lines_ok_sublist; [apply clean_lines_sublist|apply readlines_ok].
    - eapply no_cr_sublist; [apply clean_lines_sublist|apply readlines_no_cr]. }
  destruct (clean_lines_twice (readlines content)) as (_ & -> & ->).
  f_equal. rewrite delete_insert_ne by apply temp_ne.
  rewrite insert_insert_eq. f_equal.
  apply delete_id. apply lookup_delete_eq.
Qed.

End CleanFileTwice.

(** * The area update, run twice *)

Section ReadField.

Lemma read_app t pre : forall p,
  last_chr p pre <> Some cr -> read (pre ++ t) = read pre ++ read t.
Proof.
  induction pre as [|a s Ha IH| |s IH|b s Hb IH] using read_ind; intros p Hp.
  - reflexivity.
  - rewrite <- app_comm_cons, !read_cons by done.
    rewrite <- app_comm_cons. f_equal. by apply (IH (Some a)).
  - by destruct Hp.
  - rewrite <- !app_comm_cons, !read_crlf.
    rewrite <- app_comm_cons. f_equal. by apply (IH (Some newline)).
  - rewrite <- !app_comm_cons, !read_cr by done.
    rewrite <- app_comm_cons. f_equal. rewrite app_comm_cons.
    by apply (IH (Some cr)).
Qed.

Lemma bol_read pre : forall p p',
  (at_bol true p = true -> at_bol true p' = true) ->
  at_bol true (last_chr p pre) = true ->
  at_bol true (last_chr p' (read pre)) = true.
Proof.
  induction pre as [|a s Ha IH| |s IH|b s Hb IH] using read_ind;
    intros p p' Hpp Hp.
  - by apply Hpp.
  - rewrite read_cons by done. by apply (IH (Some a)).
  - discriminate Hp.
  - rewrite read_crlf. by apply (IH (Some newline)).
  - rewrite read_cr by done. apply (IH (Some cr)); [discriminate|done].
Qed.

Lemma bol_no_cr p : at_bol true p = true -> p <> Some cr.
Proof. intros H ->. discriminate H. Qed.

(** What is read as a field in the raw text is read as one once the line
    ends are translated. *)
Lemma field_from_read s : forall q,
  field_from q s = true -> field_from q (read s) = true.
Proof.
  induction s as [|a s Ha IH| |s IH|b s Hb IH] using read_ind; intros q.
  - done.
  - rewrite read_cons by done. cbn [field_from].
    destruct q;
      repeat match goal with
             | |- context [if ?c then _ else _] =>
                 lazymatch type of c with
                 | bool => destruct c
                 end
             end; auto.
  - by destruct q.
  - rewrite read_crlf.
    destruct q;
      first [ exact (IH BeforeKw) | exact (IH BeforeColon)
            | exact (IH BeforeNum) | exact (IH BeforeSemi)
            | exact (fun H => False_ind _ (Bool.diff_false_true H)) ].
  - rewrite read_cr by done.
    destruct q;
      first [ exact (IH BeforeKw) | exact (IH BeforeColon)
            | exact (IH BeforeNum) | exact (IH BeforeSemi)
            | exact (fun H => False_ind _ (Bool.diff_false_true H)) ].
Qed.

Lemma has_field_read s : has_field s -> has_field (read s).
Proof.
  intros (pre & t & -> & Hf). exists (read pre), (read t).
  apply field_at_iff in Hf as [Hb Hf]. split.
  - apply (read_app _ _ None). by apply bol_no_cr.
  - apply field_at_iff. split.
    + by apply (bol_read pre None None).
    + by apply field_from_read.
Qed.

(** A field found in the raw text is found in the text as read. *)
Lemma subn_area_read_count area content :
  (Area.subn_area area content).2 <> 0%nat ->
  (Area.subn_area area (read content)).2 <> 0%nat.
Proof.
  rewrite (no_field_zero _ _ _ _ (subn_area_rewritten area content)).
  rewrite (no_field_zero _ _ _ _ (subn_area_rewritten area (read content))).
  intros H Hr. apply H. intros Hh. by apply Hr, has_field_read.
Qed.

End ReadField.

Section AreaRerun.

Lemma last_chr_suffix p x g2 :
  is_area_suffix g2 -> last_chr p (x ++ g2) = Some ";"%char.
Proof.
  intros (w4 & -> & _). rewrite app_assoc, last_chr_app. reflexivity.
Qed.

(** At a rewritten field the pattern matches again, on the same text
    around the number. *)
Lemma area_match_rewritten p g1 fa g2 X :
  at_bol true p = true ->
  is_area_prefix g1 -> fa <> [] -> all_num fa -> is_area_suffix g2 ->
  match_here Area.LIB_AREA_RE p ((g1 ++ fa ++ g2) ++ X)
  = Some (X, [(2%nat, g2); (1%nat, g1)]).
Proof.
  intros Hb H1 Hn Hd H2.
  pose proof (area_matches p g1 fa g2 X Hb H1 Hn Hd H2) as M.
  apply match_here_complete in M.
  destruct (match_here _ p _) as [[rest cs]|] eqn:E; [|congruence].
  apply area_shape in E
    as (g1' & n' & g2' & E & -> & _ & H1' & Hn' & Hd' & H2').
  rewrite <- !app_assoc in E.
  destruct (shape_unique _ _ _ _ _ _ _ _ H1 Hn Hd H2 H1' Hn' Hd' H2' E)
    as (-> & -> & -> & ->).
  reflexivity.
Qed.

(** Substituting in the result of a substitution finds the same fields
    and changes nothing. *)
Lemma substituted_again fa p s o n :
  fa <> [] -> all_num fa ->
  substituted Area.LIB_AREA_RE (Area.replacement fa) p s o n ->
  substituted Area.LIB_AREA_RE (Area.replacement fa) p o o n.
Proof.
  intros Hfa Hnum H.
  induction H as [p|p a s o n Hm Hs IH|p tok rest cs o n Hne Hm Hs IH].
  - constructor.
  - apply sb_keep; auto.
    destruct (match_here Area.LIB_AREA_RE p (a :: o)) eqn:E; auto.
    exfalso.
    assert (match_here Area.LIB_AREA_RE p (a :: o) <> None) as Hsome
      by congruence.
    apply area_match_iff in Hsome as [Hb Hf].
    assert (area_rewritten fa p (a :: s) (a :: o) n) as Hr.
    { apply substituted_area_rewritten. by apply sb_keep. }
    rewrite <- (field_from_stable _ _ _ _ _ Hfa Hnum Hr) in Hf.
    assert (match_here Area.LIB_AREA_RE p (a :: s) <> None) as Hcontra
      by (apply area_match_iff; auto).
    congruence.
  - apply area_shape in Hm
      as (g1 & num & g2 & E & -> & Hb & H1 & Hn & Hd & H2).
    rewrite !app_assoc in E. apply app_inv_tail in E. subst tok.
    unfold Area.replacement at 2. cbn [group Nat.eqb].
    pose proof (area_match_rewritten p g1 fa g2 o Hb H1 Hfa Hnum H2) as Hm'.
    assert (g1 ++ fa ++ g2 <> []) as Hne'.
    { destruct g1; simpl; [|discriminate]. destruct fa; simpl; congruence. }
    pose proof (sb_hit Area.LIB_AREA_RE (Area.replacement fa) p
                  (g1 ++ fa ++ g2) o _ o n Hne' Hm') as Hhit.
    unfold Area.replacement at 2 in Hhit. cbn [group Nat.eqb] in Hhit.
    assert (last_chr p (g1 ++ num ++ g2) = Some ";"%char) as E1
      by (rewrite app_assoc; by apply last_chr_suffix).
    assert (last_chr p (g1 ++ fa ++ g2) = Some ";"%char) as E2
      by (rewrite app_assoc; by apply last_chr_suffix).
    rewrite <- ?app_assoc in IH. rewrite E1 in IH. rewrite E2 in Hhit.
    rewrite <- !app_assoc in Hhit. rewrite <- !app_assoc.
    by apply Hhit.
Qed.

Lemma subn_area_twice area content :
  Area.formatted_area area <> [] -> all_num (Area.formatted_area area) ->
  Area.subn_area area (Area.subn_area area content).1
  = Area.subn_area area content.
Proof.
  intros Hfa Hnum. unfold Area.subn_area, subn.
  pose proof (subn_substituted Area.LIB_AREA_RE
                (Area.replacement (Area.formatted_area area)) content
                area_consuming) as H.
  apply (substituted_again _ _ _ _ _ Hfa Hnum) in H.
  apply substituted_subn_go in H.
  - unfold subn in H. rewrite H. by destruct (subn_go _ _ _ _ content).
  - apply consuming_nil, area_consuming.
Qed.

Lemma subn_area_no_cr area content :
  all_num (Area.formatted_area area) ->
  cr ∉ content -> cr ∉ (Area.subn_area area content).1.
Proof.
  intros Hnum.
  pose proof (subn_area_rewritten area content) as H. revert H.
  generalize (Area.subn_area area content).1 (Area.subn_area area content).2.
  generalize (@None ascii). intros p o n H.
  induction H as [p|p a s o n _ _ IH|p g1 num g2 rest o n _ _ _ _ _ _ IH].
  - done.
  - rewrite !not_elem_of_cons. intros [? ?]. split; auto.
  - rewrite !not_elem_of_app. intros (? & _ & ? & ?). split_and!; auto.
    intros Hin. unfold all_num in Hnum.
    rewrite forallb_forall in Hnum. apply list_elem_of_In in Hin.
    by apply Hnum in Hin.
Qed.

(** A second update with the same area finds the same fields, leaves the
    file as the first update wrote it, and returns [True] again. *)
Lemma update_lib_file_twice path area content (fs : store) :
  fs !! path = Some content ->
  Area.formatted_area area <> [] -> all_num (Area.formatted_area area) ->
  (Area.subn_area area (read content)).2 <> 0%nat ->
  Area.update_lib_file NoFault path area
    (Area.update_lib_file NoFault path area fs).1
  = ((Area.update_lib_file NoFault path area fs).1, Some true).
Proof.
  intros Hf Hfa Hnum Hc.
  rewrite (update_lib_file_result _ _ _ _ Hf).
  destruct (decide _) as [E|_]; [congruence|]. cbn [fst].
  rewrite (update_lib_file_result _ _ (Area.subn_area area (read content)).1)
    by apply lookup_insert_eq.
  rewrite (read_id (Area.subn_area area (read content)).1)
    by (apply subn_area_no_cr; [done|apply read_no_cr]).
  rewrite subn_area_twice by done.
  destruct (decide _) as [E|_]; [congruence|].
  by rewrite insert_insert_eq.
Qed.

End AreaRerun.

(** [C8] (as amended) Running [clean_lib_file] a second time on its own
    output leaves the file unchanged and counts zero removed blocks.
    Re-running the area update on a file it has updated does not find "no
    match": when the formatted area is a non-empty run of digits and dots,
    the second run finds the same area fields again, rewrites them to the
    text they already have, leaves the file unchanged and returns [True]
    again. *)
Theorem C8_second_run :
  (forall filename content (fs : store),
     fs !! filename = Some content ->
     Clean.clean_lib_file NoFault filename
       (Clean.clean_lib_file NoFault filename fs).1
     = ((Clean.clean_lib_file NoFault filename fs).1, Clean.Overwritten 0))
  /\ (forall lines,
        Clean.clean_lines (Clean.clean_lines lines) = Clean.clean_lines lines)
  /\ (forall area content,
        Area.formatted_area area <> [] ->
        all_num (Area.formatted_area area) ->
        Area.subn_area area (Area.subn_area area content).1
        = Area.subn_area area content)
  /\ (forall path area content (fs : store),
        fs !! path = Some content ->
        Area.formatted_area area <> [] ->
        all_num (Area.formatted_area area) ->
        (Area.subn_area area content).2 <> 0%nat ->
        Area.update_lib_file NoFault path area
          (Area.update_lib_file NoFault path area fs).1
        = ((Area.update_lib_file NoFault path area fs).1, Some true)).
Proof.
  split_and!.
  - intros filename content fs Hf. by apply (clean_lib_file_twice _ content).
  - intros lines. by destruct (clean_lines_twice lines) as (_ & ? & _).
  - intros. by apply subn_area_twice.
  - intros path area content fs Hf Hne Hnum Hc.
    apply (update_lib_file_twice _ _ content); auto.
    by apply subn_area_read_count.
Qed.

Lemma area_five_numeric :
  Area.formatted_area (Area.Dec false 5 0) <> []
  /\ all_num (Area.formatted_area (Area.Dec false 5 0)).
Proof. split; [vm_compute; discriminate|vm_compute; reflexivity]. Qed.

Lemma tiny_has_field :
  (Area.subn_area (Area.Dec false 5 0) (L "area : 0 ;
")).2 <> 0%nat.
Proof. vm_compute. discriminate. Qed.

Lemma tiny_rerun :
  Area.update_lib_file NoFault "a.lib" (Area.Dec false 5 0)
    (Area.update_lib_file NoFault "a.lib" (Area.Dec false 5 0) tiny_lib).1
  = ((Area.update_lib_file NoFault "a.lib" (Area.Dec false 5 0) tiny_lib).1,
     Some true).
Proof.
  apply (update_lib_file_twice _ _ (L "area : 0 ;
")).
  - apply lookup_singleton_eq.
  - apply area_five_numeric.
  - apply area_five_numeric.
  - apply tiny_has_field.
Qed.

Lemma C8_witness :
  Area.update_lib_file NoFault "a.lib" (Area.Dec false 5 0)
    (Area.update_lib_file NoFault "a.lib" (Area.Dec false 5 0) tiny_lib).1
  = ((Area.update_lib_file NoFault "a.lib" (Area.Dec false 5 0) tiny_lib).1,
     Some true).
Proof.
  exact (proj2 (proj2 (proj2 C8_second_run)) "a.lib"%string
           (Area.Dec false 5 0) _ tiny_lib
           (lookup_singleton_eq _ _)
           (proj1 area_five_numeric) (proj2 area_five_numeric)
           tiny_has_field).
Defined.

(** [C8] as stated fails: after a successful area update, the second run
    matches the rewritten field and returns [True], not [False]. *)
Lemma C8_rerun_finds_field_again :
  (Area.update_lib_file NoFault "a.lib" (Area.Dec false 5 0)
     (Area.update_lib_file NoFault "a.lib" (Area.Dec false 5 0) tiny_lib).1).2
  = Some true
  /\ ~ rerun_finds_no_field.
Proof.
  assert ((Area.update_lib_file NoFault "a.lib" (Area.Dec false 5 0)
             (Area.update_lib_file NoFault "a.lib" (Area.Dec false 5 0)
                tiny_lib).1).2 = Some true) as R
    by (by rewrite tiny_rerun).
  split; [exact R|].
  intros H.
  specialize (H "a.lib"%string (Area.Dec false 5 0) _ tiny_lib
                (lookup_singleton_eq _ _)).
  rewrite R in H.
  assert ((Area.update_lib_file NoFault "a.lib" (Area.Dec false 5 0)
             tiny_lib).2 = Some true) as R1.
  { rewrite (update_lib_file_result "a.lib" (Area.Dec false 5 0)
               (L "area : 0 ;
") tiny_lib) by apply lookup_singleton_eq.
    destruct (decide _) as [E|_]; [|reflexivity].
    by apply tiny_has_field in E. }
  specialize (H R1). discriminate.
Qed.

(** * Decimal numerals *)

Section Digits.

Lemma uint_chars_digits d :
  forallb is_digit (L (NilEmpty.string_of_uint d)) = true.
Proof. induction d; simpl; auto. Qed.

Lemma digits_of_Z_digits n : all_digits (digits_of_Z n).
Proof.
  unfold all_digits, digits_of_Z, NilZero.string_of_uint.
  destruct (N.to_uint (Z.to_N n)) eqn:E; try reflexivity;
    rewrite <- E; apply uint_chars_digits.
Qed.

Lemma nat_of_digits_snoc ds a :
  nat_of_digits (ds ++ [a]) = 10 * nat_of_digits ds + digit_val a.
Proof. unfold nat_of_digits. by rewrite fold_left_app. Qed.

Lemma digit_val_bounds a : is_digit a = true -> 0 <= digit_val a <= 9.
Proof.
  unfold is_digit, between, digit_val. intros H.
  apply andb_true_iff in H as [H1 H2].
  apply N.leb_le in H1, H2. lia.
Qed.

Lemma nat_of_digits_bounds ds :
  all_digits ds -> 0 <= nat_of_digits ds < 10 ^ Z.of_nat (length ds).
Proof.
  unfold all_digits.
  induction ds as [|a ds IH] using rev_ind; intros H.
  - simpl. unfold nat_of_digits. simpl. lia.
  - rewrite forallb_app in H. apply andb_true_iff in H as [H1 H2].
    simpl in H2. rewrite andb_true_r in H2.
    rewrite nat_of_digits_snoc, length_app. simpl length.
    replace (Z.of_nat (length ds + 1)) with (Z.of_nat (length ds) + 1) by lia.
    rewrite Z.pow_add_r by lia.
    pose proof (digit_val_bounds _ H2). specialize (IH H1). lia.
Qed.

Lemma fold_digits_acc d : forall acc,
  fold_left (fun acc a => 10 * acc + digit_val a)
    (L (NilEmpty.string_of_uint d)) (Z.pos acc)
  = Z.pos (Pos.of_uint_acc d acc).
Proof.
  induction d; intros acc; simpl; auto;
    (etransitivity; [|apply IHd]); f_equal;
    unfold digit_val; simpl; lia.
Qed.

Lemma fold_digits d :
  nat_of_digits (L (NilEmpty.string_of_uint d)) = Z.of_N (Pos.of_uint d).
Proof.
  unfold nat_of_digits.
  induction d; simpl; auto;
    (etransitivity; [|apply fold_digits_acc]); f_equal.
Qed.

Lemma nat_of_digits_uint d :
  nat_of_digits (L (NilZero.string_of_uint d)) = Z.of_N (N.of_uint d).
Proof.
  unfold NilZero.string_of_uint. destruct d; try apply fold_digits.
  reflexivity.
Qed.

(** [int(str(n)) = n] *)
Lemma nat_of_digits_of_Z n : 0 <= n -> nat_of_digits (digits_of_Z n) = n.
Proof.
  intros Hn. unfold digits_of_Z.
  rewrite nat_of_digits_uint, DecimalN.Unsigned.of_to. lia.
Qed.

End Digits.

Section Canonical.

Lemma digit_cases a :
  is_digit a = true ->
  a = "0"%char \/ a = "1"%char \/ a = "2"%char \/ a = "3"%char
  \/ a = "4"%char \/ a = "5"%char \/ a = "6"%char \/ a = "7"%char
  \/ a = "8"%char \/ a = "9"%char.
Proof.
  destruct a as [[] [] [] [] [] [] [] []]; vm_compute; intros H;
    try discriminate; tauto.
Qed.

(** Every run of digits is the text of a numeral. *)
Lemma digits_uint ds :
  all_digits ds ->
  exists d, L (NilEmpty.string_of_uint d) = ds
            /\ (d = Nil <-> ds = [])
            /\ (forall d', d = D0 d' -> head ds = Some "0"%char).
Proof.
  unfold all_digits. induction ds as [|a ds IH]; intros H.
  - exists Nil. split_and!; [reflexivity|done|intros d' [=]].
  - simpl in H. apply andb_true_iff in H as [Ha Hds].
    destruct (IH Hds) as (d & <- & _ & _).
    apply digit_cases in Ha.
    destruct Ha as [->|[->|[->|[->|[->|[->|[->|[->|[->| ->]]]]]]]]];
      [exists (D0 d)|exists (D1 d)|exists (D2 d)|exists (D3 d)
      |exists (D4 d)|exists (D5 d)|exists (D6 d)|exists (D7 d)
      |exists (D8 d)|exists (D9 d)];
      (split_and!; [reflexivity|split; intros [=]|]);
      intros d' [=]; reflexivity.
Qed.

Lemma to_uint_unorm n : unorm (N.to_uint n) = N.to_uint n.
Proof.
  rewrite <- (DecimalN.Unsigned.of_to n) at 2.
  symmetry. apply DecimalN.Unsigned.to_of.
Qed.

Lemma unorm_canonical d : canonical (L (NilZero.string_of_uint (unorm d))).
Proof.
  unfold unorm. pose proof (DecimalFacts.nzhead_nonzero d) as Hnz.
  destruct (nzhead d) as [|d'|d'|d'|d'|d'|d'|d'|d'|d'|d'] eqn:E;
    try (split; [apply uint_chars_digits|simpl; discriminate]).
  - split; [reflexivity|]. simpl. auto.
  - by destruct (Hnz d').
Qed.

Lemma digits_of_Z_canonical n : canonical (digits_of_Z n).
Proof.
  unfold digits_of_Z. rewrite <- to_uint_unorm. apply unorm_canonical.
Qed.

(** [str(int(ds)) = ds] for a numeral in normal form. *)
Lemma digits_of_Z_of_digits ds :
  canonical ds -> digits_of_Z (nat_of_digits ds) = ds.
Proof.
  intros [Hd Hc].
  destruct (digits_uint ds Hd) as (d & E & Hnil & H0).
  assert (d <> Nil) as Hne.
  { intros ->. simpl in E. subst ds. exact Hc. }
  assert (NilZero.string_of_uint d = NilEmpty.string_of_uint d) as Ez
    by (by destruct d).
  assert (unorm d = d) as Hu.
  { destruct d as [|d'|d'|d'|d'|d'|d'|d'|d'|d'|d']; try reflexivity;
      [done|].
    specialize (H0 d' eq_refl). destruct ds as [|a rest]; [done|].
    injection H0 as ->. specialize (Hc eq_refl). subst rest.
    simpl in E. injection E as E.
    destruct d'; [reflexivity|discriminate..]. }
  unfold digits_of_Z. rewrite <- E, <- Ez, nat_of_digits_uint.
  rewrite N2Z.id, DecimalN.Unsigned.to_of, Hu. reflexivity.
Qed.

Lemma nat_of_digits_app ds es :
  nat_of_digits (ds ++ es)
  = nat_of_digits ds * 10 ^ Z.of_nat (length es) + nat_of_digits es.
Proof.
  induction es as [|a es IH] using rev_ind.
  - rewrite app_nil_r. unfold nat_of_digits at 3. simpl. lia.
  - rewrite app_assoc, !nat_of_digits_snoc, IH, length_app. simpl length.
    replace (Z.of_nat (length es + 1)) with (Z.of_nat (length es) + 1) by lia.
    rewrite Z.pow_add_r by lia. lia.
Qed.

Lemma nat_of_digits_zeros k : nat_of_digits (zeros k) = 0.
Proof.
  unfold zeros. induction (Z.to_nat k) as [|n IH]; [reflexivity|].
  change (replicate (S n) "0"%char) with (["0"%char] ++ replicate n "0"%char).
  rewrite nat_of_digits_app, IH. reflexivity.
Qed.

Lemma zeros_length k : 0 <= k -> Z.of_nat (length (zeros k)) = k.
Proof. intros Hk. unfold zeros. rewrite length_replicate. lia. Qed.

Lemma zeros_digits k : all_digits (zeros k).
Proof.
  unfold all_digits, zeros. induction (Z.to_nat k); simpl; auto.
Qed.

(** A positive number followed by [k] zeros. *)
Lemma digits_of_Z_zeros c k :
  0 < c -> 0 <= k -> digits_of_Z (c * 10 ^ k) = digits_of_Z c ++ zeros k.
Proof.
  intros Hc Hk.
  assert (nat_of_digits (digits_of_Z c ++ zeros k) = c * 10 ^ k) as <-.
  { rewrite nat_of_digits_app, nat_of_digits_zeros, zeros_length by lia.
    rewrite nat_of_digits_of_Z by lia. lia. }
  apply digits_of_Z_of_digits.
  destruct (digits_of_Z_canonical c) as [Hd Hh]. split.
  - unfold all_digits in *. rewrite forallb_app, Hd. apply zeros_digits.
  - destruct (digits_of_Z c) as [|a rest] eqn:E; [done|]. simpl.
    intros ->. specialize (Hh eq_refl). subst rest.
    assert (nat_of_digits (digits_of_Z c) = 0) as H0 by (by rewrite E).
    rewrite nat_of_digits_of_Z in H0 by lia. lia.
Qed.

(** The last digit is the number modulo ten. *)
Lemma digits_of_Z_last c ds a :
  0 <= c -> digits_of_Z c = ds ++ [a] -> digit_val a = c mod 10.
Proof.
  intros Hc E.
  pose proof (digits_of_Z_digits c) as Hd. rewrite E in Hd.
  unfold all_digits in Hd. rewrite forallb_app in Hd.
  apply andb_true_iff in Hd as [Hds Ha]. simpl in Ha.
  rewrite andb_true_r in Ha. apply digit_val_bounds in Ha.
  pose proof (nat_of_digits_of_Z c Hc) as Hv.
  rewrite E, nat_of_digits_snoc in Hv.
  rewrite <- Hv. rewrite Z.add_comm, Z.mul_comm, Z.mod_add by lia.
  symmetry. apply Z.mod_small. lia.
Qed.

End Canonical.

(** * More on the rescale tool *)

Section FixMore.

Import Fix.

Lemma scan_step_no_output st i line :
  contains (L "direction") (strip line) && contains (L "output") (strip line)
  = false ->
  ranges st = [] -> is_output_pin st = false ->
  ranges (scan_step st i line) = []
  /\ is_output_pin (scan_step st i line) = false.
Proof.
  intros Hno Hr Ho. rewrite scan_step_cases. cbv zeta.
  rewrite Hr, Ho.
  destruct ((startswith (L "pin (") (strip line)
             || startswith (L "bus (") (strip line))
            && negb (in_pin_block st));
    destruct (in_pin_block st);
    destruct (contains (L "direction") (strip line));
    destruct (contains (L "output") (strip line)); try discriminate;
    simpl;
    repeat match goal with
           | |- context [if ?b then _ else _] => destruct b; simpl
           end; auto.
Qed.

Lemma scan_loop_no_output lines : forall st i,
  no_output_direction lines ->
  ranges st = [] -> is_output_pin st = false ->
  ranges (scan_loop st i lines) = [].
Proof.
  induction lines as [|line lines IH]; intros st i Hno Hr Ho; simpl; auto.
  destruct (scan_step_no_output st i line) as [Hr' Ho']; auto.
  { apply Hno. apply list_elem_of_here. }
  apply IH; auto. intros l Hl. apply Hno. by apply list_elem_of_further.
Qed.

Lemma find_ranges_no_output lines :
  no_output_direction lines -> find_output_pin_line_ranges lines = [].
Proof.
  intros Hno. unfold find_output_pin_line_ranges.
  by apply scan_loop_no_output.
Qed.

Lemma process_lines_no_ranges lines :
  find_output_pin_line_ranges lines = [] -> process_lines lines = lines.
Proof.
  intros Hr. destruct (process_lines_expected lines) as [Hlen Hout].
  apply list_eq. intros i. destruct (lines !! i) as [line|] eqn:El.
  - rewrite (Hout _ _ El), Hr. reflexivity.
  - apply lookup_ge_None. apply lookup_ge_None in El. lia.
Qed.

End FixMore.

Section NumberText.

Lemma digits_number_text ds : all_digits ds -> number_text ds.
Proof.
  unfold all_digits, number_text. rewrite forallb_forall, Forall_forall.
  intros H a Ha. unfold is_number_chr. rewrite (H a); auto.
  by apply list_elem_of_In.
Qed.

Lemma lstrip_chr_number_text c s :
  number_text s -> number_text (lstrip_chr c s).
Proof.
  induction 1 as [|a s Ha Hs IH]; simpl; [constructor|].
  destruct (chr_eqb a c); auto. by constructor.
Qed.

Lemma rstrip_chr_number_text c s :
  number_text s -> number_text (rstrip_chr c s).
Proof.
  intros H. unfold rstrip_chr. apply Forall_rev, lstrip_chr_number_text.
  by apply Forall_rev.
Qed.

Lemma zeros_number_text n : number_text (zeros n).
Proof. apply Forall_replicate. reflexivity. Qed.

Lemma point_frac_number_text s :
  number_text s -> number_text (point_frac s).
Proof. intros H. destruct s; simpl; auto. by constructor. Qed.

Lemma literal_number_text (s : string) :
  forallb is_number_chr (L s) = true -> number_text (L s).
Proof.
  unfold number_text. rewrite forallb_forall, Forall_forall.
  intros H a Ha. apply H. by apply list_elem_of_In.
Qed.

Lemma format_g_number_text p x : number_text (format_g p x).
Proof.
  unfold format_g. destruct x as [neg m e|neg].
  - apply Forall_app. split; [by destruct neg; repeat constructor|].
    destruct (m =? 0); [by repeat constructor|].
    destruct (sig_digits p _ _) as [dg x10].
    assert (number_text (rstrip_chr "0" (digits_of_Z dg))) as Hds
      by apply rstrip_chr_number_text, digits_number_text, digits_of_Z_digits.
    destruct ((x10 <? -4) || (p <=? x10)); [|destruct (x10 <? 0)].
    + repeat (apply Forall_app; split).
      * by apply Forall_take.
      * by apply point_frac_number_text, Forall_drop.
      * by repeat constructor.
      * by destruct (x10 <? 0); repeat constructor.
      * by destruct (Z.abs x10 <? 10); repeat constructor.
      * apply digits_number_text, digits_of_Z_digits.
    + repeat (apply Forall_app; split); auto.
      * by repeat constructor.
      * apply zeros_number_text.
    + repeat (apply Forall_app; split).
      * by apply Forall_take.
      * apply zeros_number_text.
      * by apply point_frac_number_text, Forall_drop.
  - apply Forall_app. split; [by destruct neg; repeat constructor|].
    by repeat constructor.
Qed.

Lemma chr_ci_e a : chr_ci "e" a = true -> a = "e"%char \/ a = "E"%char.
Proof.
  destruct a as [[] [] [] [] [] [] [] []]; vm_compute; intros H;
    try discriminate; auto.
Qed.

Lemma token_number_text tok : is_token tok -> number_text tok.
Proof.
  intros (sign & ip & frac & expo & -> & Hs & _ & Hd & Hf & He).
  repeat (apply Forall_app; split).
  - destruct Hs as [-> | ->]; by repeat constructor.
  - by apply digits_number_text.
  - destruct Hf as [->|(fd & -> & Hfd)]; [constructor|].
    constructor; [reflexivity|by apply digits_number_text].
  - destruct He as [->|(e & es & ed & -> & He & Hes & _ & Hed)];
      [constructor|].
    constructor.
    + apply chr_ci_e in He as [-> | ->]; reflexivity.
    + apply Forall_app. split; [|by apply digits_number_text].
      destruct Hes as [-> | ->]; by repeat constructor.
Qed.

Lemma scaled_number_text tok : is_token tok -> number_text (scaled tok).
Proof.
  intros Ht. unfold scaled. destruct (of_str tok).
  - apply format_g_number_text.
  - by apply token_number_text.
Qed.

Lemma count_app c s t : count c (s ++ t) = count c s + count c t.
Proof. induction s as [|a s IH]; simpl; lia. Qed.

Lemma count_number_text c s :
  is_number_chr c = false -> number_text s -> count c s = 0.
Proof.
  intros Hc. induction 1 as [|a s Ha _ IH]; simpl; auto.
  rewrite IH. destruct (chr_eqb a c) eqn:E; auto.
  apply Ascii.eqb_eq in E. congruence.
Qed.

Lemma rewritten_count c p s o :
  is_number_chr c = false -> rewritten p s o -> count c o = count c s.
Proof.
  intros Hc. induction 1 as [p|p a s o _ IH|p tok rest o Ht _ _ _ IH].
  - reflexivity.
  - simpl. by rewrite IH.
  - rewrite !count_app, IH.
    rewrite (count_number_text c (scaled tok)), (count_number_text c tok);
      auto using scaled_number_text, token_number_text.
Qed.

End NumberText.

Section Spans.

Import Fix.

Lemma scan_step_span_ok lines done line todo st :
  lines = done ++ line :: todo ->
  scan_span_ok lines done st ->
  scan_span_ok lines (done ++ [line])
    (scan_step st (Z.of_nat (length done)) line).
Proof.
  intros E (Hr & Hb).
  assert (lines !! length done = Some line) as Hline.
  { rewrite E. by rewrite list_lookup_middle. }
  rewrite scan_step_cases. cbv zeta.
  fold (is_block_header line).
  set (opens := is_block_header line && negb (in_pin_block st)).
  set (d := brace_depth st + count "{" line - count "}" line).
  set (info := if opens then _ else block_start_info st).
  set (is_out := if (_ && contains (L "direction") (strip line)) then _
                 else _).
  assert ((if opens then true else in_pin_block st) = true ->
          exists i : nat,
            info !! "start_line"%string = Some (Z.of_nat i + 1)
            /\ (i <= length done)%nat
            /\ (exists header,
                  lines !! i = Some header /\ is_block_header header = true)
            /\ (is_out = true ->
                exists k line0,
                  (i <= k <= length done)%nat /\ lines !! k = Some line0
                  /\ names_output line0 = true)) as Hblock.
  { unfold info, is_out. destruct opens eqn:Eo.
    - intros _. exists (length done).
      split; [by rewrite lookup_insert_eq|]. split; [lia|].
      apply andb_true_iff in Eo as [Eh _].
      split; [by exists line|].
      intros Hout. exists (length done), line. split_and!; auto.
      unfold names_output. cbn [andb] in Hout.
      destruct (contains (L "direction") (strip line)); [|discriminate].
      by destruct (contains (L "output") (strip line)).
    - intros Hin. destruct (Hb Hin) as (i & H1 & H2 & H3 & H4).
      exists i. split_and!; auto; [lia|].
      rewrite Hin. cbn [andb]. intros Hout.
      destruct (names_output line) eqn:En.
      + exists (length done), line. split_and!; auto. lia.
      + unfold names_output in En.
        destruct (contains (L "direction") (strip line));
          [destruct (contains (L "output") (strip line));
             [discriminate|]|];
          destruct (H4 Hout) as (k & l0 & ? & ? & ?);
          exists k, l0; split_and!; auto; lia. }
  destruct ((if opens then true else in_pin_block st)
            && (d <=? info_get info "start_depth")) eqn:Ec.
  - apply andb_true_iff in Ec as [Ein _].
    destruct (Hblock Ein) as (i & H1 & H2 & H3 & H4).
    unfold info_get. rewrite H1. simpl.
    split; cbn [ranges in_pin_block]; [|discriminate].
    destruct is_out; auto.
    intros r Hin. apply elem_of_app in Hin as [Hin|Hin]; auto.
    apply list_elem_of_singleton in Hin as ->.
    exists i, (length done). split_and!; auto.
  - split; cbn [ranges in_pin_block block_start_info is_output_pin]; auto.
    intros Ein. destruct (Hblock Ein) as (i & H1 & H2 & H3 & H4).
    assert (i < length (done ++ [line]))%nat
      by (rewrite length_app; simpl; lia).
    exists i. split_and!; auto.
    intros Hout. destruct (H4 Hout) as (k & l0 & ? & ? & ?).
    exists k, l0. split_and!; auto; try lia.
    rewrite length_app. simpl. lia.
Qed.

Lemma scan_loop_span_ok lines todo : forall done st,
  lines = done ++ todo ->
  scan_span_ok lines done st ->
  scan_span_ok lines lines (scan_loop st (Z.of_nat (length done)) todo).
Proof.
  induction todo as [|line todo IH]; intros done st E Hok.
  - rewrite app_nil_r in E. by subst.
  - simpl. pose proof (scan_step_span_ok _ _ _ _ _ E Hok) as Hok'.
    specialize (IH (done ++ [line])
                  (scan_step st (Z.of_nat (length done)) line)).
    rewrite length_app in IH. simpl in IH.
    replace (Z.of_nat (length done + 1)) with (Z.of_nat (length done) + 1)
      in IH by lia.
    apply IH; auto. by rewrite <- app_assoc.
Qed.

Lemma find_ranges_output_span lines r :
  r ∈ find_output_pin_line_ranges lines -> output_span lines r.
Proof.
  intros Hin.
  assert (scan_span_ok lines [] scan_init) as H0.
  { split; simpl.
    - intros r' Hr'. by apply elem_of_nil in Hr'.
    - discriminate. }
  destruct (scan_loop_span_ok lines lines [] scan_init eq_refl H0)
    as (Hr & _).
  by apply Hr.
Qed.

End Spans.

Section KeepsDepth.

Lemma scale_same_braces line :
  same_braces line (Fix.scale_numbers_in_line line).
Proof.
  split; eapply rewritten_count; try apply scale_rewritten; reflexivity.
Qed.

Lemma process_lines_same_braces lines :
  Forall2 same_braces lines (Fix.process_lines lines).
Proof.
  destruct (process_lines_expected lines) as [Hlen Hout].
  apply Forall2_same_length_lookup_2; [done|].
  intros i a b Ha Hb. rewrite (Hout _ _ Ha) in Hb. injection Hb as <-.
  unfold expected.
  match goal with |- context [if ?c then _ else _] => destruct c end.
  - apply scale_same_braces.
  - by split.
Qed.

Lemma net_braces_same l1 l2 :
  Forall2 same_braces l1 l2 -> net_braces l2 = net_braces l1.
Proof.
  induction 1 as [|a b l1 l2 [H1 H2] _ IH]; [done|].
  unfold net_braces in *. simpl. rewrite IH, H1, H2. reflexivity.
Qed.

End KeepsDepth.

(** * More on the delete-block tool and the command lines *)

Section Frames.

Lemma write_file_frame ft path chunks (fs : store) g :
  g <> path -> (write_file ft path chunks fs).1 !! g = fs !! g.
Proof.
  intros Hg. rewrite write_file_spec.
  destruct (write_budget ft) as [n|]; [destruct (n <? _)%nat|];
    simpl; by rewrite lookup_insert_ne.
Qed.


End Frames.

Section CleanMore.

Import Clean.

Lemma step_no_setup st line :
  has_setup_falling line = false ->
  found_setup_falling st = false ->
  (in_timing_block st = false -> current_timing_block_lines st = []) ->
  found_setup_falling (step st line) = false
  /\ messages (step st line) = messages st
  /\ removed_blocks_count (step st line) = removed_blocks_count st
  /\ f_out (step st line) ++ current_timing_block_lines (step st line)
     = (f_out st ++ current_timing_block_lines st) ++ [line].
Proof.
  intros Hl Hf Hnil. destruct (in_timing_block st) eqn:Eb.
  - pose proof (step_inside st line Eb) as (_ & _ & Hfs & _ & Hstep).
    cbv zeta in Hstep. rewrite Hf, Hl in Hfs, Hstep. simpl in Hfs.
    rewrite andb_false_r in Hstep. split; auto.
    destruct (brace_level st + count "{" line - count "}" line =? 0).
    + destruct Hstep as (_ & -> & -> & -> & ->).
      by rewrite app_nil_r, app_assoc.
    + destruct Hstep as (_ & -> & -> & -> & ->). by rewrite app_assoc.
  - destruct (step_outside_same st line Eb) as (Hc & Hm).
    rewrite (Hnil eq_refl), app_nil_r.
    destruct (step_outside st line Eb) as [A|A].
    + by destruct A as (_ & _ & _ & -> & _ & -> & _ & ->).
    + destruct A as (_ & _ & -> & ->). rewrite (Hnil eq_refl), app_nil_r.
      split_and!; auto.
      unfold step. rewrite Eb.
      by destruct (found (search timing_start_re (strip line))).
Qed.

Lemma run_no_setup ls :
  no_setup_falling ls ->
  let st := run init ls in
  found_setup_falling st = false
  /\ messages st = []
  /\ removed_blocks_count st = 0
  /\ f_out st ++ current_timing_block_lines st = ls.
Proof.
  induction ls as [|line ls IH] using rev_ind; intros Hno; [by vm_compute|].
  cbv zeta in *. rewrite run_snoc.
  destruct IH as (Hf & Hm & Hc & Ho).
  { intros l Hl. apply Hno. apply elem_of_app. by left. }
  destruct (run_invariant ls) as (_ & _ & Hnil & _). cbv zeta in Hnil.
  destruct (step_no_setup (run init ls) line) as (Hf' & Hm' & Hc' & Ho');
    auto.
  { apply Hno. apply elem_of_app. right. apply list_elem_of_here. }
  rewrite Hm', Hc', Ho', Ho. auto.
Qed.

Lemma run_messages ls :
  let st := run init ls in
  removed_blocks_count st = Z.of_nat (length (messages st))
  /\ sorted_ranges 0 (message_spans (messages st))
  /\ Forall (fun m => removed_first m < removed_last m
                      /\ removed_last m <= line_number st) (messages st)
  /\ last_end 0 (message_spans (messages st))
     <= (if in_timing_block st then block_start_line st - 1
         else line_number st)
  /\ (in_timing_block st = true -> block_start_line st <= line_number st).
Proof.
  induction ls as [|line ls IH] using rev_ind.
  { vm_compute. split_and!; auto; discriminate. }
  cbv zeta in *. rewrite run_snoc. set (st := run init ls) in *.
  destruct IH as (Hc & Hs & Hall & Hle & Hb).
  pose proof (step_counters st line) as Hn.
  assert (Forall (fun m => removed_first m < removed_last m
                           /\ removed_last m <= line_number (step st line))
            (messages st)) as Hall'.
  { eapply Forall_impl; eauto. simpl. intros m [? ?]. lia. }
  destruct (in_timing_block st) eqn:Eb.
  - specialize (Hb eq_refl).
    pose proof (step_inside st line Eb) as (_ & _ & _ & Hbs & Hstep).
    cbv zeta in Hstep.
    destruct (brace_level st + count "{" line - count "}" line =? 0).
    + destruct Hstep as (-> & _ & Hstep).
      destruct ((found_clk st || has_clk line)
                && (found_setup_falling st || has_setup_falling line)).
      * destruct Hstep as (_ & -> & pin & ->).
        unfold message_spans. rewrite map_app, length_app. simpl.
        fold (message_spans (messages st)).
        rewrite sorted_ranges_snoc, last_end_snoc.
        split_and!; auto; try lia; try discriminate.
        apply Forall_app. split; auto. constructor; auto. simpl. lia.
      * destruct Hstep as (_ & -> & ->).
        split_and!; auto; try lia; discriminate.
    + destruct Hstep as (-> & _ & _ & -> & ->). rewrite Hbs.
      split_and!; auto; lia.
  - destruct (step_outside_same st line Eb) as (-> & ->).
    destruct (step_outside st line Eb) as [A|A].
    + destruct A as (_ & -> & _ & _ & _ & _ & -> & _).
      split_and!; auto; lia.
    + destruct A as (_ & -> & _). split_and!; auto; try lia; discriminate.
Qed.

Lemma clean_lib_file_frame ft filename (fs : store) g :
  g <> filename -> g <> temp_of filename ->
  (clean_lib_file ft filename fs).1 !! g = fs !! g.
Proof.
  intros H1 H2. unfold clean_lib_file.
  destruct (fs !! filename) as [content|]; [|done].
  pose proof (write_file_frame ft (temp_of filename)
                (f_out (run init (readlines content))) fs g H2) as Hw.
  destruct (write_file ft (temp_of filename) _ fs) as [fs' w].
  simpl in Hw. destruct w; simpl.
  - destruct ft; simpl;
      rewrite ?lookup_insert_ne, ?lookup_delete_ne by done; done.
  - by rewrite lookup_delete_ne.
  - done.
Qed.

Lemma clean_lib_file_temp ft filename (fs : store) content :
  fs !! filename = Some content ->
  (clean_lib_file ft filename fs).2 <> Killed ->
  (clean_lib_file ft filename fs).1 !! temp_of filename = None.
Proof.
  intros Hf. unfold clean_lib_file. rewrite Hf.
  destruct (write_file ft (temp_of filename) _ fs) as [fs' w].
  destruct w; simpl.
  - destruct ft; simpl; intros _;
      rewrite ?lookup_insert_ne by apply not_eq_sym, temp_ne;
      apply lookup_delete_eq.
  - intros _. apply lookup_delete_eq.
  - congruence.
Qed.

End CleanMore.

Section MainMore.

Import Main.

Lemma process_lib_file_frame ft input_path output_path (fs : store) g :
  g <> output_path ->
  (Fix.process_lib_file ft input_path output_path fs).1 !! g = fs !! g.
Proof.
  intros Hg. unfold Fix.process_lib_file.
  destruct (fs !! input_path) as [content|]; [|done].
  pose proof (write_file_frame ft output_path
                (Fix.process_lines (readlines content)) fs g Hg) as Hw.
  destruct (write_file ft output_path _ fs) as [fs' w].
  by destruct w.
Qed.

Lemma cleaned_twice content : cleaned (cleaned content) = cleaned content.
Proof.
  unfold cleaned.
  assert (readlines (concat (Clean.clean_lines (readlines content)))
          = Clean.clean_lines (readlines content)) as ->.
  { apply readlines_concat.
    - eapply lines_ok_sublist; [apply clean_lines_sublist|apply readlines_ok].
    - eapply no_cr_sublist; [apply clean_lines_sublist|apply readlines_no_cr]. }
  by destruct (clean_lines_twice (readlines content)) as (_ & -> & _).
Qed.

Lemma clean_each_frame ft filenames : forall k (fs : store) g,
  g ∉ filenames ->
  (forall h, h ∈ filenames -> g <> Clean.temp_of h) ->
  (clean_each ft k filenames fs).1 !! g = fs !! g.
Proof.
  induction filenames as [|f rest IH]; intros k fs g Hg Ht; [done|].
  simpl.
  assert (g <> f) as Hgf by (intros ->; apply Hg, list_elem_of_here).
  assert (g <> Clean.temp_of f) as Hgt by (apply Ht, list_elem_of_here).
  pose proof (clean_lib_file_frame (ft k) f fs g Hgf Hgt) as Hfr.
  destruct (Clean.clean_lib_file (ft k) f fs) as [fs' o]. simpl in Hfr.
  assert ((clean_each ft (S k) rest fs').1 !! g = fs !! g) as Hrest.
  { rewrite IH; auto.
    - intros Hin. apply Hg. by apply list_elem_of_further.
    - intros h Hh. apply Ht. by apply list_elem_of_further. }
  destruct (clean_each ft (S k) rest fs') as [fs'' os].
  by destruct o.
Qed.

Lemma clean_each_content ft filenames : forall k (fs : store) f content,
  (forall k, ft k = NoFault) ->
  (forall h, h ∈ filenames -> f <> Clean.temp_of h) ->
  fs !! f = Some content ->
  (clean_each ft k filenames fs).1 !! f
  = Some (if decide (f ∈ filenames) then cleaned content else content).
Proof.
  induction filenames as [|f0 rest IH]; intros k fs f content Hft Ht Hf.
  { cbn [clean_each fst]. rewrite Hf. case_decide as Hin; auto.
    by apply elem_of_nil in Hin. }
  cbn [clean_each]. rewrite Hft.
  assert (forall h, h ∈ rest -> f <> Clean.temp_of h) as Ht'
    by (intros h Hh; apply Ht; by apply list_elem_of_further).
  destruct (fs !! f0) as [c0|] eqn:E0.
  - rewrite (clean_lib_file_ok _ _ _ E0).
    destruct (decide (f = f0)) as [->|Hne].
    + assert (c0 = content) as -> by congruence.
      specialize (IH (S k)
                    (<[f0 := cleaned content]> (delete (Clean.temp_of f0) fs))
                    f0 (cleaned content) Hft Ht' (lookup_insert_eq _ _ _)).
      unfold cleaned in IH at 1.
      destruct (clean_each ft (S k) rest _) as [fs'' os]. cbn [fst] in *.
      rewrite IH, cleaned_twice.
      destruct (decide (f0 ∈ f0 :: rest)) as [_|Hn];
        [by destruct (decide (f0 ∈ rest))|].
      exfalso. apply Hn, list_elem_of_here.
    + assert (<[f0 := concat (Clean.clean_lines (readlines c0))]>
                (delete (Clean.temp_of f0) fs) !! f = Some content) as Hf'.
      { rewrite lookup_insert_ne by done.
        rewrite lookup_delete_ne; auto.
        apply not_eq_sym, Ht, list_elem_of_here. }
      specialize (IH (S k) _ f content Hft Ht' Hf').
      destruct (clean_each ft (S k) rest _) as [fs'' os]. cbn [fst] in *.
      rewrite IH.
      destruct (decide (f ∈ rest)) as [Hin|Hin];
        destruct (decide (f ∈ f0 :: rest)) as [Hin'|Hin']; auto.
      * exfalso. apply Hin'. by apply list_elem_of_further.
      * exfalso. apply elem_of_cons in Hin' as [?|?]; congruence.
  - unfold Clean.clean_lib_file. rewrite E0.
    specialize (IH (S k) fs f content Hft Ht' Hf).
    destruct (clean_each ft (S k) rest fs) as [fs'' os]. cbn [fst] in *.
    rewrite IH.
    assert (f <> f0) as Hne by congruence.
    destruct (decide (f ∈ rest)) as [Hin|Hin];
      destruct (decide (f ∈ f0 :: rest)) as [Hin'|Hin']; auto.
    + exfalso. apply Hin'. by apply list_elem_of_further.
    + exfalso. apply elem_of_cons in Hin' as [?|?]; congruence.
Qed.

End MainMore.

(** * More on the area update *)

Section AreaText.

Import Area.

Lemma rstrip_chr_snoc_same c s : rstrip_chr c (s ++ [c]) = rstrip_chr c s.
Proof.
  unfold rstrip_chr. rewrite rev_unit. simpl.
  unfold chr_eqb. by rewrite Ascii.eqb_refl.
Qed.

Lemma rstrip_chr_replicate c s n :
  rstrip_chr c (s ++ replicate n c) = rstrip_chr c s.
Proof.
  revert s. induction n as [|n IH]; intros s; simpl.
  - by rewrite app_nil_r.
  - replace (s ++ c :: replicate n c) with ((s ++ [c]) ++ replicate n c)
      by (by rewrite <- app_assoc).
    by rewrite IH, rstrip_chr_snoc_same.
Qed.

Lemma rstrip_chr_snoc_other c s a :
  chr_eqb a c = false -> rstrip_chr c (s ++ [a]) = s ++ [a].
Proof.
  intros H. unfold rstrip_chr. rewrite rev_unit. simpl. rewrite H.
  simpl. by rewrite rev_involutive.
Qed.

Lemma rstrip_chr_nil c : rstrip_chr c [] = [].
Proof. reflexivity. Qed.

(** The text of a non-negative integer area written with exponent [k]. *)
Lemma format_f_integer c k :
  0 < c -> 0 <= k ->
  format_f (Dec false c k) = digits_of_Z c ++ zeros k.
Proof.
  intros Hc Hk. unfold format_f. cbn [dec_coeff dec_exp dec_neg].
  replace (c =? 0) with false by (symmetry; apply Z.eqb_neq; lia).
  cbn [andb].
  destruct (digits_of_Z_canonical c) as [_ Hne].
  set (int := digits_of_Z c) in *.
  replace (k + Z.of_nat (length int) <? 0) with false
    by (symmetry; apply Z.ltb_ge; lia).
  destruct (Z.of_nat (length int) <? k + Z.of_nat (length int)) eqn:E.
  - replace (k + Z.of_nat (length int) - Z.of_nat (length int)) with k by lia.
    simpl. by rewrite app_nil_r.
  - apply Z.ltb_ge in E. assert (k = 0) as -> by lia.
    rewrite Z.add_0_l, Nat2Z.id, firstn_all, skipn_all.
    destruct int; [done|]. simpl. unfold zeros. simpl.
    by rewrite !app_nil_r.
Qed.

Lemma formatted_integer c j k :
  0 < c -> c mod 10 <> 0 -> 0 <= j -> 0 <= k ->
  formatted_area (Dec false (c * 10 ^ j) k) = digits_of_Z c.
Proof.
  intros Hc Hm Hj Hk. unfold formatted_area.
  rewrite format_f_integer by (try apply Z.mul_pos_pos; lia).
  rewrite digits_of_Z_zeros by lia.
  unfold zeros. rewrite <- app_assoc, <- replicate_add.
  rewrite rstrip_chr_replicate.
  destruct (digits_of_Z_canonical c) as [Hd Hne].
  destruct (digits_of_Z c) as [|a0 rest0] eqn:E; [done|].
  destruct (exists_last (l := a0 :: rest0)) as (ds & a & Ea); [done|].
  rewrite Ea in *. rewrite <- E in Ea.
  pose proof (digits_of_Z_last c ds a ltac:(lia) E) as Hv.
  unfold all_digits in Hd. rewrite forallb_app in Hd.
  apply andb_true_iff in Hd as [_ Ha]. simpl in Ha.
  rewrite andb_true_r in Ha.
  assert (chr_eqb a "0" = false) as H0.
  { destruct (chr_eqb a "0") eqn:E0; auto.
    apply Ascii.eqb_eq in E0. subst a.
    change (digit_val "0") with 0 in Hv. lia. }
  assert (chr_eqb a "." = false) as Hp.
  { destruct (chr_eqb a ".") eqn:E0; auto.
    apply Ascii.eqb_eq in E0. subst a. discriminate Ha. }
  by rewrite !rstrip_chr_snoc_other.
Qed.

End AreaText.

(** * The example files of the further properties *)

Section MoreExamples.

Lemma ranges_leaking :
  Fix.find_output_pin_line_ranges leaking_lines = [(1, 4); (6, 9)].
Proof. vm_compute. reflexivity. Qed.

Lemma input_block_no_output : no_output_direction input_block_lines.
Proof.
  intros line Hin. unfold input_block_lines in Hin.
  repeat (apply elem_of_cons in Hin as [->|Hin]; [vm_compute; reflexivity|]).
  by apply elem_of_nil in Hin.
Qed.

Lemma hold_block_no_setup : no_setup_falling hold_block_lines.
Proof.
  intros line Hin. unfold hold_block_lines in Hin.
  repeat (apply elem_of_cons in Hin as [->|Hin]; [vm_compute; reflexivity|]).
  by apply elem_of_nil in Hin.
Qed.

Lemma hold_block_ends_outside : ends_outside_block hold_block_lines.
Proof. vm_compute. reflexivity. Qed.

Lemma crlf_input_lines :
  readlines (crlf input_block_lines)
  = map (fun l => l ++ [newline]) input_block_lines.
Proof. vm_compute. reflexivity. Qed.

Lemma crlf_input_no_output :
  no_output_direction (readlines (crlf input_block_lines)).
Proof.
  rewrite crlf_input_lines. intros line Hin.
  unfold input_block_lines in Hin. cbn [map] in Hin.
  repeat (apply elem_of_cons in Hin as [->|Hin]; [vm_compute; reflexivity|]).
  by apply elem_of_nil in Hin.
Qed.

Lemma crlf_hold_lines :
  readlines (crlf hold_block_lines)
  = map (fun l => l ++ [newline]) hold_block_lines.
Proof. vm_compute. reflexivity. Qed.

Lemma crlf_hold_no_setup :
  no_setup_falling (readlines (crlf hold_block_lines)).
Proof.
  rewrite crlf_hold_lines. intros line Hin.
  unfold hold_block_lines in Hin. cbn [map] in Hin.
  repeat (apply elem_of_cons in Hin as [->|Hin]; [vm_compute; reflexivity|]).
  by apply elem_of_nil in Hin.
Qed.

Lemma crlf_hold_ends_outside :
  ends_outside_block (readlines (crlf hold_block_lines)).
Proof. vm_compute. reflexivity. Qed.

End MoreExamples.

(** * The macro name and the LEF file *)

Section Search.

Lemma search_from_sound r s : forall p rest cs,
  search_from r p s = Some (rest, cs) ->
  exists pre u,
    s = pre ++ u ++ rest /\ matches r (last_chr p pre) u rest [] cs.
Proof.
  induction s as [|a s IH]; intros p rest cs; simpl.
  - destruct (match_here r p []) as [[rest' cs']|] eqn:E; [|discriminate].
    intros [= -> ->]. apply match_here_sound in E as (u & E & M).
    exists [], u. auto.
  - destruct (match_here r p (a :: s)) as [[rest' cs']|] eqn:E.
    + intros [= -> ->]. apply match_here_sound in E as (u & E & M).
      exists [], u. auto.
    + intros H. apply IH in H as (pre & u & -> & M).
      exists (a :: pre), u. auto.
Qed.

(** Positions at which no match starts are passed over. *)
Lemma search_from_skip r pre : forall p s,
  (forall p' a s', a ∈ pre -> match_here r p' (a :: s') = None) ->
  search_from r p (pre ++ s) = search_from r (last_chr p pre) s.
Proof.
  induction pre as [|a pre IH]; intros p s Hno; [done|].
  simpl. rewrite Hno by apply list_elem_of_here.
  apply IH. intros p' b s' Hb. apply Hno. by apply list_elem_of_further.
Qed.

Lemma search_from_here r p s m :
  match_here r p s = Some m -> search_from r p s = Some m.
Proof. intros H. destruct s; simpl; by rewrite H. Qed.

(** A greedy repetition takes the whole run when what follows is not in
    the class and the rest of the pattern matches there. *)
Lemma star_greedy {A} c u rest cs (k : cont (A:=A)) x : forall p,
  forallb c u = true ->
  opt_holds c (head rest) = false ->
  k (last_chr p u) rest cs = Some x ->
  star c p (u ++ rest) cs k = Some x.
Proof.
  induction u as [|a u IH]; intros p Hu Hr Hk; simpl in *.
  - destruct rest as [|b rest]; simpl in *; auto. by rewrite Hr.
  - apply andb_true_iff in Hu as [-> Hu]. by rewrite (IH (Some a)).
Qed.

Lemma group_plus_greedy {A} n c d rest cs (k : cont (A:=A)) x p :
  d <> [] -> forallb c d = true ->
  opt_holds c (head rest) = false ->
  k (last_chr p d) rest ((n, d) :: cs) = Some x ->
  rmatch (Group n (Plus c)) p (d ++ rest) cs k = Some x.
Proof.
  intros Hne Hd Hr Hk. destruct d as [|a d]; [done|].
  simpl in Hd. apply andb_true_iff in Hd as [Ha Hd].
  cbn [rmatch Plus app]. rewrite Ha.
  apply star_greedy; auto.
  cbn [length]. rewrite length_app.
  replace (S (length d + length rest) - length rest)%nat
    with (S (length d)) by lia.
  cbn [take]. by rewrite take_app_length.
Qed.

Lemma rmatch_seq {A} r1 r2 p s cs (k : cont (A:=A)) :
  rmatch (Seq r1 r2) p s cs k
  = rmatch r1 p s cs (fun p' s' cs' => rmatch r2 p' s' cs' k).
Proof. reflexivity. Qed.

Lemma rmatch_chr {A} a p s cs (k : cont (A:=A)) :
  rmatch (Chr a) p (a :: s) cs k = k (Some a) s cs.
Proof.
  unfold Chr. cbn [rmatch]. unfold chr_eqb. by rewrite Ascii.eqb_refl.
Qed.

End Search.

Section Bits.

Import Lef.

Lemma dim_shape p u rest cs cs' :
  matches (Seq (Cls is_digit) (Star is_digit)) p u rest cs cs' ->
  is_dim u /\ cs' = cs.
Proof.
  intros M. apply digits1_shape in M as (? & ? & ?). by repeat split.
Qed.

Lemma bits_shape p u rest cs :
  matches BITS_RE p u rest [] cs ->
  exists d1 d2 d3,
    u = bits_text d1 d2 d3 /\ is_dim d1 /\ is_dim d2 /\ is_dim d3
    /\ cs = [(3%nat, d3); (2%nat, d2); (1%nat, d1)].
Proof.
  intros M. cbv [BITS_RE Seqs Plus Chr] in M.
  inversion M as [| |? ? ? u0 u1 ? ? ? ? M0 M1| | | | | | |]; subst; clear M.
  inversion M0; subst; clear M0.
  inversion M1 as [| |? ? ? u2 u3 ? ? ? ? M2 M3| | | | | | |]; subst; clear M1.
  inversion M2 as [| | | | | | | | |? ? ? ? ? ? ? G1]; subst; clear M2.
  inversion M3 as [| |? ? ? u4 u5 ? ? ? ? M4 M5| | | | | | |]; subst; clear M3.
  inversion M4; subst; clear M4.
  inversion M5 as [| |? ? ? u6 u7 ? ? ? ? M6 M7| | | | | | |]; subst; clear M5.
  inversion M6 as [| | | | | | | | |? ? ? ? ? ? ? G2]; subst; clear M6.
  inversion M7 as [| |? ? ? u8 u9 ? ? ? ? M8 M9| | | | | | |]; subst; clear M7.
  inversion M8; subst; clear M8.
  inversion M9 as [| |? ? ? u10 u11 ? ? ? ? M10 M11| | | | | | |]; subst;
    clear M9.
  inversion M10 as [| | | | | | | | |? ? ? ? ? ? ? G3]; subst; clear M10.
  inversion M11; subst; clear M11.
  apply dim_shape in G1 as [Hd1 ->].
  apply dim_shape in G2 as [Hd2 ->].
  apply dim_shape in G3 as [Hd3 ->].
  repeat match goal with H : chr_eqb _ _ = true |- _ =>
    apply chr_eqb_true in H; subst end.
  exists u2, u6, u10. split_and!; auto.
  unfold bits_text. simpl. by rewrite !app_nil_r.
Qed.

Lemma bits_of_nonneg d1 d2 d3 :
  is_dim d1 -> is_dim d2 -> is_dim d3 -> 0 <= bits_of d1 d2 d3.
Proof.
  intros [_ H1] [_ H2] [_ H3].
  apply nat_of_digits_bounds in H1, H2, H3. unfold bits_of. nia.
Qed.

Lemma int_of_str_fits d : fits_int d -> int_of_str d = Some (nat_of_digits d).
Proof.
  unfold fits_int, int_of_str. intros H.
  by replace (int_max_str_digits <? Z.of_nat (length d)) with false
    by (symmetry; apply Z.ltb_ge; lia).
Qed.

Lemma int_of_str_some d n :
  int_of_str d = Some n -> fits_int d /\ n = nat_of_digits d.
Proof.
  unfold fits_int, int_of_str.
  destruct (int_max_str_digits <? Z.of_nat (length d)) eqn:E;
    [discriminate|].
  apply Z.ltb_ge in E. intros [= <-]. auto.
Qed.

(** What [get_bits_from_name] returns, given the groups of the match. *)
Lemma get_bits_of_search name rest d1 d2 d3 :
  search BITS_RE name = Some (rest, [(3%nat, d3); (2%nat, d2); (1%nat, d1)]) ->
  fits_int d1 -> fits_int d2 -> fits_int d3 ->
  get_bits_from_name name
  = if (bits_of d1 d2 d3 =? 0) then None else Some (bits_of d1 d2 d3).
Proof.
  intros H F1 F2 F3. unfold get_bits_from_name. rewrite H.
  cbn [group Nat.eqb]. by rewrite !int_of_str_fits.
Qed.

Lemma bits_no_match p a s :
  a <> "_"%char -> match_here BITS_RE p (a :: s) = None.
Proof.
  intros Ha. unfold match_here. cbn [BITS_RE Seqs Chr rmatch].
  destruct (chr_eqb "_" a) eqn:E; auto.
  apply chr_eqb_true in E. congruence.
Qed.

Lemma bits_match p d1 d2 d3 post :
  is_dim d1 -> is_dim d2 -> is_dim d3 ->
  opt_holds is_digit (head post) = false ->
  match_here BITS_RE p (bits_text d1 d2 d3 ++ post)
  = Some (post, [(3%nat, d3); (2%nat, d2); (1%nat, d1)]).
Proof.
  intros [N1 D1] [N2 D2] [N3 D3] Hpost. unfold match_here, bits_text.
  cbv [BITS_RE Seqs].
  replace (("_"%char :: d1 ++ "x"%char :: d2 ++ "x"%char :: d3) ++ post)
    with ("_"%char :: d1 ++ "x"%char :: d2 ++ "x"%char :: d3 ++ post)
    by (simpl; rewrite <- !app_assoc; simpl; by rewrite <- !app_assoc).
  rewrite rmatch_seq, rmatch_chr, rmatch_seq.
  apply group_plus_greedy; auto. cbv beta.
  rewrite rmatch_seq, rmatch_chr, rmatch_seq.
  apply group_plus_greedy; auto. cbv beta.
  rewrite rmatch_seq, rmatch_chr, rmatch_seq.
  apply group_plus_greedy; auto.
Qed.

End Bits.

Section DecimalFacts.

Import Area Lef.

Lemma span_spec c s : forall l r,
  span c s = (l, r) -> forallb c l = true /\ s = l ++ r.
Proof.
  induction s as [|a s IH]; intros l r; simpl.
  - intros [= <- <-]. auto.
  - destruct (c a) eqn:Ea.
    + destruct (span c s) as [l' r'] eqn:E. intros [= <- <-].
      destruct (IH _ _ eq_refl) as [Hl ->]. simpl. by rewrite Ea, Hl.
    + intros [= <- <-]. auto.
Qed.

Lemma Decimal_of_str_nonneg s d :
  Decimal_of_str s = Some d ->
  dec_neg d = false /\ 0 <= dec_coeff d /\ dec_exp d <= 0.
Proof.
  unfold Decimal_of_str.
  destruct (span is_digit s) as [intpart r] eqn:Ei.
  apply span_spec in Ei as [Hi _].
  assert (exists fracpart r',
            (match r with
             | "."%char :: r' => span is_digit r'
             | _ => ([], r)
             end) = (fracpart, r') /\ forallb is_digit fracpart = true)
    as (fracpart & r' & -> & Hf).
  { destruct r as [|a r0]; [by exists [], []|].
    destruct (Ascii.eqb a ".") eqn:Ea.
    - apply Ascii.eqb_eq in Ea as ->.
      destruct (span is_digit r0) as [fp r'] eqn:Ef.
      apply span_spec in Ef as [Hf _]. by exists fp, r'.
    - exists [], (a :: r0). split; auto.
      destruct a as [[] [] [] [] [] [] [] []]; try reflexivity.
      discriminate Ea. }
  destruct r'; [|discriminate].
  destruct (intpart ++ fracpart) eqn:E; [discriminate|]. rewrite <- E.
  intros [= <-]. simpl. split_and!; auto; [|lia].
  apply nat_of_digits_bounds. unfold all_digits.
  by rewrite forallb_app, Hi, Hf.
Qed.

Lemma ndigits_upper c : 0 <= c -> c < 10 ^ ndigits c.
Proof.
  intros Hc. unfold ndigits.
  pose proof (nat_of_digits_bounds _ (digits_of_Z_digits c)) as H.
  rewrite nat_of_digits_of_Z in H by lia. lia.
Qed.

Lemma nat_of_digits_one a : nat_of_digits [a] = digit_val a.
Proof. unfold nat_of_digits. simpl. lia. Qed.

Lemma digit_val_zero a : is_digit a = true -> digit_val a = 0 -> a = "0"%char.
Proof.
  intros Ha. apply digit_cases in Ha.
  destruct Ha as [->|[->|[->|[->|[->|[->|[->|[->|[->| ->]]]]]]]]];
    vm_compute; auto; discriminate.
Qed.

Lemma ndigits_lower c : 0 < c -> 10 ^ (ndigits c - 1) <= c.
Proof.
  intros Hc. unfold ndigits.
  destruct (digits_of_Z_canonical c) as [Hd Hh].
  pose proof (nat_of_digits_of_Z c ltac:(lia)) as Hv.
  destruct (digits_of_Z c) as [|a rest]; [done|].
  unfold all_digits in Hd. simpl in Hd.
  apply andb_true_iff in Hd as [Ha Hrest].
  change (a :: rest) with ([a] ++ rest) in Hv.
  rewrite nat_of_digits_app, nat_of_digits_one in Hv.
  pose proof (nat_of_digits_bounds rest Hrest) as Hb.
  pose proof (digit_val_bounds a Ha) as Hab.
  assert (digit_val a <> 0) as Hnz.
  { intros H0. apply digit_val_zero in H0; auto.
    specialize (Hh H0). subst rest.
    rewrite H0 in Hv. vm_compute in Hv. lia. }
  simpl length.
  replace (Z.of_nat (S (length rest)) - 1) with (Z.of_nat (length rest))
    by lia.
  assert (0 < 10 ^ Z.of_nat (length rest)) by (apply Z.pow_pos_nonneg; lia).
  nia.
Qed.

Lemma div_half_even_bounds n d :
  0 <= n -> 0 < d ->
  n / d <= div_half_even n d <= n / d + 1.
Proof.
  intros Hn Hd. unfold div_half_even.
  repeat match goal with |- context [if ?b then _ else _] => destruct b end;
    lia.
Qed.

Lemma div_half_even_below n d m :
  0 <= n -> 0 < d -> n < d * m ->
  0 <= div_half_even n d <= m.
Proof.
  intros Hn Hd Hm. pose proof (div_half_even_bounds n d Hn Hd) as Hb.
  assert (n / d < m) by (apply Z.div_lt_upper_bound; lia).
  assert (0 <= n / d) by (apply Z.div_pos; lia). lia.
Qed.

Lemma Decimal_fix_bounds d d' :
  0 <= dec_coeff d ->
  Decimal_fix d = Some d' ->
  dec_neg d' = dec_neg d /\ 0 <= dec_coeff d' < 10 ^ prec.
Proof.
  intros Hc. unfold Decimal_fix.
  destruct (dec_coeff d =? 0) eqn:E0.
  { intros [= <-]. simpl. unfold prec. split; [done|lia]. }
  apply Z.eqb_neq in E0.
  pose proof (ndigits_upper _ Hc) as Hup.
  set (n := ndigits (dec_coeff d)) in *.
  destruct (Etop <? n + dec_exp d - prec); [discriminate|].
  set (exp_min := Z.max (n + dec_exp d - prec) Etiny).
  destruct (dec_exp d <? exp_min) eqn:El.
  - apply Z.ltb_lt in El.
    assert (0 <= div_half_even (dec_coeff d) (10 ^ (exp_min - dec_exp d))
            <= 10 ^ prec) as Hq.
    { apply div_half_even_below; auto.
      - apply Z.pow_pos_nonneg; lia.
      - rewrite <- Z.pow_add_r by (unfold prec; lia).
        eapply Z.lt_le_trans; [exact Hup|].
        apply Z.pow_le_mono_r; lia. }
    destruct (div_half_even _ _ =? 10 ^ prec) eqn:Eq.
    + destruct (Etop <? exp_min + 1); [discriminate|].
      intros [= <-]. simpl. unfold prec. split; [done|lia].
    + apply Z.eqb_neq in Eq.
      destruct (Etop <? exp_min); [discriminate|].
      intros [= <-]. simpl. split; [done|lia].
  - apply Z.ltb_ge in El. intros [= <-]. split; [done|].
    split; [lia|]. eapply Z.lt_le_trans; [exact Hup|].
    apply Z.pow_le_mono_r; lia.
Qed.

Lemma Decimal_mul_exact a b :
  0 < dec_coeff a * dec_coeff b < 10 ^ prec ->
  Etiny <= dec_exp a + dec_exp b <= Etop ->
  Decimal_mul a b
  = Some (Dec (xorb (dec_neg a) (dec_neg b)) (dec_coeff a * dec_coeff b)
            (dec_exp a + dec_exp b)).
Proof.
  intros Hc He. unfold Decimal_mul, Decimal_fix. cbn [dec_coeff dec_exp].
  set (c := dec_coeff a * dec_coeff b) in *.
  set (e := dec_exp a + dec_exp b) in *.
  replace (c =? 0) with false by (symmetry; apply Z.eqb_neq; lia).
  assert (ndigits c <= prec) as Hn.
  { pose proof (ndigits_lower c ltac:(lia)) as Hl.
    destruct (Z.le_gt_cases (ndigits c) prec) as [?|Hgt]; auto.
    assert (10 ^ prec <= 10 ^ (ndigits c - 1))
      by (apply Z.pow_le_mono_r; lia). lia. }
  replace (Etop <? ndigits c + e - prec) with false
    by (symmetry; apply Z.ltb_ge; lia).
  replace (e <? Z.max (ndigits c + e - prec) Etiny) with false
    by (symmetry; apply Z.ltb_ge; lia).
  reflexivity.
Qed.

(** The written form of a non-negative number has digits and points
    only. *)
Lemma Forall_num_digits ds :
  all_digits ds -> Forall (fun a => is_num_chr a = true) ds.
Proof.
  unfold all_digits. rewrite forallb_forall, Forall_forall.
  intros H a Ha. unfold is_num_chr. rewrite (H a); auto.
  by apply list_elem_of_In.
Qed.

Lemma Forall_num_lstrip c s :
  Forall (fun a => is_num_chr a = true) s ->
  Forall (fun a => is_num_chr a = true) (lstrip_chr c s).
Proof.
  induction 1 as [|a s Ha Hs IH]; simpl; [constructor|].
  destruct (chr_eqb a c); auto.
Qed.

Lemma Forall_num_rstrip c s :
  Forall (fun a => is_num_chr a = true) s ->
  Forall (fun a => is_num_chr a = true) (rstrip_chr c s).
Proof.
  intros H. unfold rstrip_chr. apply Forall_rev, Forall_num_lstrip.
  by apply Forall_rev.
Qed.

Lemma formatted_area_num d :
  dec_neg d = false -> all_num (formatted_area d).
Proof.
  intros Hneg. unfold all_num. apply forallb_forall.
  intros a Ha. apply list_elem_of_In in Ha. revert a Ha.
  apply Forall_forall. unfold formatted_area.
  do 2 apply Forall_num_rstrip. unfold format_f. rewrite Hneg.
  pose proof (Forall_num_digits _ (digits_of_Z_digits (dec_coeff d))) as Hd.
  assert (forall k, Forall (fun a => is_num_chr a = true) (zeros k)) as Hz
    by (intros k; apply Forall_replicate; reflexivity).
  assert (forall s, Forall (fun a => is_num_chr a = true) s ->
                    Forall (fun a => is_num_chr a = true) (point_frac s))
    as Hp by (intros [|x s] Hs; simpl; auto).
  match goal with
  | |- Forall _ (let '(i, f) := ?pr in _) =>
      assert (Forall (fun a => is_num_chr a = true) pr.1
              /\ Forall (fun a => is_num_chr a = true) pr.2) as [H1 H2];
        [|destruct pr as [i f]; simpl in *; apply Forall_app; auto]
  end.
  repeat match goal with
         | |- context [if ?b then _ else _] =>
             lazymatch type of b with bool => destruct b end
         end; cbn [fst snd]; split;
    first [ assumption
          | apply Hz
          | by apply Forall_drop
          | by apply Forall_app
          | by repeat constructor
          | idtac ].
  all: destruct (take _ _) eqn:E; [by repeat constructor|];
    rewrite <- E; by apply Forall_take.
Qed.

Lemma get_area_from_lef_inv path (fs : store) area :
  get_area_from_lef path fs = Some area ->
  exists width height,
    dec_neg width = false /\ 0 <= dec_coeff width
    /\ dec_neg height = false /\ 0 <= dec_coeff height
    /\ Decimal_mul width height = Some area.
Proof.
  unfold get_area_from_lef.
  destruct (fs !! path) as [content|]; [|discriminate]. cbv zeta.
  destruct (search LEF_SIZE_RE (read content)) as [[rest cs]|];
    [|discriminate].
  destruct (Decimal_of_str (group 1 cs)) as [width|] eqn:Ew; [|discriminate].
  destruct (Decimal_of_str (group 2 cs)) as [height|] eqn:Eh; [|discriminate].
  intros H. apply Decimal_of_str_nonneg in Ew as (? & ? & _).
  apply Decimal_of_str_nonneg in Eh as (? & ? & _).
  exists width, height. auto.
Qed.

End DecimalFacts.

Section UpdateFacts.

Import Area Lef.

Lemma update_lib_file_frame ft path area (fs : store) g :
  g <> path -> (update_lib_file ft path area fs).1 !! g = fs !! g.
Proof.
  intros Hg. unfold update_lib_file.
  destruct (fs !! path) as [content|]; [|done]. cbv zeta.
  destruct (subn_area area (read content)) as [new [|count]]; [done|].
  pose proof (write_file_frame ft path [new] fs g Hg) as Hw.
  destruct (write_file ft path [new] fs) as [fs' w]. by destruct w.
Qed.

Lemma update_lib_file_false path area (fs : store) :
  (update_lib_file NoFault path area fs).2 = Some false ->
  (update_lib_file NoFault path area fs).1 = fs.
Proof.
  unfold update_lib_file.
  destruct (fs !! path) as [content|]; [|done]. cbv zeta.
  destruct (subn_area area (read content)) as [new [|count]]; [done|].
  rewrite write_file_spec. simpl. discriminate.
Qed.

Lemma update_lib_file_true path area (fs : store) :
  (update_lib_file NoFault path area fs).2 = Some true ->
  exists content,
    fs !! path = Some content /\ (subn_area area (read content)).2 <> 0%nat.
Proof.
  unfold update_lib_file.
  destruct (fs !! path) as [content|]; [|discriminate]. cbv zeta.
  destruct (subn_area area (read content)) as [new [|count]] eqn:E; [discriminate|].
  intros _. exists content. rewrite E. auto.
Qed.

Lemma get_area_from_lef_ext path (fs fs' : store) :
  fs' !! path = fs !! path ->
  get_area_from_lef path fs' = get_area_from_lef path fs.
Proof. intros H. unfold get_area_from_lef. by rewrite H. Qed.

(** Stripping a character from the right keeps every other character. *)
Lemma lstrip_chr_keeps c a s :
  a ∈ s -> chr_eqb a c = false -> a ∈ lstrip_chr c s.
Proof.
  intros Hin Ha. induction s as [|b s IH]; [done|]. simpl.
  destruct (chr_eqb b c) eqn:Eb; [|done].
  apply elem_of_cons in Hin as [->|Hin]; [congruence|auto].
Qed.

Lemma rstrip_chr_keeps c a s :
  a ∈ s -> chr_eqb a c = false -> a ∈ rstrip_chr c s.
Proof.
  intros Hin Ha. unfold rstrip_chr.
  apply elem_of_rev, lstrip_chr_keeps; auto. by apply elem_of_rev.
Qed.

Lemma format_f_keeps d a :
  a ∈ digits_of_Z (dec_coeff d) -> a ∈ format_f d.
Proof.
  intros Ha. unfold format_f.
  match goal with
  | |- _ ∈ (let '(i, f) := ?pr in _) =>
      assert (a ∈ pr.1 \/ a ∈ pr.2) as Hpr;
        [|destruct pr as [i f]; simpl in Hpr;
          apply elem_of_app; right; apply elem_of_app;
          destruct Hpr as [?|Hf]; [by left|right];
          destruct f; [by apply elem_of_nil in Hf|];
          by apply list_elem_of_further]
  end.
  repeat match goal with
         | |- context [if ?b then _ else _] =>
             lazymatch type of b with bool => destruct b end
         end; cbn [fst snd];
    first [ by (right; apply elem_of_app; right)
          | by (left; apply elem_of_app; left)
          | idtac ].
  all: match goal with
       | |- _ ∈ match take ?n ?l with _ => _ end \/ _ =>
           assert (a ∈ take n l \/ a ∈ drop n l) as [Ht|Ht]
             by (apply elem_of_app; by rewrite take_drop);
             [left; destruct (take n l); [by apply elem_of_nil in Ht|done]
             |by right]
       end.
Qed.

Lemma formatted_area_nonempty d :
  0 < dec_coeff d -> formatted_area d <> [].
Proof.
  intros Hc.
  destruct (digits_of_Z_canonical (dec_coeff d)) as [Hd Hh].
  pose proof (nat_of_digits_of_Z (dec_coeff d) ltac:(lia)) as Hv.
  destruct (digits_of_Z (dec_coeff d)) as [|a rest] eqn:E; [done|].
  unfold all_digits in Hd. simpl in Hd.
  apply andb_true_iff in Hd as [Ha _].
  assert (a <> "0"%char) as H0.
  { intros ->. specialize (Hh eq_refl). subst rest.
    change (nat_of_digits ["0"%char]) with 0 in Hv. lia. }
  assert (a ∈ format_f d) as Hin.
  { apply format_f_keeps. rewrite E. apply list_elem_of_here. }
  assert (a ∈ formatted_area d) as Hin'.
  { unfold formatted_area. apply rstrip_chr_keeps.
    - apply rstrip_chr_keeps; auto.
      destruct (chr_eqb a "0") eqn:E0; auto.
      apply Ascii.eqb_eq in E0. congruence.
    - destruct (chr_eqb a ".") eqn:E0; auto.
      apply Ascii.eqb_eq in E0. subst a. discriminate Ha. }
  intros Hnil. rewrite Hnil in Hin'. by apply elem_of_nil in Hin'.
Qed.

End UpdateFacts.

Section LefExamples.

Lemma fits_short d : (length d <= 2)%nat -> fits_int d.
Proof. unfold fits_int, Lef.int_max_str_digits. lia. Qed.

Lemma dim_64 : is_dim (L "64").
Proof. split; [discriminate|reflexivity]. Qed.

Lemma dim_4 : is_dim (L "4").
Proof. split; [discriminate|reflexivity]. Qed.

Lemma dim_72 : is_dim (L "72").
Proof. split; [discriminate|reflexivity]. Qed.

Lemma srambank_no_underscore : "_"%char ∉ L "srambank".
Proof.
  intros H. cbv [L list_ascii_of_string] in H.
  repeat (apply elem_of_cons in H as [H|H]; [discriminate H|]).
  by apply elem_of_nil in H.
Qed.

Lemma tiny_macro_area :
  Lef.get_area_from_lef "a.lef" tiny_macro = Some (Area.Dec false 100 (-1)).
Proof. vm_compute. reflexivity. Qed.

Lemma tiny_macro_updated :
  (Lef.update_from_lef NoFault (L "a") "a.lib" "a.lef" tiny_macro).2
  = Some true.
Proof. vm_compute. reflexivity. Qed.

End LefExamples.

(** * Further properties of the three scripts *)

(** ** fix_asap7_macros.py *)

(** [X1] The spans returned by pass 1 are line ranges of the file, in
    ascending order and disjoint: each span starts at line 1 or later,
    ends at or after its start and at or before the last line, and ends
    before the next span starts. *)
Theorem X1_output_spans_ordered (lines : list str) :
  let rs := Fix.find_output_pin_line_ranges lines in
  (forall k s e,
     rs !! k = Some (s, e) -> 1 <= s <= e /\ e <= Z.of_nat (length lines))
  /\ (forall i j s e s' e',
        rs !! i = Some (s, e) -> rs !! j = Some (s', e') -> (i < j)%nat ->
        e < s').
Proof.
  cbv zeta. pose proof (find_ranges_sorted lines) as Hs. split.
  - intros k s e Hk.
    destruct (sorted_lookup_bounds _ _ _ _ _ Hs Hk) as [H1 H2].
    assert ((s, e) ∈ Fix.find_output_pin_line_ranges lines) as Hin
      by (eapply list_elem_of_lookup_2; eauto).
    apply find_ranges_closed in Hin as (i & j & [= -> ->] & Hij & _).
    lia.
  - intros i j s e s' e' Hi Hj Hlt. eapply sorted_lookup_lt; eauto.
Qed.

Lemma X1_witness :
  Fix.find_output_pin_line_ranges leaking_lines !! 0%nat = Some (1, 4)
  /\ Fix.find_output_pin_line_ranges leaking_lines !! 1%nat = Some (6, 9)
  /\ (0 < 1)%nat
  /\ 4 < 6.
Proof.
  assert (Fix.find_output_pin_line_ranges leaking_lines !! 0%nat
          = Some (1, 4)) as H0 by (by rewrite ranges_leaking).
  assert (Fix.find_output_pin_line_ranges leaking_lines !! 1%nat
          = Some (6, 9)) as H1 by (by rewrite ranges_leaking).
  split_and!; [exact H0|exact H1|lia|].
  exact (proj2 (X1_output_spans_ordered leaking_lines)
           0%nat 1%nat 1 4 6 9 H0 H1 ltac:(lia)).
Defined.

(** [X2] A file none of whose lines holds both words [direction] and
    [output] has no output span; pass 2 copies every line, and
    [process_lib_file] run in place writes the file back as it was read,
    that is with CR LF and CR turned into a newline, and leaves every
    other file as it was; a file that holds no CR is left as it was. *)
Theorem X2_no_output_pin_identity :
  (forall lines,
     no_output_direction lines ->
     Fix.find_output_pin_line_ranges lines = []
     /\ Fix.process_lines lines = lines)
  /\ (forall path content (fs : store),
        fs !! path = Some content ->
        no_output_direction (readlines content) ->
        Fix.process_lib_file NoFault path path fs
        = (<[path := read content]> fs, Fix.Done))
  /\ (forall path content (fs : store),
        fs !! path = Some content ->
        no_output_direction (readlines content) ->
        cr ∉ content ->
        Fix.process_lib_file NoFault path path fs = (fs, Fix.Done)).
Proof.
  assert (forall path content (fs : store),
            fs !! path = Some content ->
            no_output_direction (readlines content) ->
            Fix.process_lib_file NoFault path path fs
            = (<[path := read content]> fs, Fix.Done)) as Hrw.
  { intros path content fs Hf Hno.
    rewrite (process_lib_file_done _ _ _ _ Hf).
    rewrite process_lines_no_ranges by (by apply find_ranges_no_output).
    by rewrite concat_readlines. }
  split_and!.
  - intros lines Hno. pose proof (find_ranges_no_output _ Hno) as Hr.
    split; auto. by apply process_lines_no_ranges.
  - exact Hrw.
  - intros path content fs Hf Hno Hcr.
    rewrite (Hrw _ _ _ Hf Hno), read_id by done. by rewrite insert_id.
Qed.

Lemma X2_witness :
  (no_output_direction input_block_lines
   /\ Fix.find_output_pin_line_ranges input_block_lines = []
   /\ Fix.process_lines input_block_lines = input_block_lines)
  /\ Fix.process_lib_file NoFault "a.lib" "a.lib"
       {[ "a.lib"%string := crlf input_block_lines ]}
     = (<["a.lib"%string := read (crlf input_block_lines)]>
          {[ "a.lib"%string := crlf input_block_lines ]}, Fix.Done).
Proof.
  split.
  - split; [exact input_block_no_output|].
    exact (proj1 X2_no_output_pin_identity input_block_lines
             input_block_no_output).
  - exact (proj1 (proj2 X2_no_output_pin_identity) "a.lib"%string
             (crlf input_block_lines) _ (lookup_singleton_eq _ _)
             crlf_input_no_output).
Defined.

(** [X3] Pass 2 changes a line only inside an output span, and only by
    rescaling it: every line written is the line read or its rescaled
    form, and a line outside every span is the line read. *)
Theorem X3_lines_outside_spans_copied (lines : list str) (i : nat)
    (line : str) :
  lines !! i = Some line ->
  (in_block (Fix.find_output_pin_line_ranges lines) (Z.of_nat i + 1) = false ->
   Fix.process_lines lines !! i = Some line)
  /\ (Fix.process_lines lines !! i = Some line
      \/ Fix.process_lines lines !! i
         = Some (Fix.scale_numbers_in_line line)).
Proof.
  intros Hl. destruct (process_lines_expected lines) as [_ Hout].
  rewrite (Hout _ _ Hl). unfold expected. split.
  - by intros ->.
  - match goal with |- context [if ?b then _ else _] => destruct b end; auto.
Qed.

Lemma X3_witness :
  leaking_lines !! 4%nat = Some (L "foo );")
  /\ in_block (Fix.find_output_pin_line_ranges leaking_lines)
       (Z.of_nat 4 + 1) = false
  /\ Fix.process_lines leaking_lines !! 4%nat = Some (L "foo );").
Proof.
  assert (in_block (Fix.find_output_pin_line_ranges leaking_lines)
            (Z.of_nat 4 + 1) = false) as Hb
    by (rewrite ranges_leaking; reflexivity).
  split_and!; [reflexivity|exact Hb|].
  exact (proj1 (X3_lines_outside_spans_copied leaking_lines 4%nat
                  (L "foo );") eq_refl) Hb).
Defined.

(** [X4] [scale_numbers_in_line] leaves the layout of a line alone: every
    character that no number is written with -- anything but digits, the
    signs, the point, [e], [E] and the letters of [inf] -- occurs in the
    result as often as in the line.  In particular braces, parentheses,
    quotes, commas, semicolons, blanks and the end of line are kept. *)
Theorem X4_scaling_keeps_layout (line : str) (c : ascii) :
  is_number_chr c = false ->
  count c (Fix.scale_numbers_in_line line) = count c line.
Proof.
  intros Hc. eapply rewritten_count; eauto. apply scale_rewritten.
Qed.

Lemma X4_witness :
  is_number_chr "{" = false
  /\ count "{" (Fix.scale_numbers_in_line (L "values ( 1.2 ) {"))
     = count "{" (L "values ( 1.2 ) {").
Proof.
  split; [reflexivity|].
  exact (X4_scaling_keeps_layout (L "values ( 1.2 ) {") "{" eq_refl).
Defined.

(** [X5] The rescale tool writes to its output path and nowhere else:
    whatever goes wrong, every other file -- the input file too, when an
    output path other than the input is given -- is as before.  When the
    input file is missing nothing is written at all; when no output path
    is given the input file receives the result. *)
Theorem X5_rescale_writes_output_only :
  (forall ft input_lib output_lib (fs : store) g,
     g <> default input_lib output_lib ->
     (Main.fix_main ft input_lib output_lib fs).1 !! g = fs !! g)
  /\ (forall ft input_lib output_lib (fs : store),
        fs !! input_lib = None ->
        Main.fix_main ft input_lib output_lib fs = (fs, Fix.Exit1))
  /\ (forall input_lib content (fs : store),
        fs !! input_lib = Some content ->
        Main.fix_main NoFault input_lib None fs
        = (<[input_lib := concat (Fix.process_lines (readlines content))]> fs,
           Fix.Done)).
Proof.
  split_and!.
  - intros ft input_lib output_lib fs g Hg. unfold Main.fix_main.
    apply process_lib_file_frame. by destruct output_lib.
  - intros ft input_lib output_lib fs Hf.
    unfold Main.fix_main, Fix.process_lib_file. by rewrite Hf.
  - intros input_lib content fs Hf. unfold Main.fix_main.
    by apply process_lib_file_done.
Qed.

Lemma X5_witness :
  "a.lib"%string <> default "a.lib"%string (Some "b.lib"%string)
  /\ (Main.fix_main (IOErrorAt 0) "a.lib" (Some "b.lib"%string) tiny_lib).1
       !! "a.lib"%string
     = tiny_lib !! "a.lib"%string.
Proof.
  assert ("a.lib"%string <> default "a.lib"%string (Some "b.lib"%string))
    as Hne by (simpl; intros [=]).
  split; [exact Hne|].
  exact (proj1 X5_rescale_writes_output_only (IOErrorAt 0)
           "a.lib"%string (Some "b.lib"%string) tiny_lib "a.lib"%string Hne).
Defined.


(** ** remove_setup_falling.py *)

(** [X6] [clean_lib_file] only ever drops lines: the lines it writes are
    lines of the input, in the order of the input; none is added, altered
    or moved. *)
Theorem X6_clean_only_drops_lines (lines : list str) :
  Clean.clean_lines lines `sublist_of` lines.
Proof. apply clean_lines_sublist. Qed.

(** [X7] When no line of the input matches [timing_type : setup_falling;]
    nothing is removed and nothing is reported: every line read so far is
    either written or held back in the open block, so an input that does
    not end inside a timing block is written back line for line, and
    [clean_lib_file] leaves the file with the content that was read, that
    is with CR LF and CR turned into a newline; a file that holds no CR
    keeps the content it had. *)
Theorem X7_nothing_to_remove :
  (forall lines,
     no_setup_falling lines ->
     ends_outside_block lines ->
     Clean.clean_lines lines = lines
     /\ Clean.messages (Clean.run Clean.init lines) = [])
  /\ (forall filename content (fs : store),
        fs !! filename = Some content ->
        no_setup_falling (readlines content) ->
        ends_outside_block (readlines content) ->
        Clean.clean_lib_file NoFault filename fs
        = (<[filename := read content]> (delete (Clean.temp_of filename) fs),
           Clean.Overwritten 0))
  /\ (forall filename content (fs : store),
        fs !! filename = Some content ->
        no_setup_falling (readlines content) ->
        ends_outside_block (readlines content) ->
        cr ∉ content ->
        Clean.clean_lib_file NoFault filename fs
        = (delete (Clean.temp_of filename) fs, Clean.Overwritten 0)).
Proof.
  assert (forall lines,
            no_setup_falling lines -> ends_outside_block lines ->
            Clean.clean_lines lines = lines) as Hid.
  { intros lines Hno Hout.
    destruct (run_no_setup lines Hno) as (_ & _ & _ & Ho).
    destruct (run_invariant lines) as (_ & _ & Hnil & _). cbv zeta in *.
    rewrite (Hnil Hout), app_nil_r in Ho. exact Ho. }
  assert (forall filename content (fs : store),
            fs !! filename = Some content ->
            no_setup_falling (readlines content) ->
            ends_outside_block (readlines content) ->
            Clean.clean_lib_file NoFault filename fs
            = (<[filename := read content]>
                 (delete (Clean.temp_of filename) fs),
               Clean.Overwritten 0)) as Hrw.
  { intros filename content fs Hf Hno Hout.
    rewrite (clean_lib_file_ok _ _ _ Hf), (Hid _ Hno Hout), concat_readlines.
    by destruct (run_no_setup _ Hno) as (_ & _ & -> & _). }
  split_and!.
  - intros lines Hno Hout. split; auto.
    by destruct (run_no_setup lines Hno) as (_ & ? & _).
  - exact Hrw.
  - intros filename content fs Hf Hno Hout Hcr.
    rewrite (Hrw _ _ _ Hf Hno Hout), read_id by done.
    f_equal. apply insert_id.
    rewrite lookup_delete_ne; auto. apply temp_ne.
Qed.

Lemma X7_witness :
  (no_setup_falling hold_block_lines
   /\ ends_outside_block hold_block_lines
   /\ Clean.clean_lines hold_block_lines = hold_block_lines
   /\ Clean.messages (Clean.run Clean.init hold_block_lines) = [])
  /\ Clean.clean_lib_file NoFault "a.lib"
       {[ "a.lib"%string := crlf hold_block_lines ]}
     = (<["a.lib"%string := read (crlf hold_block_lines)]>
          (delete (Clean.temp_of "a.lib")
             {[ "a.lib"%string := crlf hold_block_lines ]}),
        Clean.Overwritten 0).
Proof.
  split.
  - split_and!;
      [exact hold_block_no_setup|exact hold_block_ends_outside|..];
      apply (proj1 X7_nothing_to_remove hold_block_lines
               hold_block_no_setup hold_block_ends_outside).
  - exact (proj1 (proj2 X7_nothing_to_remove) "a.lib"%string
             (crlf hold_block_lines) _ (lookup_singleton_eq _ _)
             crlf_hold_no_setup crlf_hold_ends_outside).
Defined.

(** [X8] The [REMOVED] messages are consistent: the count printed at the
    end is the number of messages, every message names a span of at least
    two lines that ends at or before the last line read, and the spans
    come in ascending order without overlap. *)
Theorem X8_removed_messages_ordered (lines : list str) :
  let st := Clean.run Clean.init lines in
  Clean.removed_blocks_count st = Z.of_nat (length (Clean.messages st))
  /\ sorted_ranges 0 (message_spans (Clean.messages st))
  /\ Forall (fun m => Clean.removed_first m < Clean.removed_last m
                      /\ Clean.removed_last m <= Z.of_nat (length lines))
       (Clean.messages st).
Proof.
  cbv zeta. destruct (run_messages lines) as (Hc & Hs & Hall & _).
  destruct (run_invariant lines) as (Hn & _). cbv zeta in *.
  rewrite Hn in Hall. auto.
Qed.

(** [X9] [clean_lib_file] touches two paths only, the file it is given
    and that name followed by [.tmp]; and unless the process is killed
    while writing, no file of the latter name is left behind -- one that
    existed before the run is lost, whether the run succeeds or fails. *)
Theorem X9_clean_touches_two_paths :
  (forall ft filename (fs : store) g,
     g <> filename -> g <> Clean.temp_of filename ->
     (Clean.clean_lib_file ft filename fs).1 !! g = fs !! g)
  /\ (forall ft filename (fs : store) content,
        fs !! filename = Some content ->
        (Clean.clean_lib_file ft filename fs).2 <> Clean.Killed ->
        (Clean.clean_lib_file ft filename fs).1 !! Clean.temp_of filename
        = None).
Proof.
  split.
  - intros. by apply clean_lib_file_frame.
  - intros. by eapply clean_lib_file_temp.
Qed.

Lemma X9_witness :
  tiny_lib !! "a.lib"%string
  = Some (L "area : 0 ;
")
  /\ (Clean.clean_lib_file MoveError "a.lib" tiny_lib).2 <> Clean.Killed
  /\ (Clean.clean_lib_file MoveError "a.lib" tiny_lib).1
       !! Clean.temp_of "a.lib"
     = None.
Proof.
  assert ((Clean.clean_lib_file MoveError "a.lib" tiny_lib).2
          <> Clean.Killed) as Hk by (vm_compute; intros [=]).
  split_and!; [reflexivity|exact Hk|].
  exact (proj2 X9_clean_touches_two_paths MoveError "a.lib"%string tiny_lib
           _ (lookup_singleton_eq _ _) Hk).
Defined.

(** [X10] Cleaning several files in one run cleans each of them as a run
    of its own would, provided no file given is the temporary file
    ([name.tmp]) of a file given: absent faults, each file given that
    exists ends with its cleaned content, also when it is given more than
    once.  Whatever the faults, a file that is neither given nor the
    temporary file of a file given is not touched. *)
Theorem X10_batch_cleans_each_file :
  (forall ft filenames (fs : store) f content,
     (forall k, ft k = NoFault) ->
     (forall h, h ∈ filenames -> f <> Clean.temp_of h) ->
     f ∈ filenames ->
     fs !! f = Some content ->
     (Main.clean_main ft filenames fs).1 !! f = Some (cleaned content))
  /\ (forall ft filenames (fs : store) g,
        g ∉ filenames ->
        (forall h, h ∈ filenames -> g <> Clean.temp_of h) ->
        (Main.clean_main ft filenames fs).1 !! g = fs !! g).
Proof.
  split.
  - intros ft filenames fs f content Hft Ht Hin Hf. unfold Main.clean_main.
    rewrite (clean_each_content ft filenames 0 fs f content Hft Ht Hf).
    by case_decide.
  - intros. by apply clean_each_frame.
Qed.

Lemma X10_witness :
  (forall k : nat, (fun _ : nat => NoFault) k = NoFault)
  /\ (forall h, h ∈ ["a.lib"%string; "a.lib"%string] ->
      "a.lib"%string <> Clean.temp_of h)
  /\ "a.lib"%string ∈ ["a.lib"%string; "a.lib"%string]
  /\ (Main.clean_main (fun _ => NoFault) ["a.lib"%string; "a.lib"%string]
        tiny_lib).1 !! "a.lib"%string
     = Some (cleaned (L "area : 0 ;
")).
Proof.
  assert (forall h, h ∈ ["a.lib"%string; "a.lib"%string] ->
                    "a.lib"%string <> Clean.temp_of h) as Ht.
  { intros h Hin.
    repeat (apply elem_of_cons in Hin as [->|Hin]; [intros [=]|]).
    by apply elem_of_nil in Hin. }
  split_and!; [reflexivity|exact Ht|apply list_elem_of_here|].
  exact (proj1 X10_batch_cleans_each_file (fun _ => NoFault)
           ["a.lib"%string; "a.lib"%string] tiny_lib "a.lib"%string _
           (fun _ => eq_refl) Ht (list_elem_of_here _ _)
           (lookup_singleton_eq _ _)).
Defined.

(** ** update_lib_area.py *)

(** [X11] An area that is a whole number loses its trailing zeros when it
    is written: [c] followed by any number of zeros, [c] positive and not
    itself a multiple of ten, is written as [c] alone (100 as 1, 1200 as
    12), and the area 0 is written as the empty text. *)
Theorem X11_integer_area_loses_zeros :
  (forall c j k,
     0 < c -> c mod 10 <> 0 -> 0 <= j -> 0 <= k ->
     Area.formatted_area (Area.Dec false (c * 10 ^ j) k) = digits_of_Z c)
  /\ (forall k, 0 <= k -> Area.formatted_area (Area.Dec false 0 k) = []).
Proof.
  split.
  - apply formatted_integer.
  - intros k Hk. unfold Area.formatted_area, Area.format_f.
    cbn [Area.dec_coeff Area.dec_exp Area.dec_neg].
    destruct (0 <? k) eqn:E; [reflexivity|].
    apply Z.ltb_ge in E. assert (k = 0) as -> by lia. reflexivity.
Qed.

Lemma X11_witness :
  (0 < 12 /\ 12 mod 10 <> 0 /\ 0 <= 2 /\ 0 <= 0)
  /\ Area.formatted_area (Area.Dec false (12 * 10 ^ 2) 0) = L "12".
Proof.
  assert (12 mod 10 <> 0) as Hm by (vm_compute; intros [=]).
  split; [split_and!; auto; lia|].
  exact (proj1 X11_integer_area_loses_zeros 12 2 0
           ltac:(lia) Hm ltac:(lia) ltac:(lia)).
Defined.

(** [X12] When [get_bits_from_name] returns a number, the name holds a
    triple [_AxBxC] of non-empty runs of digits, none too long for [int],
    the number is the product of the three, and it is positive: the test
    [total_bits > 0] made by the caller never fails. *)
Theorem X12_bits_positive_product (macro_name : str) (n : Z) :
  Lef.get_bits_from_name macro_name = Some n ->
  0 < n
  /\ exists pre d1 d2 d3 post,
       macro_name = pre ++ bits_text d1 d2 d3 ++ post
       /\ is_dim d1 /\ is_dim d2 /\ is_dim d3
       /\ fits_int d1 /\ fits_int d2 /\ fits_int d3
       /\ n = bits_of d1 d2 d3.
Proof.
  unfold Lef.get_bits_from_name.
  destruct (search Lef.BITS_RE macro_name) as [[rest cs]|] eqn:E;
    [|discriminate].
  apply search_from_sound in E as (pre & u & -> & M).
  apply bits_shape in M as (d1 & d2 & d3 & -> & H1 & H2 & H3 & ->).
  cbn [group Nat.eqb].
  destruct (Lef.int_of_str d1) as [n1|] eqn:E1; [|discriminate].
  destruct (Lef.int_of_str d2) as [n2|] eqn:E2; [|discriminate].
  destruct (Lef.int_of_str d3) as [n3|] eqn:E3; [|discriminate].
  apply int_of_str_some in E1 as [F1 ->].
  apply int_of_str_some in E2 as [F2 ->].
  apply int_of_str_some in E3 as [F3 ->].
  fold (bits_of d1 d2 d3).
  pose proof (bits_of_nonneg _ _ _ H1 H2 H3) as Hge.
  destruct (bits_of d1 d2 d3 =? 0) eqn:E0; [discriminate|].
  intros [= <-]. apply Z.eqb_neq in E0. split; [lia|].
  exists pre, d1, d2, d3, rest. split_and!; auto.
Qed.

Lemma X12_witness :
  Lef.get_bits_from_name (L "srambank_64x4x72_6t122") = Some 18432
  /\ 0 < 18432.
Proof.
  assert (Lef.get_bits_from_name (L "srambank_64x4x72_6t122") = Some 18432)
    as H by (vm_compute; reflexivity).
  split; [exact H|].
  exact (proj1 (X12_bits_positive_product _ _ H)).
Defined.

(** [X13] The first triple of the name decides: when the name has no
    underscore before a triple [_AxBxC] that is not followed by a further
    digit, and A, B and C are not too long for [int],
    [get_bits_from_name] returns the product of A, B and C, or [None]
    when that product is zero -- whatever comes after the triple. *)
Theorem X13_first_triple_decides (pre d1 d2 d3 post : str) :
  "_"%char ∉ pre ->
  is_dim d1 -> is_dim d2 -> is_dim d3 ->
  fits_int d1 -> fits_int d2 -> fits_int d3 ->
  opt_holds is_digit (head post) = false ->
  Lef.get_bits_from_name (pre ++ bits_text d1 d2 d3 ++ post)
  = if (bits_of d1 d2 d3 =? 0) then None else Some (bits_of d1 d2 d3).
Proof.
  intros Hpre H1 H2 H3 F1 F2 F3 Hpost.
  apply (get_bits_of_search _ post); auto. unfold search.
  rewrite search_from_skip.
  - apply search_from_here. by apply bits_match.
  - intros p' a s' Ha. apply bits_no_match. intros ->. contradiction.
Qed.

Lemma X13_witness :
  ("_"%char ∉ L "srambank")
  /\ is_dim (L "64") /\ is_dim (L "4") /\ is_dim (L "72")
  /\ fits_int (L "64") /\ fits_int (L "4") /\ fits_int (L "72")
  /\ opt_holds is_digit (head (L "_6t122")) = false
  /\ Lef.get_bits_from_name
       (L "srambank" ++ bits_text (L "64") (L "4") (L "72") ++ L "_6t122")
     = Some 18432.
Proof.
  assert (fits_int (L "64")) as F1 by (apply fits_short; simpl; lia).
  assert (fits_int (L "4")) as F2 by (apply fits_short; simpl; lia).
  assert (fits_int (L "72")) as F3 by (apply fits_short; simpl; lia).
  split_and!;
    [exact srambank_no_underscore|exact dim_64|exact dim_4|exact dim_72
    |exact F1|exact F2|exact F3|reflexivity|].
  exact (X13_first_triple_decides (L "srambank") (L "64") (L "4") (L "72")
           (L "_6t122") srambank_no_underscore dim_64 dim_4 dim_72
           F1 F2 F3 eq_refl).
Defined.

(** [X14] An area returned by [get_area_from_lef] is not negative and has
    at most ten significant digits, the precision set for the products;
    the text written for it into a library file consists of digits and
    points only. *)
Theorem X14_lef_area_ten_digits (lef_file_path : string) (fs : store)
    (area : Area.Decimal) :
  Lef.get_area_from_lef lef_file_path fs = Some area ->
  Area.dec_neg area = false
  /\ 0 <= Area.dec_coeff area < 10 ^ 10
  /\ all_num (Area.formatted_area area).
Proof.
  intros H.
  apply get_area_from_lef_inv in H as (w & h & Hw & Hwc & Hh & Hhc & Hm).
  unfold Lef.Decimal_mul in Hm. apply Decimal_fix_bounds in Hm as [Hn Hc].
  - simpl in Hn. rewrite Hw, Hh in Hn. simpl in Hn.
    split_and!; auto; try apply Hc. by apply formatted_area_num.
  - simpl. lia.
Qed.

Lemma X14_witness :
  Lef.get_area_from_lef "a.lef" tiny_macro = Some (Area.Dec false 100 (-1))
  /\ 0 <= 100 < 10 ^ 10.
Proof.
  split; [exact tiny_macro_area|].
  exact (proj1 (proj2 (X14_lef_area_ten_digits _ _ _ tiny_macro_area))).
Defined.

(** [X15] The product of width and height is exact as long as it has at
    most ten significant digits (and its exponent is within the range of
    the context); only longer products are rounded. *)
Theorem X15_short_products_exact (a b : Area.Decimal) :
  0 < Area.dec_coeff a * Area.dec_coeff b < 10 ^ Lef.prec ->
  Lef.Etiny <= Area.dec_exp a + Area.dec_exp b <= Lef.Etop ->
  Lef.Decimal_mul a b
  = Some (Area.Dec (xorb (Area.dec_neg a) (Area.dec_neg b))
            (Area.dec_coeff a * Area.dec_coeff b)
            (Area.dec_exp a + Area.dec_exp b)).
Proof. apply Decimal_mul_exact. Qed.

(** [X16] One iteration of the loop of [main] writes to the library file
    and nowhere else, whatever goes wrong.  When the LEF file is missing
    the library file is not touched and the macro counts as failed; and,
    absent write faults, a macro that counts as failed leaves every file
    as it was. *)
Theorem X16_area_update_writes_lib_only :
  (forall ft macro_name lib_file_path lef_file_path (fs : store) g,
     g <> lib_file_path ->
     (Lef.update_from_lef ft macro_name lib_file_path lef_file_path fs).1
       !! g
     = fs !! g)
  /\ (forall ft macro_name lib_file_path lef_file_path (fs : store),
        fs !! lef_file_path = None ->
        Lef.update_from_lef ft macro_name lib_file_path lef_file_path fs
        = (fs, Some false))
  /\ (forall macro_name lib_file_path lef_file_path (fs : store),
        (Lef.update_from_lef NoFault macro_name lib_file_path lef_file_path
           fs).2
        = Some false ->
        (Lef.update_from_lef NoFault macro_name lib_file_path lef_file_path
           fs).1
        = fs).
Proof.
  split_and!.
  - intros ft name lib lef fs g Hg. unfold Lef.update_from_lef.
    destruct (Lef.get_area_from_lef lef fs); [|done].
    destruct (Lef.density_raises name _); [done|].
    by apply update_lib_file_frame.
  - intros ft name lib lef fs Hf.
    unfold Lef.update_from_lef, Lef.get_area_from_lef. by rewrite Hf.
  - intros name lib lef fs. unfold Lef.update_from_lef.
    destruct (Lef.get_area_from_lef lef fs); [|done].
    destruct (Lef.density_raises name _); [done|].
    apply update_lib_file_false.
Qed.

Lemma X16_witness :
  "a.lef"%string <> "a.lib"%string
  /\ (Lef.update_from_lef (IOErrorAt 0) (L "a") "a.lib" "a.lef"
        tiny_macro).1 !! "a.lef"%string
     = tiny_macro !! "a.lef"%string.
Proof.
  assert ("a.lef"%string <> "a.lib"%string) as Hne by (intros [=]).
  split; [exact Hne|].
  exact (proj1 X16_area_update_writes_lib_only (IOErrorAt 0) (L "a")
           "a.lib"%string "a.lef"%string tiny_macro "a.lef"%string Hne).
Defined.

(** [X17] A non-zero area is never written as the empty text; and once an
    iteration of the loop of [main] has updated a library file from its
    LEF file with an area whose text is not empty, the same iteration run
    again finds the area fields again, leaves every file as the first run
    left it and counts the macro as updated again. *)
Theorem X17_area_update_repeatable :
  (forall d, 0 < Area.dec_coeff d -> Area.formatted_area d <> [])
  /\ (forall macro_name lib_file_path lef_file_path (fs : store) area,
        lef_file_path <> lib_file_path ->
        Lef.get_area_from_lef lef_file_path fs = Some area ->
        Area.formatted_area area <> [] ->
        (Lef.update_from_lef NoFault macro_name lib_file_path lef_file_path
           fs).2
        = Some true ->
        Lef.update_from_lef NoFault macro_name lib_file_path lef_file_path
          (Lef.update_from_lef NoFault macro_name lib_file_path
             lef_file_path fs).1
        = ((Lef.update_from_lef NoFault macro_name lib_file_path
              lef_file_path fs).1,
           Some true)).
Proof.
  split; [apply formatted_area_nonempty|].
  intros name lib lef fs area Hne Harea Hfa Htrue.
  pose proof (get_area_from_lef_inv _ _ _ Harea)
    as (w & h & Hw & Hwc & Hh & Hhc & Hm).
  assert (Area.dec_neg area = false) as Hneg.
  { unfold Lef.Decimal_mul in Hm.
    apply Decimal_fix_bounds in Hm as [Hn _]; [|simpl; lia].
    simpl in Hn. by rewrite Hw, Hh in Hn. }
  unfold Lef.update_from_lef in *. rewrite Harea in *.
  destruct (Lef.density_raises name area) eqn:Er; [discriminate Htrue|].
  rewrite (get_area_from_lef_ext lef fs
             (Area.update_lib_file NoFault lib area fs).1)
    by (by apply update_lib_file_frame).
  rewrite Harea, Er.
  apply update_lib_file_true in Htrue as (content & Hf & Hc).
  apply (update_lib_file_twice _ _ content); auto.
  by apply formatted_area_num.
Qed.

Lemma X17_witness :
  "a.lef"%string <> "a.lib"%string
  /\ Lef.get_area_from_lef "a.lef" tiny_macro
     = Some (Area.Dec false 100 (-1))
  /\ Area.formatted_area (Area.Dec false 100 (-1)) <> []
  /\ (Lef.update_from_lef NoFault (L "a") "a.lib" "a.lef" tiny_macro).2
     = Some true
  /\ Lef.update_from_lef NoFault (L "a") "a.lib" "a.lef"
       (Lef.update_from_lef NoFault (L "a") "a.lib" "a.lef" tiny_macro).1
     = ((Lef.update_from_lef NoFault (L "a") "a.lib" "a.lef" tiny_macro).1,
        Some true).
Proof.
  assert ("a.lef"%string <> "a.lib"%string) as Hne by (intros [=]).
  assert (Area.formatted_area (Area.Dec false 100 (-1)) <> []) as Hfa
    by (vm_compute; intros [=]).
  split_and!;
    [exact Hne|exact tiny_macro_area|exact Hfa|exact tiny_macro_updated|].
  exact (proj2 X17_area_update_repeatable (L "a") "a.lib"%string
           "a.lef"%string tiny_macro _ Hne tiny_macro_area Hfa
           tiny_macro_updated).
Defined.

(** [X18] Every span returned by pass 1 starts at a line that opens a pin
    or bus block -- a line that begins, after blanks, with [pin (] or
    [bus (] -- and holds, between its first and its last line, a line with
    both words [direction] and [output]. *)
Theorem X18_spans_are_output_blocks (lines : list str) (r : Z * Z) :
  r ∈ Fix.find_output_pin_line_ranges lines -> output_span lines r.
Proof. apply find_ranges_output_span. Qed.

Lemma X18_witness :
  ((1, 4) ∈ Fix.find_output_pin_line_ranges one_block_lines)
  /\ output_span one_block_lines (1, 4).
Proof.
  assert ((1, 4) ∈ Fix.find_output_pin_line_ranges one_block_lines) as Hin
    by (rewrite ranges_one; apply list_elem_of_here).
  split; [exact Hin|].
  exact (X18_spans_are_output_blocks one_block_lines (1, 4) Hin).
Defined.

(** [X19] Rescaling keeps the brace structure of the file: the brace
    depth after any number of lines is the same in the lines written by
    pass 2 as in the lines read. *)
Theorem X19_rescaling_keeps_depth (lines : list str) (k : nat) :
  depth (Fix.process_lines lines) k = depth lines k.
Proof.
  unfold depth. apply net_braces_same, Forall2_take,
    process_lines_same_braces.
Qed.
